(** * ComfyUI sticky notes: a shallow embedding of [web/main.js]

    The development follows the source file top-down: the constants, the
    markdown renderer ([parseMarkdown]), the persistence adapter
    ([serializeNotes], [deserializeNotes]), the coordinate conversions, the
    note store with its selection, and the input handlers.

    Conventions of the embedding.
    - A JavaScript number is an exact rational ([Q]): there is no rounding,
      no [NaN] and no infinity.  Ids and timestamps are integers ([Z]).
      The two coordinate conversions are given a second time on binary64
      values (module [Binary64]), where their round trip is studied.
    - A JavaScript string is a [string]: a sequence of code units below 256.
      The only line terminators in that range are LF and CR.
    - The module-level variables of the script ([stickyNotes],
      [noteIdCounter], [selectedNoteId], [clipboardNote], [isTKeyHeld]) are
      the fields of one [State] record that every function threads.
    - What the host owns ([app.canvas.ds], [Date.now()], layout read-back) is
      an argument of the function that reads it. *)

From Stdlib Require Import List String Ascii Bool Arith ZArith QArith Lia.
From Stdlib Require Import Floats.
Import ListNotations.
Open Scope string_scope.
Open Scope list_scope.

(* ================================================================== *)
(** ** Constants *)

Definition DEFAULT_COLOR : string := "yellow".

Definition DEFAULT_WIDTH : Q := 240.
Definition DEFAULT_HEIGHT : Q := 120.
Definition MIN_WIDTH : Q := 120.
Definition MIN_HEIGHT : Q := 80.

Definition DEFAULT_TEXT : string := "New note...".

(* ================================================================== *)
(** ** Coordinate conversion

    [app.canvas.ds] is the host's drag-and-scale record. *)

Record DragScale : Type := mkDS {
  ds_scale : Q;
  ds_offset0 : Q;
  ds_offset1 : Q
}.

Record Point : Type := mkPoint { px : Q; py : Q }.

(** [screenToCanvas]: [screenPos / scale - offset]. *)
Definition screenToCanvas (ds : DragScale) (screenX screenY : Q) : Point :=
  let canvasX := (screenX / ds_scale ds - ds_offset0 ds)%Q in
  let canvasY := (screenY / ds_scale ds - ds_offset1 ds)%Q in
  mkPoint canvasX canvasY.

(** [canvasToScreen]: [(canvasPos + offset) * scale]. *)
Definition canvasToScreen (ds : DragScale) (canvasX canvasY : Q) : Point :=
  let screenX := ((canvasX + ds_offset0 ds) * ds_scale ds)%Q in
  let screenY := ((canvasY + ds_offset1 ds) * ds_scale ds)%Q in
  mkPoint screenX screenY.

(** Two points denote the same position when their coordinates are equal
    as rationals. *)
Definition point_eq (p q : Point) : Prop :=
  (px p == px q)%Q /\ (py p == py q)%Q.

(* ================================================================== *)
(** ** Coordinate conversion on binary64

    The source computes the two conversions on JavaScript numbers, that is
    on IEEE 754 binary64 values with round-to-nearest.  This module gives
    them on the kernel's binary64 floats, operation for operation. *)

Module Binary64.

Record DragScale : Type := mkDS {
  ds_scale : float;
  ds_offset0 : float;
  ds_offset1 : float
}.

Record Point : Type := mkPoint { px : float; py : float }.

(** [screenToCanvas]: [screenPos / scale - offset]. *)
Definition screenToCanvas (ds : DragScale) (screenX screenY : float) : Point :=
  let canvasX := (screenX / ds_scale ds - ds_offset0 ds)%float in
  let canvasY := (screenY / ds_scale ds - ds_offset1 ds)%float in
  mkPoint canvasX canvasY.

(** [canvasToScreen]: [(canvasPos + offset) * scale]. *)
Definition canvasToScreen (ds : DragScale) (canvasX canvasY : float) : Point :=
  let screenX := ((canvasX + ds_offset0 ds) * ds_scale ds)%float in
  let screenY := ((canvasY + ds_offset1 ds) * ds_scale ds)%float in
  mkPoint screenX screenY.

(** To the view and back. *)
Definition roundtrip (ds : DragScale) (x y : float) : Point :=
  let v := canvasToScreen ds x y in
  screenToCanvas ds (px v) (py v).

(** [n] consecutive integers from [from] on. *)
Fixpoint upto (n : nat) (from : float) : list float :=
  match n with
  | O => []
  | S n' => from :: upto n' (from + 1)%float
  end.

(** The integers -256, ..., 256. *)
Definition grid : list float := upto 513 (-256)%float.

(** Sample zoom levels from 0.1 to 10; 0.1 and 1.1 stand for the binary64
    values nearest to them. *)
Definition zoom_levels : list float :=
  [0x1.999999999999ap-4; 0.25; 0.5; 0.75; 1; 0x1.199999999999ap+0;
   1.5; 2; 4; 10]%float.

(** The zoom levels that are powers of two. *)
Definition dyadic_levels : list float := [0.25; 0.5; 1; 2; 4]%float.

(** The tolerance: 2^-40. *)
Definition tolerance : float := 0x1p-40%float.

Definition close (a b : float) : bool :=
  (PrimFloat.abs (a - b) <=? tolerance)%float.

(** One coordinate of the round trip. *)
Definition there_and_back (scale offset x : float) : float :=
  ((x + offset) * scale / scale - offset)%float.

Definition is_in (x : float) (l : list float) : bool :=
  existsb (fun y => (x =? y)%float) l.

Definition check (scale offset x : float) : bool :=
  let r := there_and_back scale offset x in
  close r x && (negb (is_in scale dyadic_levels) || (r =? x)%float).

End Binary64.

(* ================================================================== *)
(** ** Regular expressions

    [parseMarkdown] is a chain of [String.prototype.replace] calls with
    global regular expressions.  The patterns are kept as syntax and run by
    one backtracking matcher, so that each stage below can be compared with
    the pattern it stands for. *)

Definition str : Type := list ascii.

Definition LF : ascii := ascii_of_nat 10.
Definition CR : ascii := ascii_of_nat 13.
Definition DQUOTE : ascii := ascii_of_nat 34.

Definition is_line_terminator (c : ascii) : bool :=
  Ascii.eqb c LF || Ascii.eqb c CR.

Inductive regex : Type :=
| REps                                         (* the empty pattern *)
| RChar (c : ascii)                            (* a literal character *)
| RClass (p : ascii -> bool)                   (* a character class *)
| RBol                                         (* ^ with the m flag *)
| REol                                         (* $ with the m flag *)
| RSeq (r1 r2 : regex)
| RRep (greedy : bool) (min : nat) (r : regex) (* r{min,} and r{min,}? *)
| ROpt (r : regex)                             (* r? *)
| RGroup (n : nat) (r : regex).                (* the n-th capture *)

(** Captures: the most recent binding of a group number comes first. *)
Definition caps : Type := list (nat * str).

Fixpoint capture (n : nat) (cs : caps) : str :=
  match cs with
  | [] => []
  | (k, v) :: cs' => if Nat.eqb k n then v else capture n cs'
  end.

(** A match position: the character before it (none at index 0), the text
    from it on, and the captures made so far. *)
Definition result : Type := (option ascii * str * caps)%type.
Definition cont : Type := option ascii -> str -> caps -> option result.
Definition matcher : Type := option ascii -> str -> caps -> cont -> option result.

Definition at_bol (prev : option ascii) : bool :=
  match prev with
  | None => true
  | Some c => is_line_terminator c
  end.

Definition at_eol (s : str) : bool :=
  match s with
  | [] => true
  | c :: _ => is_line_terminator c
  end.

Definition or_else (a b : option result) : option result :=
  match a with
  | Some x => Some x
  | None => b
  end.

(** Repetition.  After [min] iterations a greedy quantifier first tries one
    more iteration and then the continuation, a lazy one the other way
    round.  An iteration that consumes nothing is refused, as in
    ECMAScript; [fuel] only has to exceed the length of the text. *)
Fixpoint rep (body : matcher) (greedy : bool) (fuel min : nat)
    (prev : option ascii) (s : str) (cs : caps) (k : cont) : option result :=
  match fuel with
  | O => None
  | S fuel' =>
      let more :=
        body prev s cs (fun prev' s' cs' =>
          if (List.length s' <? List.length s)%nat
          then rep body greedy fuel' (Nat.pred min) prev' s' cs' k
          else None) in
      match min with
      | S _ => more
      | O => if greedy then or_else more (k prev s cs)
             else or_else (k prev s cs) more
      end
  end.

Fixpoint rmatch (r : regex) : matcher :=
  match r with
  | REps => fun prev s cs k => k prev s cs
  | RChar c => fun prev s cs k =>
      match s with
      | x :: s' => if Ascii.eqb x c then k (Some x) s' cs else None
      | [] => None
      end
  | RClass p => fun prev s cs k =>
      match s with
      | x :: s' => if p x then k (Some x) s' cs else None
      | [] => None
      end
  | RBol => fun prev s cs k => if at_bol prev then k prev s cs else None
  | REol => fun prev s cs k => if at_eol s then k prev s cs else None
  | RSeq r1 r2 => fun prev s cs k =>
      rmatch r1 prev s cs (fun prev' s' cs' => rmatch r2 prev' s' cs' k)
  | RRep greedy min r' => fun prev s cs k =>
      rep (rmatch r') greedy (S (List.length s)) min prev s cs k
  | ROpt r' => fun prev s cs k =>
      or_else (rmatch r' prev s cs k) (k prev s cs)
  | RGroup n r' => fun prev s cs k =>
      rmatch r' prev s cs (fun prev' s' cs' =>
        k prev' s' ((n, firstn (List.length s - List.length s') s) :: cs'))
  end.

(** One attempt of the pattern at the current position. *)
Definition exec (r : regex) (prev : option ascii) (s : str) : option result :=
  rmatch r prev s [] (fun prev' s' cs' => Some (prev', s', cs')).

(** Replacement templates: literal text and [$n]. *)
Inductive piece : Type :=
| TLit (s : string)
| TGroup (n : nat).

Definition template : Type := list piece.

Fixpoint expand (t : template) (cs : caps) : str :=
  match t with
  | [] => []
  | TLit s :: t' => list_ascii_of_string s ++ expand t' cs
  | TGroup n :: t' => capture n cs ++ expand t' cs
  end.

(** [text.replace(/r/g, t)]: scan left to right; at a match emit the
    expansion and resume after it, otherwise copy one character.  After an
    empty match one character is copied before the next attempt. *)
Fixpoint replace_from (fuel : nat) (r : regex) (t : template)
    (prev : option ascii) (s : str) : str :=
  match fuel with
  | O => s
  | S fuel' =>
      let copy_one :=
        match s with
        | [] => []
        | c :: s' => c :: replace_from fuel' r t (Some c) s'
        end in
      match exec r prev s with
      | Some (prev', s', cs) =>
          expand t cs ++
          (if (List.length s' <? List.length s)%nat
           then replace_from fuel' r t prev' s'
           else copy_one)
      | None => copy_one
      end
  end.

Definition replace (r : regex) (t : template) (s : str) : str :=
  replace_from (S (List.length s)) r t None s.

(** *** Pattern syntax *)

Fixpoint seq (rs : list regex) : regex :=
  match rs with
  | [] => REps
  | [r] => r
  | r :: rs' => RSeq r (seq rs')
  end.

(** A literal run of characters. *)
Definition lit (s : string) : regex :=
  seq (map RChar (list_ascii_of_string s)).

(** [.] : any character but a line terminator. *)
Definition dot : regex := RClass (fun c => negb (is_line_terminator c)).

(** [[\s\S]] : any character. *)
Definition anychar : regex := RClass (fun _ => true).

(** [[^c]] . *)
Definition notchar (c : ascii) : regex := RClass (fun x => negb (Ascii.eqb x c)).

(** [[abc]] . *)
Definition oneof (s : string) : regex :=
  RClass (fun x => existsb (Ascii.eqb x) (list_ascii_of_string s)).

(** [\d] . *)
Definition digit : regex := oneof "0123456789".

Definition plus (r : regex) : regex := RRep true 1 r.        (* r+ *)
Definition plus_lazy (r : regex) : regex := RRep false 1 r.  (* r+? *)
Definition star_lazy (r : regex) : regex := RRep false 0 r.  (* r*? *)

Definition DQ : string := String DQUOTE "".

(* ================================================================== *)
(** ** [parseMarkdown]

    One entry per [.replace(pattern, replacement)] of the source, in the
    order of the source. *)

Definition stage : Type := (regex * template)%type.

(** [/^prefix (.+)$/gm] with the replacement [<tag>$1</tag>]. *)
Definition line_rule (prefix : regex) (open close : string) : stage :=
  (seq [RBol; prefix; RGroup 1 (plus dot); REol],
   [TLit open; TGroup 1; TLit close]).

(** [/open(body)close/g] with the replacement [<tag>$1</tag>]. *)
Definition span_rule (opn : string) (body : regex) (cls : string)
    (open close : string) : stage :=
  (seq [lit opn; RGroup 1 body; lit cls],
   [TLit open; TGroup 1; TLit close]).

(** Escape HTML first. *)
Definition escape_stages : list stage :=
  [ (RChar "&", [TLit "&amp;"]);
    (RChar "<", [TLit "&lt;"]);
    (RChar ">", [TLit "&gt;"]) ].

Definition markup_stages : list stage :=
  [ (* Headers (must be at start of line) *)
    line_rule (lit "### ") "<h3>" "</h3>";
    line_rule (lit "## ") "<h2>" "</h2>";
    line_rule (lit "# ") "<h1>" "</h1>";
    (* Blockquotes *)
    line_rule (lit "&gt; ") "<blockquote>" "</blockquote>";
    (* Code blocks (triple backticks) *)
    span_rule "```" (star_lazy anychar) "```" "<pre><code>" "</code></pre>";
    (* Inline code *)
    span_rule "`" (plus (notchar "`")) "`" "<code>" "</code>";
    (* Bold *)
    span_rule "**" (plus_lazy dot) "**" "<strong>" "</strong>";
    span_rule "__" (plus_lazy dot) "__" "<strong>" "</strong>";
    (* Italic *)
    span_rule "*" (plus (notchar "*")) "*" "<em>" "</em>";
    span_rule "_" (plus (notchar "_")) "_" "<em>" "</em>";
    (* Strikethrough *)
    span_rule "~~" (plus_lazy dot) "~~" "<del>" "</del>";
    (* Links *)
    (seq [lit "["; RGroup 1 (plus (notchar "]")); lit "]("; 
          RGroup 2 (plus (notchar ")")); lit ")"],
     [TLit "<a href="; TLit DQ; TGroup 2; TLit DQ;
      TLit " target="; TLit DQ; TLit "_blank"; TLit DQ;
      TLit " rel="; TLit DQ; TLit "noopener"; TLit DQ; TLit ">";
      TGroup 1; TLit "</a>"]);
    (* Unordered lists *)
    line_rule (RSeq (oneof "-*") (lit " ")) "<li>" "</li>";
    (* Ordered lists *)
    line_rule (seq [plus digit; lit ". "]) "<li>" "</li>";
    (* Horizontal rule *)
    (seq [RBol; lit "---"; REol], [TLit "<hr>"]);
    (* Line breaks *)
    (RChar LF, [TLit "<br>"]) ].

(** [<li>.*?</li>] *)
Definition li_item : regex := seq [lit "<li>"; star_lazy dot; lit "</li>"].

(** Wrap consecutive [<li>] elements in [<ul>]. *)
Definition list_stages : list stage :=
  [ (seq [RGroup 1 li_item; ROpt (RGroup 2 (lit "<br>"))], [TGroup 1]);
    (RGroup 1 (plus li_item), [TLit "<ul>"; TGroup 1; TLit "</ul>"]) ].

(** [/<br>(tag)/g] and [/(tag)<br>/g], both replaced by [$1]. *)
Definition br_before (tag : regex) : stage :=
  (seq [lit "<br>"; RGroup 1 tag], [TGroup 1]).
Definition br_after (tag : regex) : stage :=
  (seq [RGroup 1 tag; lit "<br>"], [TGroup 1]).

(** Clean up extra [<br>] around block elements. *)
Definition cleanup_stages : list stage :=
  [ br_before (seq [lit "<h"; oneof "123"; lit ">"]);
    br_after (seq [lit "</h"; oneof "123"; lit ">"]);
    br_before (lit "<blockquote>");
    br_after (lit "</blockquote>");
    br_before (lit "<ul>");
    br_after (lit "</ul>");
    br_before (lit "<pre>");
    br_after (lit "</pre>");
    br_before (lit "<hr>");
    br_after (lit "<hr>") ].

Definition run_stages (stages : list stage) (html : str) : str :=
  fold_left (fun h st => replace (fst st) (snd st) h) stages html.

Definition parseMarkdown (text : string) : string :=
  match text with
  | EmptyString => ""
  | _ =>
      let html := list_ascii_of_string text in
      let html := run_stages escape_stages html in
      let html := run_stages markup_stages html in
      let html := run_stages list_stages html in
      let html := run_stages cleanup_stages html in
      string_of_list_ascii html
  end.

Definition NL : string := String LF "".


(* ================================================================== *)
(** ** The palette

    [NOTE_COLORS] is an object literal, so [NOTE_COLORS[key]] finds the five
    own entries and also the members every object inherits from
    [Object.prototype]. *)

Record ColorEntry : Type := mkColor {
  bg : string;
  fg : string;       (* the [text] member of the entry *)
  name : string
}.

Definition NOTE_COLORS : list (string * ColorEntry) :=
  [ ("yellow", mkColor "#fef3c7" "#92400e" "Yellow");
    ("pink",   mkColor "#fce7f3" "#9d174d" "Pink");
    ("blue",   mkColor "#dbeafe" "#1e40af" "Blue");
    ("green",  mkColor "#dcfce7" "#166534" "Green");
    ("gray",   mkColor "#f3f4f6" "#374151" "Gray") ].

Definition object_prototype_names : list string :=
  [ "constructor"; "__proto__"; "hasOwnProperty"; "isPrototypeOf";
    "propertyIsEnumerable"; "toLocaleString"; "toString"; "valueOf";
    "__defineGetter__"; "__defineSetter__";
    "__lookupGetter__"; "__lookupSetter__" ].

Inductive member : Type :=
| Own (c : ColorEntry)     (* one of the five entries *)
| Inherited.               (* a member of [Object.prototype]: truthy, no [bg] *)

Fixpoint assoc {A : Type} (key : string) (l : list (string * A)) : option A :=
  match l with
  | [] => None
  | (k, v) :: l' => if String.eqb k key then Some v else assoc key l'
  end.

(** [NOTE_COLORS[key]]; [None] is [undefined]. *)
Definition NOTE_COLORS_get (key : string) : option member :=
  match assoc key NOTE_COLORS with
  | Some c => Some (Own c)
  | None =>
      if existsb (String.eqb key) object_prototype_names
      then Some Inherited else None
  end.

(** The own keys, as [Object.entries(NOTE_COLORS)] lists them. *)
Definition palette_keys : list string := map fst NOTE_COLORS.

Definition is_palette_key (key : string) : bool :=
  existsb (String.eqb key) palette_keys.

(* ================================================================== *)
(** ** Notes, their elements and the script state *)

(** The content [div] holds either raw text (set through [textContent] or
    typed by the user) or rendered markup (set through [innerHTML], with
    the class [markdown-rendered]). *)
Inductive Content : Type :=
| CText (s : string)
| CHtml (h : string).

(** The [div.sticky-note] of a note: the style properties and classes the
    script writes. *)
Record Element : Type := mkElement {
  el_left : Q;                   (* style.left, px *)
  el_top : Q;                    (* style.top, px *)
  el_width : Q;                  (* style.width, px *)
  el_minHeight : Q;              (* style.minHeight, px *)
  el_scale : Q;                  (* style.transform = scale(..) *)
  el_selected : bool;            (* class selected *)
  el_dragging : bool;            (* class dragging *)
  el_resizing : bool;            (* class resizing *)
  el_content : Content;
  el_contentEditable : bool;
  el_note_bg : option string;    (* --note-bg; None when set to undefined *)
  el_note_text : option string;  (* --note-text *)
  el_active_dot : option string  (* the colour dot carrying class active *)
}.

(** The variables a drag gesture closes over while [isDragging] holds. *)
Record DragGesture : Type := mkDrag {
  drag_startX : Q; drag_startY : Q;
  drag_initialLeft : Q; drag_initialTop : Q
}.

(** The variables a resize gesture closes over while [isResizing] holds. *)
Record ResizeGesture : Type := mkResize {
  resize_startX : Q; resize_startY : Q;
  resize_startWidth : Q; resize_startHeight : Q
}.

Record Note : Type := mkNote {
  id : Z;
  element : Element;
  canvasX : Q;
  canvasY : Q;
  width : Q;
  height : Q;
  text : string;
  color : string;
  createdAt : Z;
  isEditing : bool;
  dragging : option DragGesture;     (* Some while isDragging *)
  resizing : option ResizeGesture    (* Some while isResizing *)
}.

Record Clipboard : Type := mkClipboard {
  clip_width : Q;
  clip_height : Q;
  clip_text : string;
  clip_color : string
}.

Record State : Type := mkState {
  stickyNotes : list Note;
  noteIdCounter : Z;
  selectedNoteId : option Z;
  clipboardNote : option Clipboard;
  isTKeyHeld : bool;
  lastOffset0 : Q;
  lastOffset1 : Q;
  lastScale : Q
}.

Definition initial_state : State := mkState [] 0 None None false 0 0 1.

(** *** Field updates (assignments to one property) *)

Definition set_el_pos (l t : Q) (e : Element) : Element :=
  mkElement l t (el_width e) (el_minHeight e) (el_scale e) (el_selected e)
    (el_dragging e) (el_resizing e) (el_content e) (el_contentEditable e)
    (el_note_bg e) (el_note_text e) (el_active_dot e).

Definition set_el_size (w h : Q) (e : Element) : Element :=
  mkElement (el_left e) (el_top e) w h (el_scale e) (el_selected e)
    (el_dragging e) (el_resizing e) (el_content e) (el_contentEditable e)
    (el_note_bg e) (el_note_text e) (el_active_dot e).

Definition set_el_scale (s : Q) (e : Element) : Element :=
  mkElement (el_left e) (el_top e) (el_width e) (el_minHeight e) s
    (el_selected e) (el_dragging e) (el_resizing e) (el_content e)
    (el_contentEditable e) (el_note_bg e) (el_note_text e) (el_active_dot e).

Definition set_el_selected (b : bool) (e : Element) : Element :=
  mkElement (el_left e) (el_top e) (el_width e) (el_minHeight e) (el_scale e)
    b (el_dragging e) (el_resizing e) (el_content e) (el_contentEditable e)
    (el_note_bg e) (el_note_text e) (el_active_dot e).

Definition set_el_dragging (b : bool) (e : Element) : Element :=
  mkElement (el_left e) (el_top e) (el_width e) (el_minHeight e) (el_scale e)
    (el_selected e) b (el_resizing e) (el_content e) (el_contentEditable e)
    (el_note_bg e) (el_note_text e) (el_active_dot e).

Definition set_el_resizing (b : bool) (e : Element) : Element :=
  mkElement (el_left e) (el_top e) (el_width e) (el_minHeight e) (el_scale e)
    (el_selected e) (el_dragging e) b (el_content e) (el_contentEditable e)
    (el_note_bg e) (el_note_text e) (el_active_dot e).

Definition set_el_content (c : Content) (e : Element) : Element :=
  mkElement (el_left e) (el_top e) (el_width e) (el_minHeight e) (el_scale e)
    (el_selected e) (el_dragging e) (el_resizing e) c (el_contentEditable e)
    (el_note_bg e) (el_note_text e) (el_active_dot e).

Definition set_el_contentEditable (b : bool) (e : Element) : Element :=
  mkElement (el_left e) (el_top e) (el_width e) (el_minHeight e) (el_scale e)
    (el_selected e) (el_dragging e) (el_resizing e) (el_content e) b
    (el_note_bg e) (el_note_text e) (el_active_dot e).

Definition set_el_colors (b t a : option string) (e : Element) : Element :=
  mkElement (el_left e) (el_top e) (el_width e) (el_minHeight e) (el_scale e)
    (el_selected e) (el_dragging e) (el_resizing e) (el_content e)
    (el_contentEditable e) b t a.

Definition set_element (e : Element) (n : Note) : Note :=
  mkNote (id n) e (canvasX n) (canvasY n) (width n) (height n) (text n)
    (color n) (createdAt n) (isEditing n) (dragging n) (resizing n).

Definition map_element (f : Element -> Element) (n : Note) : Note :=
  set_element (f (element n)) n.

Definition set_canvas_pos (x y : Q) (n : Note) : Note :=
  mkNote (id n) (element n) x y (width n) (height n) (text n)
    (color n) (createdAt n) (isEditing n) (dragging n) (resizing n).

Definition set_size (w h : Q) (n : Note) : Note :=
  mkNote (id n) (element n) (canvasX n) (canvasY n) w h (text n)
    (color n) (createdAt n) (isEditing n) (dragging n) (resizing n).

Definition set_text (t : string) (n : Note) : Note :=
  mkNote (id n) (element n) (canvasX n) (canvasY n) (width n) (height n) t
    (color n) (createdAt n) (isEditing n) (dragging n) (resizing n).

Definition set_color (c : string) (n : Note) : Note :=
  mkNote (id n) (element n) (canvasX n) (canvasY n) (width n) (height n)
    (text n) c (createdAt n) (isEditing n) (dragging n) (resizing n).

Definition set_isEditing (b : bool) (n : Note) : Note :=
  mkNote (id n) (element n) (canvasX n) (canvasY n) (width n) (height n)
    (text n) (color n) (createdAt n) b (dragging n) (resizing n).

Definition set_dragging (d : option DragGesture) (n : Note) : Note :=
  mkNote (id n) (element n) (canvasX n) (canvasY n) (width n) (height n)
    (text n) (color n) (createdAt n) (isEditing n) d (resizing n).

Definition set_resizing (r : option ResizeGesture) (n : Note) : Note :=
  mkNote (id n) (element n) (canvasX n) (canvasY n) (width n) (height n)
    (text n) (color n) (createdAt n) (isEditing n) (dragging n) r.

Definition set_stickyNotes (l : list Note) (st : State) : State :=
  mkState l (noteIdCounter st) (selectedNoteId st) (clipboardNote st)
    (isTKeyHeld st) (lastOffset0 st) (lastOffset1 st) (lastScale st).

Definition set_noteIdCounter (c : Z) (st : State) : State :=
  mkState (stickyNotes st) c (selectedNoteId st) (clipboardNote st)
    (isTKeyHeld st) (lastOffset0 st) (lastOffset1 st) (lastScale st).

Definition set_selectedNoteId (s : option Z) (st : State) : State :=
  mkState (stickyNotes st) (noteIdCounter st) s (clipboardNote st)
    (isTKeyHeld st) (lastOffset0 st) (lastOffset1 st) (lastScale st).

Definition set_clipboardNote (c : option Clipboard) (st : State) : State :=
  mkState (stickyNotes st) (noteIdCounter st) (selectedNoteId st) c
    (isTKeyHeld st) (lastOffset0 st) (lastOffset1 st) (lastScale st).

Definition set_isTKeyHeld (b : bool) (st : State) : State :=
  mkState (stickyNotes st) (noteIdCounter st) (selectedNoteId st)
    (clipboardNote st) b (lastOffset0 st) (lastOffset1 st) (lastScale st).

Definition set_last (o0 o1 s : Q) (st : State) : State :=
  mkState (stickyNotes st) (noteIdCounter st) (selectedNoteId st)
    (clipboardNote st) (isTKeyHeld st) o0 o1 s.

(** [stickyNotes.find(n => n.id === noteId)] *)
Definition find_note (noteId : Z) (l : list Note) : option Note :=
  find (fun n => Z.eqb (id n) noteId) l.

(** A mutation of the object that [find] returns: the first note with that
    id is changed in place, nothing happens when there is none. *)
Fixpoint update_note (noteId : Z) (f : Note -> Note) (l : list Note)
    : list Note :=
  match l with
  | [] => []
  | n :: l' =>
      if Z.eqb (id n) noteId then f n :: l'
      else n :: update_note noteId f l'
  end.

Definition update_in (noteId : Z) (f : Note -> Note) (st : State) : State :=
  set_stickyNotes (update_note noteId f (stickyNotes st)) st.

(* ================================================================== *)
(** ** Persisted records

    A record of the saved workflow.  [x] and [y] are arbitrary JSON scalars,
    because the loader tests their type; the optional fields are absent
    ([None]) or of the type of the persisted record shape. *)

Inductive jsval : Type :=
| JUndefined
| JNull
| JBool (b : bool)
| JNumber (q : Q)
| JString (s : string).

(** [typeof v === 'number'] *)
Definition is_number (v : jsval) : bool :=
  match v with
  | JNumber _ => true
  | _ => false
  end.

Record NoteRecord : Type := mkRecord {
  r_id : option Z;
  r_x : jsval;
  r_y : jsval;
  r_width : option Q;
  r_height : option Q;
  r_text : option string;
  r_color : option string;
  r_createdAt : option Z
}.

(** [a || d] on numbers, strings and integers: [0], the empty string and an
    absent value are falsy. *)
Definition num_or (a d : Q) : Q := if Qeq_bool a 0 then d else a.
Definition str_or (a d : string) : string :=
  match a with
  | EmptyString => d
  | _ => a
  end.
Definition int_or (a d : Z) : Z := if Z.eqb a 0 then d else a.

Definition opt_or {A : Type} (or : A -> A -> A) (a : option A) (d : A) : A :=
  match a with
  | Some v => or v d
  | None => d
  end.

(** The object literal that [deserializeNotes] hands to
    [createStickyNoteFromData]. *)
Record NoteData : Type := mkData {
  d_canvasX : Q;
  d_canvasY : Q;
  d_width : Q;
  d_height : Q;
  d_text : string;
  d_color : string;
  d_createdAt : Z
}.

Section Script.

(** The text a browser reports as [textContent] of a node whose
    [innerHTML] was set to the given markup. *)
Variable html_text : string -> string.

Definition textContent (c : Content) : string :=
  match c with
  | CText s => s
  | CHtml h => html_text h
  end.

Definition renderNoteContent (noteData : Note) : Note :=
  map_element (set_el_content (CHtml (parseMarkdown (text noteData)))) noteData.

Definition showRawContent (noteData : Note) : Note :=
  map_element (set_el_content (CText (text noteData))) noteData.

Definition serializeNotes (now : Z) (st : State) : list NoteRecord :=
  map (fun note =>
         mkRecord (Some (id note))
           (JNumber (canvasX note))
           (JNumber (canvasY note))
           (Some (num_or (width note) DEFAULT_WIDTH))
           (Some (num_or (height note) DEFAULT_HEIGHT))
           (Some (text note))
           (Some (color note))
           (Some (int_or (createdAt note) now)))
      (stickyNotes st).

(** [applyNoteColor]: the custom properties come from the entry of the key
    or, when the lookup is falsy, from the default entry; a dot is active
    when its key is the given one. *)
Definition applyNoteColor (colorKey : string) (e : Element) : Element :=
  let color :=
    match NOTE_COLORS_get colorKey with
    | Some m => Some m
    | None => NOTE_COLORS_get DEFAULT_COLOR
    end in
  let prop (f : ColorEntry -> string) :=
    match color with
    | Some (Own c) => Some (f c)
    | _ => None
    end in
  set_el_colors (prop bg) (prop fg)
    (if is_palette_key colorKey then Some colorKey else None) e.

(** The element as the four creation paths build it: position, size and
    scale, raw text in a non-editable content area, and the colour picker
    of [createColorPicker] with the dot of the note's colour active. *)
Definition new_element (screenX screenY w h scale : Q) (txt col : string)
    : Element :=
  mkElement screenX screenY w h scale false false false (CText txt) false
    None None (if is_palette_key col then Some col else None).

Definition createStickyNoteFromData (ds : DragScale) (data : NoteData)
    (screenX screenY : Q) (st : State) : State :=
  let noteId := (noteIdCounter st + 1)%Z in
  let scale := ds_scale ds in
  let noteWidth := num_or (d_width data) DEFAULT_WIDTH in
  let noteHeight := num_or (d_height data) DEFAULT_HEIGHT in
  let note :=
    new_element screenX screenY noteWidth noteHeight scale
      (d_text data) (d_color data) in
  let noteData :=
    mkNote noteId (applyNoteColor (d_color data) note)
      (d_canvasX data) (d_canvasY data) noteWidth noteHeight
      (d_text data) (d_color data) (d_createdAt data) false None None in
  set_noteIdCounter noteId
      (set_stickyNotes (stickyNotes st ++ [renderNoteContent noteData]) st).

(** One turn of the loop of [deserializeNotes]. *)
Definition deserializeNote (ds : DragScale) (now : Z) (st : State)
    (data : NoteRecord) : State :=
  match r_x data, r_y data with
  | JNumber x, JNumber y =>
      let screenPos := canvasToScreen ds x y in
      createStickyNoteFromData ds
        (mkData x y
           (opt_or num_or (r_width data) DEFAULT_WIDTH)
           (opt_or num_or (r_height data) DEFAULT_HEIGHT)
           (opt_or str_or (r_text data) DEFAULT_TEXT)
           (opt_or str_or (r_color data) DEFAULT_COLOR)
           (opt_or int_or (r_createdAt data) now))
        (px screenPos) (py screenPos) st
  | _, _ => st
  end.

Definition deserializeNotes (ds : DragScale) (now : Z)
    (notesData : list NoteRecord) (st : State) : State :=
  fold_left (deserializeNote ds now) notesData st.

Definition clearAllNotes (st : State) : State :=
  let st := set_stickyNotes [] st in
  set_selectedNoteId None st.

(** *** Selection *)

Definition deselectAllNotes (st : State) : State :=
  match selectedNoteId st with
  | Some sel =>
      set_selectedNoteId None
        (update_in sel (map_element (set_el_selected false)) st)
  | None => st
  end.

Definition selectNote (noteId : Z) (st : State) : State :=
  let st := deselectAllNotes st in
  let st := set_selectedNoteId (Some noteId) st in
  update_in noteId (map_element (set_el_selected true)) st.

Definition getSelectedNote (st : State) : option Note :=
  match selectedNoteId st with
  | None => None
  | Some sel => find_note sel (stickyNotes st)
  end.

(** *** Editing *)

Definition startEditing (noteData : Note) : Note :=
  let noteData := set_isEditing true noteData in
  let noteData := showRawContent noteData in
  map_element (set_el_contentEditable true) noteData.

Definition stopEditing (noteData : Note) : Note :=
  if negb (isEditing noteData) then noteData
  else
    let noteData := set_isEditing false noteData in
    let noteData := map_element (set_el_contentEditable false) noteData in
    (* Store the raw text *)
    let noteData :=
      set_text (textContent (el_content (element noteData))) noteData in
    (* Render markdown *)
    renderNoteContent noteData.

(** *** Colours *)

Definition changeNoteColor (colorKey : string) (noteData : Note) : Note :=
  match NOTE_COLORS_get colorKey with
  | None => noteData
  | Some _ =>
      let noteData := set_color colorKey noteData in
      map_element (applyNoteColor colorKey) noteData
  end.

(** *** Creation *)

Definition createStickyNote (ds : DragScale) (now : Z) (screenX screenY : Q)
    (st : State) : State :=
  let noteId := (noteIdCounter st + 1)%Z in
  let canvasPos := screenToCanvas ds screenX screenY in
  let scale := ds_scale ds in
  let note :=
    new_element screenX screenY DEFAULT_WIDTH DEFAULT_HEIGHT scale
      DEFAULT_TEXT DEFAULT_COLOR in
  let noteData :=
    mkNote noteId (applyNoteColor DEFAULT_COLOR note)
      (px canvasPos) (py canvasPos) DEFAULT_WIDTH DEFAULT_HEIGHT
      DEFAULT_TEXT DEFAULT_COLOR now false None None in
  let st :=
    set_noteIdCounter noteId
      (set_stickyNotes (stickyNotes st ++ [renderNoteContent noteData]) st) in
  (* Select the new note but don't start editing *)
  selectNote noteId st.

(** *** Removal *)

(** [stickyNotes.splice(index, 1)] at the index [findIndex] returns. *)
Fixpoint remove_first (noteId : Z) (l : list Note) : list Note :=
  match l with
  | [] => []
  | n :: l' =>
      if Z.eqb (id n) noteId then l' else n :: remove_first noteId l'
  end.

Definition removeNote (noteId : Z) (st : State) : State :=
  match find_note noteId (stickyNotes st) with
  | Some _ =>
      let st := set_stickyNotes (remove_first noteId (stickyNotes st)) st in
      (* Clear selection if this was selected *)
      match selectedNoteId st with
      | Some sel => if Z.eqb sel noteId then set_selectedNoteId None st else st
      | None => st
      end
  | None => st
  end.

(** *** Clipboard *)

Definition copySelectedNote (st : State) : State :=
  match getSelectedNote st with
  | None => st
  | Some note =>
      set_clipboardNote
        (Some (mkClipboard (width note) (height note) (text note) (color note)))
        st
  end.

(** [canvasW] and [canvasH] are the sides of
    [canvasEl.getBoundingClientRect()]. *)
Definition pasteNote (ds : DragScale) (now : Z) (canvasW canvasH : Q)
    (st : State) : State :=
  match clipboardNote st with
  | None => st
  | Some clip =>
      let centerScreenX := (canvasW / 2)%Q in
      let centerScreenY := (canvasH / 2)%Q in
      let cX := (centerScreenX / ds_scale ds - ds_offset0 ds)%Q in
      let cY := (centerScreenY / ds_scale ds - ds_offset1 ds)%Q in
      let screenPos := canvasToScreen ds cX cY in
      let noteId := (noteIdCounter st + 1)%Z in
      let note :=
        new_element (px screenPos) (py screenPos)
          (clip_width clip) (clip_height clip) (ds_scale ds)
          (clip_text clip) (clip_color clip) in
      let noteData :=
        mkNote noteId (applyNoteColor (clip_color clip) note)
          cX cY (clip_width clip) (clip_height clip)
          (clip_text clip) (clip_color clip) now false None None in
      let st :=
        set_noteIdCounter noteId
      (set_stickyNotes (stickyNotes st ++ [renderNoteContent noteData]) st) in
      selectNote noteId st
  end.

Definition duplicateSelectedNote (ds : DragScale) (now : Z) (st : State)
    : State :=
  match getSelectedNote st with
  | None => st
  | Some note =>
      let offset := 20%Q in
      let cX := (canvasX note + offset)%Q in
      let cY := (canvasY note + offset)%Q in
      let screenPos := canvasToScreen ds cX cY in
      let noteId := (noteIdCounter st + 1)%Z in
      let newNote :=
        new_element (px screenPos) (py screenPos)
          (width note) (height note) (ds_scale ds)
          (text note) (color note) in
      let noteData :=
        mkNote noteId (applyNoteColor (color note) newNote)
          cX cY (width note) (height note)
          (text note) (color note) now false None None in
      let st :=
        set_noteIdCounter noteId
      (set_stickyNotes (stickyNotes st ++ [renderNoteContent noteData]) st) in
      selectNote noteId st
  end.

(** *** Resize handlers of one note ([setupResizeHandlers]) *)

Definition Qmax_js (a b : Q) : Q := if Qle_bool a b then b else a.

Definition resize_onMouseDown (clientX clientY : Q) (noteData : Note) : Note :=
  let noteData :=
    set_resizing
      (Some (mkResize clientX clientY (width noteData) (height noteData)))
      noteData in
  map_element (set_el_resizing true) noteData.

Definition resize_onMouseMove (ds : DragScale) (clientX clientY : Q)
    (noteData : Note) : Note :=
  match resizing noteData with
  | None => noteData
  | Some g =>
      let scale := ds_scale ds in
      let dx := (clientX - resize_startX g)%Q in
      let dy := (clientY - resize_startY g)%Q in
      (* Convert screen delta to canvas delta *)
      let canvasDx := (dx / scale)%Q in
      let canvasDy := (dy / scale)%Q in
      (* Calculate new canvas dimensions with minimum limits *)
      let newWidth := Qmax_js MIN_WIDTH (resize_startWidth g + canvasDx) in
      let newHeight := Qmax_js MIN_HEIGHT (resize_startHeight g + canvasDy) in
      let noteData := map_element (set_el_size newWidth newHeight) noteData in
      set_size newWidth newHeight noteData
  end.

Definition resize_onMouseUp (noteData : Note) : Note :=
  match resizing noteData with
  | None => noteData
  | Some _ =>
      map_element (set_el_resizing false) (set_resizing None noteData)
  end.

(** *** Drag handlers of one note ([setupNoteEventHandlers]) *)

(** What the browser reports as [offsetLeft] / [offsetTop] for a style
    offset. *)
Variable layout_offset : Q -> Q.

Definition drag_onMouseDown (clientX clientY : Q) (noteData : Note) : Note :=
  let e := element noteData in
  let noteData :=
    set_dragging
      (Some (mkDrag clientX clientY
               (layout_offset (el_left e)) (layout_offset (el_top e))))
      noteData in
  map_element (set_el_dragging true) noteData.

Definition drag_onMouseMove (clientX clientY : Q) (noteData : Note) : Note :=
  match dragging noteData with
  | None => noteData
  | Some g =>
      let dx := (clientX - drag_startX g)%Q in
      let dy := (clientY - drag_startY g)%Q in
      map_element
        (set_el_pos (drag_initialLeft g + dx) (drag_initialTop g + dy))
        noteData
  end.

Definition drag_onMouseUp (ds : DragScale) (noteData : Note) : Note :=
  match dragging noteData with
  | None => noteData
  | Some _ =>
      let noteData := set_dragging None noteData in
      let noteData := map_element (set_el_dragging false) noteData in
      (* Update stored canvas position *)
      let e := element noteData in
      let newCanvasPos :=
        screenToCanvas ds (layout_offset (el_left e)) (layout_offset (el_top e)) in
      set_canvas_pos (px newCanvasPos) (py newCanvasPos) noteData
  end.

(** *** View tracking *)

Definition updateAllNotePositions (ds : DragScale) (st : State) : State :=
  let scale := ds_scale ds in
  let offsetX := ds_offset0 ds in
  let offsetY := ds_offset1 ds in
  set_stickyNotes
    (map (fun note =>
            let screenX := ((canvasX note + offsetX) * scale)%Q in
            let screenY := ((canvasY note + offsetY) * scale)%Q in
            map_element
              (fun el => set_el_scale scale (set_el_pos screenX screenY el))
              note)
         (stickyNotes st))
    st.

(** One animation frame of [checkTransform]. *)
Definition checkTransform (ds : DragScale) (st : State) : State :=
  match stickyNotes st with
  | [] => st
  | _ =>
      let offsetChanged :=
        negb (Qeq_bool (ds_offset0 ds) (lastOffset0 st))
        || negb (Qeq_bool (ds_offset1 ds) (lastOffset1 st)) in
      let scaleChanged := negb (Qeq_bool (ds_scale ds) (lastScale st)) in
      if offsetChanged || scaleChanged
      then updateAllNotePositions ds
             (set_last (ds_offset0 ds) (ds_offset1 ds) (ds_scale ds) st)
      else st
  end.

(** *** Keyboard *)

(** [document.activeElement] at the time of a key event. *)
Inductive Focus : Type :=
| FocusNone                       (* the body, the canvas, ... *)
| FocusHostInput                  (* an INPUT or TEXTAREA of the host *)
| FocusContent (noteId : Z).      (* the content area of a note *)

(** What the handlers read from the host when they run. *)
Record Env : Type := mkEnv {
  env_ds : DragScale;             (* app.canvas.ds *)
  env_now : Z;                    (* Date.now() *)
  env_canvasW : Q;                (* canvasEl.getBoundingClientRect() *)
  env_canvasH : Q
}.

Definition isTyping (focus : Focus) (st : State) : bool :=
  match focus with
  | FocusNone => false
  | FocusHostInput => true
  | FocusContent noteId =>
      match find_note noteId (stickyNotes st) with
      | Some n => el_contentEditable (element n)
      | None => false
      end
  end.

Definition has_selection (st : State) : bool :=
  match selectedNoteId st with
  | Some _ => true
  | None => false
  end.

Definition has_clipboard (st : State) : bool :=
  match clipboardNote st with
  | Some _ => true
  | None => false
  end.

(** One [if (cond) { action; e.stopPropagation(); }] of the handler: the
    boolean tells whether propagation was stopped. *)
Definition on_key (cond : bool) (action : State -> State) (st : State)
    : State * bool :=
  if cond then (action st, true) else (st, false).

(** [removeNote(selectedNoteId)] *)
Definition removeSelected (st : State) : State :=
  match selectedNoteId st with
  | Some sel => removeNote sel st
  | None => st
  end.

(** The Escape branch of the global handler. *)
Definition escapeKey (st : State) : State :=
  match getSelectedNote st with
  | Some selectedNote =>
      if isEditing selectedNote
      then update_in (id selectedNote) stopEditing st
      else deselectAllNotes st
  | None => deselectAllNotes st
  end.

(** [globalKeyDownHandler], registered on the document for the capture
    phase.  The boolean tells whether [stopPropagation] was called. *)
Definition globalKeyDownHandler (env : Env) (key : string) (ctrl : bool)
    (focus : Focus) (st : State) : State * bool :=
  let typing := isTyping focus st in
  (* T key for creating notes *)
  let st :=
    if (String.eqb key "t" || String.eqb key "T") && negb typing
    then set_isTKeyHeld true st else st in
  (* Copy *)
  let '(st, s1) :=
    on_key (ctrl && String.eqb key "c" && negb typing && has_selection st)
      copySelectedNote st in
  (* Paste *)
  let '(st, s2) :=
    on_key (ctrl && String.eqb key "v" && negb typing && has_clipboard st)
      (pasteNote (env_ds env) (env_now env) (env_canvasW env) (env_canvasH env))
      st in
  (* Duplicate *)
  let '(st, s3) :=
    on_key (ctrl && String.eqb key "d" && negb typing && has_selection st)
      (duplicateSelectedNote (env_ds env) (env_now env)) st in
  (* Delete or Backspace key to delete selected note *)
  let '(st, s4) :=
    on_key ((String.eqb key "Delete" || String.eqb key "Backspace")
            && negb typing && has_selection st)
      removeSelected st in
  (* Escape to deselect *)
  let st := if String.eqb key "Escape" then escapeKey st else st in
  (st, s1 || s2 || s3 || s4).

(** The [keydown] listener of the content area of one note. *)
Definition contentKeyDownHandler (key : string) (shift : bool) (noteId : Z)
    (st : State) : State :=
  (* Enter to save (Shift+Enter for newline) *)
  let st :=
    if String.eqb key "Enter" && negb shift
    then update_in noteId stopEditing st else st in
  (* Escape to cancel editing *)
  if String.eqb key "Escape"
  then update_in noteId stopEditing st else st.

(** A key press: the capture-phase handler of the document, then the
    listener of the focused content area unless propagation was stopped. *)
Definition keyDown (env : Env) (key : string) (ctrl shift : bool)
    (focus : Focus) (st : State) : State :=
  let '(st', stopped) := globalKeyDownHandler env key ctrl focus st in
  match focus with
  | FocusContent noteId =>
      if stopped then st' else contentKeyDownHandler key shift noteId st'
  | _ => st'
  end.

Definition globalKeyUpHandler (key : string) (st : State) : State :=
  if String.eqb key "t" || String.eqb key "T"
  then set_isTKeyHeld false st else st.

(** *** Events

    The listeners the script registers, named by what the user or the host
    does.  A listener of a note's element can only fire while the element is
    attached, that is while the note is in [stickyNotes]. *)

Inductive Event : Type :=
| ClickCanvas (x y : Q)                  (* click on the canvas, overlay-relative *)
| MouseDownOverlay                       (* on the empty overlay *)
| MouseDownNote (noteId : Z)             (* on a note, outside its controls *)
| MouseDownHeader (noteId : Z) (clientX clientY : Q)
| MouseDownResize (noteId : Z) (clientX clientY : Q)
| MouseMove (clientX clientY : Q)        (* on the document *)
| MouseUp                                (* on the document *)
| DblClickContent (noteId : Z)
| Input (noteId : Z) (s : string)        (* the user edits the content *)
| BlurTimeout (noteId : Z)               (* 100 ms after the content lost focus *)
| ClickClose (noteId : Z)
| ClickColorDot (noteId : Z) (key : string)
| KeyDown (key : string) (ctrl shift : bool) (focus : Focus)
| KeyUp (key : string)
| WindowBlur
| Frame                                  (* an animation frame *)
| LoadGraph                              (* app.loadGraphData is called *)
| RestoreNotes (records : list NoteRecord). (* its deferred restore *)

Definition is_live (noteId : Z) (st : State) : bool :=
  match find_note noteId (stickyNotes st) with
  | Some _ => true
  | None => false
  end.

Definition step (env : Env) (st : State) (ev : Event) : State :=
  match ev with
  | ClickCanvas x y =>
      if isTKeyHeld st
      then createStickyNote (env_ds env) (env_now env) x y st else st
  | MouseDownOverlay => deselectAllNotes st
  | MouseDownNote noteId =>
      if is_live noteId st then selectNote noteId st else st
  | MouseDownHeader noteId clientX clientY =>
      if is_live noteId st
      then selectNote noteId
             (update_in noteId (drag_onMouseDown clientX clientY) st)
      else st
  | MouseDownResize noteId clientX clientY =>
      update_in noteId (resize_onMouseDown clientX clientY) st
  | MouseMove clientX clientY =>
      set_stickyNotes
        (map (fun n =>
                resize_onMouseMove (env_ds env) clientX clientY
                  (drag_onMouseMove clientX clientY n))
             (stickyNotes st))
        st
  | MouseUp =>
      set_stickyNotes
        (map (fun n => resize_onMouseUp (drag_onMouseUp (env_ds env) n))
             (stickyNotes st))
        st
  | DblClickContent noteId => update_in noteId startEditing st
  | Input noteId s =>
      update_in noteId
        (fun n =>
           if el_contentEditable (element n)
           then map_element (set_el_content (CText s)) n else n)
        st
  | BlurTimeout noteId =>
      update_in noteId (fun n => if isEditing n then stopEditing n else n) st
  | ClickClose noteId => removeNote noteId st
  | ClickColorDot noteId key =>
      if is_palette_key key
      then update_in noteId (changeNoteColor key) st else st
  | KeyDown key ctrl shift focus => keyDown env key ctrl shift focus st
  | KeyUp key => globalKeyUpHandler key st
  | WindowBlur => set_isTKeyHeld false st
  | Frame => checkTransform (env_ds env) st
  | LoadGraph => clearAllNotes st
  | RestoreNotes records =>
      deserializeNotes (env_ds env) (env_now env) records st
  end.

(** A run of the script: each event comes with the host readings of its
    time. *)
Definition run (st : State) (trace : list (Env * Event)) : State :=
  fold_left (fun s ee => step (fst ee) s (snd ee)) trace st.

End Script.

(* ================================================================== *)
(** ** Predicates used in the statements *)

(** The loader keeps a record when both position fields are numbers. *)
Definition has_position (r : NoteRecord) : bool :=
  is_number (r_x r) && is_number (r_y r).

(** An optional field of a record and the value the loader must store for
    it: the default when the field is absent or falsy, else the field. *)
Definition field_loaded {A : Type} (falsy : A -> bool) (f : option A)
    (default stored : A) : Prop :=
  match f with
  | None => stored = default
  | Some v => if falsy v then stored = default else stored = v
  end.

Definition empty_string (s : string) : bool :=
  match s with
  | EmptyString => true
  | _ => false
  end.

(** [loads now r n]: note [n] is what record [r] asks for. *)
Definition loads (now : Z) (r : NoteRecord) (n : Note) : Prop :=
  r_x r = JNumber (canvasX n) /\
  r_y r = JNumber (canvasY n) /\
  field_loaded (fun q => Qeq_bool q 0) (r_width r) DEFAULT_WIDTH (width n) /\
  field_loaded (fun q => Qeq_bool q 0) (r_height r) DEFAULT_HEIGHT (height n) /\
  field_loaded empty_string (r_text r) DEFAULT_TEXT (text n) /\
  field_loaded empty_string (r_color r) DEFAULT_COLOR (color n) /\
  field_loaded (fun z => Z.eqb z 0) (r_createdAt r) now (createdAt n).

(** Consecutive ids [c+1, c+2, ...]. *)
Fixpoint ids_from (c : Z) (k : nat) : list Z :=
  match k with
  | O => []
  | S k' => (c + 1)%Z :: ids_from (c + 1)%Z k'
  end.

(** Everything of the state but the notes and the id counter. *)
Definition same_globals (st st' : State) : Prop :=
  selectedNoteId st' = selectedNoteId st /\
  clipboardNote st' = clipboardNote st /\
  isTKeyHeld st' = isTKeyHeld st /\
  lastOffset0 st' = lastOffset0 st /\
  lastOffset1 st' = lastOffset1 st /\
  lastScale st' = lastScale st.

(** Save, clear and load again, as a workflow reload does. *)
Definition reload (ds : DragScale) (now : Z) (st : State) : State :=
  deserializeNotes ds now (serializeNotes now st) (clearAllNotes st).

(** Same id, world position, size, text and colour. *)
Definition same_note (n n' : Note) : Prop :=
  id n' = id n /\
  canvasX n' = canvasX n /\ canvasY n' = canvasY n /\
  width n' = width n /\ height n' = height n /\
  text n' = text n /\ color n' = color n.

(** Same world position, size and colour; the same text when there was
    some; the same timestamp when there was one, else the load time. *)
Definition restored (now : Z) (n n' : Note) : Prop :=
  canvasX n' = canvasX n /\ canvasY n' = canvasY n /\
  width n' = width n /\ height n' = height n /\
  color n' = color n /\
  (text n <> "" -> text n' = text n) /\
  createdAt n' = int_or (createdAt n) now.

(** Sizes and colour are truthy, as every creation path leaves them. *)
Definition truthy_fields (n : Note) : Prop :=
  Qeq_bool (width n) 0 = false /\
  Qeq_bool (height n) 0 = false /\
  color n <> "".

(** A sample view and a sample state: one note created by T + click. *)
Definition sample_ds : DragScale := mkDS 1 0 0.
Definition sample_now : Z := 1705512345678.
Definition sample_state : State :=
  createStickyNote sample_ds sample_now 100 100 initial_state.

(** *** Sizes *)

Definition sizes_ok (n : Note) : Prop :=
  (MIN_WIDTH <= width n)%Q /\ (MIN_HEIGHT <= height n)%Q.

Definition clipboard_sizes_ok (c : option Clipboard) : Prop :=
  match c with
  | None => True
  | Some clip =>
      (MIN_WIDTH <= clip_width clip)%Q /\ (MIN_HEIGHT <= clip_height clip)%Q
  end.

(** A size field of a record that loads to a size of at least [min]:
    absent, falsy, or at least [min] itself. *)
Definition size_field_ok (min : Q) (f : option Q) : Prop :=
  match f with
  | None => True
  | Some v => Qeq_bool v 0 = true \/ (min <= v)%Q
  end.

Definition record_sizes_ok (r : NoteRecord) : Prop :=
  size_field_ok MIN_WIDTH (r_width r) /\ size_field_ok MIN_HEIGHT (r_height r).

(** The view transform is valid: its scale is strictly positive. *)
Definition valid_view (env : Env) : Prop := (0 < ds_scale (env_ds env))%Q.

(** The records of every restore satisfy [ok]. *)
Definition restores (ok : NoteRecord -> Prop) (ev : Event) : Prop :=
  match ev with
  | RestoreNotes records => Forall ok records
  | _ => True
  end.

(** *** Colours *)

Definition color_ok (n : Note) : Prop := is_palette_key (color n) = true.

Definition clipboard_color_ok (c : option Clipboard) : Prop :=
  match c with
  | None => True
  | Some clip => is_palette_key (clip_color clip) = true
  end.

(** A colour field that loads to a palette key: absent, empty, or a key. *)
Definition record_color_ok (r : NoteRecord) : Prop :=
  match r_color r with
  | None => True
  | Some c => c = "" \/ is_palette_key c = true
  end.

(** *** Selection *)

(** The class [selected] is on exactly the notes in [on]. *)
Definition highlighted (on : list Z) (st : State) : Prop :=
  forall n, In n (stickyNotes st) ->
    (el_selected (element n) = true <-> In (id n) on).

Definition selection_list (st : State) : list Z :=
  match selectedNoteId st with
  | Some sel => [sel]
  | None => []
  end.

(** Ids are unique and below the counter; the selection, when set, is a
    live note; the highlighted notes are exactly the selected one. *)
Definition selection_ok (st : State) : Prop :=
  NoDup (map id (stickyNotes st)) /\
  Forall (fun n => (id n <= noteIdCounter st)%Z) (stickyNotes st) /\
  (forall sel, selectedNoteId st = Some sel -> is_live sel st = true) /\
  highlighted (selection_list st) st.

(** *** Invariants on sizes and colour

    [K] is a property of the size and colour of a note; [kept K st] says
    that it holds of every note and of the clipboard. *)

Definition holds (K : Q -> Q -> string -> Prop) (n : Note) : Prop :=
  K (width n) (height n) (color n).

Definition kept (K : Q -> Q -> string -> Prop) (st : State) : Prop :=
  Forall (holds K) (stickyNotes st) /\
  match clipboardNote st with
  | None => True
  | Some clip => K (clip_width clip) (clip_height clip) (clip_color clip)
  end.

(** The size and colour that [deserializeNote] stores for a record. *)
Definition loaded_width (r : NoteRecord) : Q :=
  num_or (opt_or num_or (r_width r) DEFAULT_WIDTH) DEFAULT_WIDTH.
Definition loaded_height (r : NoteRecord) : Q :=
  num_or (opt_or num_or (r_height r) DEFAULT_HEIGHT) DEFAULT_HEIGHT.
Definition loaded_color (r : NoteRecord) : string :=
  opt_or str_or (r_color r) DEFAULT_COLOR.

Definition K_sizes (w h : Q) (c : string) : Prop :=
  (MIN_WIDTH <= w)%Q /\ (MIN_HEIGHT <= h)%Q.

Definition K_color (w h : Q) (c : string) : Prop :=
  is_palette_key c = true.

(** A handler that writes neither the size nor the colour. *)
Definition quiet (f : Note -> Note) : Prop :=
  forall n, width (f n) = width n /\ height (f n) = height n /\
            color (f n) = color n.

(** Sample records and a sample run. *)
Definition small_record : NoteRecord :=
  mkRecord (Some 7%Z) (JNumber 0) (JNumber 0) (Some 50) (Some 50)
    (Some "tiny") (Some "blue") (Some sample_now).

Definition purple_record : NoteRecord :=
  mkRecord (Some 7%Z) (JNumber 0) (JNumber 0) (Some 240) (Some 120)
    (Some "note") (Some "purple") (Some sample_now).

Definition bare_record : NoteRecord :=
  mkRecord None (JNumber 3) (JNumber 4) None None None None None.

Definition sample_env : Env := mkEnv (mkDS 2 10 (-5)) sample_now 800 600.

Definition sample_trace : list (Env * Event) :=
  map (pair sample_env)
    [ KeyDown "t" false false FocusNone;
      ClickCanvas 100 100;
      KeyUp "t";
      MouseDownResize 1 300 200;
      MouseMove (-5000) (-5000);
      MouseUp;
      ClickColorDot 1 "pink";
      KeyDown "c" true false FocusNone;
      KeyDown "v" true false FocusNone;
      RestoreNotes [bare_record];
      MouseDownNote 1 ].

(** A handler that writes neither the id nor the class [selected]. *)
Definition discreet (f : Note -> Note) : Prop :=
  forall n, id (f n) = id n /\
            el_selected (element (f n)) = el_selected (element n).

(** A sample state in which note 1 is being edited and shows [**bold**]. *)
Definition editing_state : State :=
  run (fun h => h) (fun q => q) initial_state
    (map (pair sample_env)
       [ KeyDown "t" false false FocusNone;
         ClickCanvas 100 100;
         KeyUp "t";
         DblClickContent 1;
         Input 1 "**bold**" ]).

Definition editing_note : Note :=
  Eval vm_compute in
    match find_note 1 (stickyNotes editing_state) with
    | Some n => n
    | None =>
        mkNote 0 (new_element 0 0 0 0 0 "" "") 0 0 0 0 "" "" 0 false None None
    end.

(* ================================================================== *)
(** ** Reference definitions for the renderer

    [escape_char] and [escapeHtml] follow the words of the specification
    ("escaping of the three HTML-sensitive characters"): each of the three
    characters is replaced by its entity, in one pass. *)

Definition escape_char (c : ascii) : str :=
  if Ascii.eqb c "&" then list_ascii_of_string "&amp;"
  else if Ascii.eqb c "<" then list_ascii_of_string "&lt;"
  else if Ascii.eqb c ">" then list_ascii_of_string "&gt;"
  else [c].

Definition escapeHtml (s : str) : str := flat_map escape_char s.

(** [prefix p s]: the text [s] starts with [p]. *)
Fixpoint prefix (p s : str) : bool :=
  match p, s with
  | [], _ => true
  | a :: p', b :: s' => Ascii.eqb a b && prefix p' s'
  | _ :: _, [] => false
  end.

(** No raw [<] or [>], and every [&] starts one of the three entities. *)
Fixpoint well_escaped (s : str) : bool :=
  match s with
  | [] => true
  | c :: s' =>
      if Ascii.eqb c "<" || Ascii.eqb c ">" then false
      else if Ascii.eqb c "&" then
        (prefix (list_ascii_of_string "amp;") s'
         || prefix (list_ascii_of_string "lt;") s'
         || prefix (list_ascii_of_string "gt;") s')
        && well_escaped s'
      else well_escaped s'
  end.

(** The number of positions of [hay] at which [needle] starts. *)
Fixpoint occurrences_in (needle hay : str) : nat :=
  match hay with
  | [] => 0
  | _ :: hay' =>
      (if prefix needle hay then 1 else 0) + occurrences_in needle hay'
  end.

Definition occurrences (needle hay : string) : nat :=
  occurrences_in (list_ascii_of_string needle) (list_ascii_of_string hay).

(** The stages of [parseMarkdown] after the escaping. *)
Definition after_escape (html : str) : str :=
  run_stages cleanup_stages
    (run_stages list_stages (run_stages markup_stages html)).

(* ================================================================== *)
(** ** A declarative reading of the matcher

    [matches r c c']: the pattern [r] can take the match position [c] to
    [c'].  It forgets the priorities of the backtracking search, so what
    holds of every derivation holds of the match the search returns. *)

Inductive matches : regex -> result -> result -> Prop :=
| M_eps c : matches REps c c
| M_char x prev s cs :
    matches (RChar x) (prev, x :: s, cs) (Some x, s, cs)
| M_class p x prev s cs :
    p x = true -> matches (RClass p) (prev, x :: s, cs) (Some x, s, cs)
| M_bol prev s cs :
    at_bol prev = true -> matches RBol (prev, s, cs) (prev, s, cs)
| M_eol prev s cs :
    at_eol s = true -> matches REol (prev, s, cs) (prev, s, cs)
| M_seq r1 r2 c c1 c2 :
    matches r1 c c1 -> matches r2 c1 c2 -> matches (RSeq r1 r2) c c2
| M_rep_done g r c : matches (RRep g 0 r) c c
| M_rep_more g min r c c1 c2 :
    matches r c c1 -> matches (RRep g (Nat.pred min) r) c1 c2 ->
    matches (RRep g min r) c c2
| M_opt_some r c c' : matches r c c' -> matches (ROpt r) c c'
| M_opt_none r c : matches (ROpt r) c c
| M_group n r prev s cs prev' s' cs' :
    matches r (prev, s, cs) (prev', s', cs') ->
    matches (RGroup n r) (prev, s, cs)
      (prev', s', (n, firstn (List.length s - List.length s') s) :: cs').

(** A continuation applied to a match position. *)
Definition result_cont (k : cont) (c : result) : option result :=
  let '(p, s, cs) := c in k p s cs.

(** The character before the position reached after consuming [m]. *)
Fixpoint last_opt (prev : option ascii) (m : str) : option ascii :=
  match m with
  | [] => prev
  | x :: m' => last_opt (Some x) m'
  end.

(* ================================================================== *)
(** ** Markup characters in their place

    A markup character of the output is in its place when it belongs to a
    text that the renderer writes: a [<] opens one of its tags, a [&]
    starts one of its entities, a [>] closes one of its tags. *)

(** Every [mark] of the text starts one of the [words]. *)
Definition opens (mark : ascii) (words : list str) (s : str) : Prop :=
  forall a b, s = a ++ mark :: b ->
    exists w rest, In w words /\ mark :: b = w ++ rest.

(** Every [mark] of the text ends one of the [words]. *)
Definition closes (mark : ascii) (words : list str) (s : str) : Prop :=
  forall a b, s = a ++ mark :: b ->
    exists w before, In w words /\ a ++ [mark] = before ++ w.

Definition all_ascii : list ascii := map ascii_of_nat (List.seq 0 256).

(** No character of the class [p] is one of the [bad] ones. *)
Definition class_avoids (bad p : ascii -> bool) : bool :=
  forallb (fun c => negb (p c) || negb (bad c)) all_ascii.

(** The pattern starts with [^]. *)
Fixpoint begins_bol (r : regex) : bool :=
  match r with
  | RBol => true
  | RSeq a _ => begins_bol a
  | RGroup _ a => begins_bol a
  | _ => false
  end.

(** The pattern ends with [$]. *)
Fixpoint ends_eol (r : regex) : bool :=
  match r with
  | REol => true
  | RSeq _ b => ends_eol b
  | RGroup _ a => ends_eol a
  | _ => false
  end.

(** The literal character with which every match of the pattern ends. *)
Fixpoint last_char (r : regex) : option ascii :=
  match r with
  | RChar d => Some d
  | RSeq _ b => last_char b
  | RGroup _ a => last_char a
  | RRep _ (S _) a => last_char a
  | _ => None
  end.

Fixpoint no_groups (r : regex) : bool :=
  match r with
  | RSeq a b => no_groups a && no_groups b
  | RRep _ _ a => no_groups a
  | ROpt a => no_groups a
  | RGroup _ _ => false
  | _ => true
  end.

(** The literal runs of a replacement template, each continuing [acc] up
    to the next [$n], pass the check [ok]. *)
Fixpoint runs_ok (ok : str -> bool) (t : template) (acc : str) : bool :=
  match t with
  | [] => ok acc
  | TLit w :: t' => runs_ok ok t' (acc ++ list_ascii_of_string w)
  | TGroup _ :: t' => ok acc && runs_ok ok t' []
  end.

Definition caps_ok (ok : str -> bool) (cs : caps) : Prop :=
  Forall (fun nv => ok (snd nv) = true) cs.

Section Words.

Variable mark : ascii.
Variable words : list str.

(** The text starts with one of the words. *)
Definition starts_word (s : str) : bool := existsb (fun w => prefix w s) words.

(** [opens], decided from left to right. *)
Fixpoint marked (s : str) : bool :=
  match s with
  | [] => true
  | c :: s' => (if Ascii.eqb c mark then starts_word s else true) && marked s'
  end.

(** The characters that stand inside a word after its first character,
    and those that stand before its last character. *)
Definition inner (c : ascii) : bool :=
  existsb (Ascii.eqb c) (List.concat (map (@tl ascii) words)).
Definition nonlast (c : ascii) : bool :=
  existsb (Ascii.eqb c) (List.concat (map (@removelast ascii) words)).

(** A position at which no word is cut in two: the next character is not
    inside a word, or the previous one does not continue one. *)
Definition next_ok (s : str) : bool :=
  match s with
  | [] => true
  | c :: _ => negb (inner c)
  end.
Definition prev_ok (prev : option ascii) : bool :=
  match prev with
  | None => true
  | Some c => negb (nonlast c)
  end.
Definition cut_ok (prev : option ascii) (s : str) : bool :=
  next_ok s || prev_ok prev.

(** *** Static checks on a pattern

    [starts_ok r k]: every match of [r] starts before a character that is
    not inside a word (or at the end of the text); [k] tells whether what
    follows [r] starts so. *)
Fixpoint starts_ok (r : regex) (k : bool) : bool :=
  match r with
  | REps | RBol => k
  | REol => negb (inner LF) && negb (inner CR)
  | RChar d => negb (inner d)
  | RClass p => class_avoids inner p
  | RSeq a b => starts_ok a (starts_ok b k)
  | RRep _ O a => starts_ok a false && k
  | RRep _ (S _) a => starts_ok a false
  | ROpt a => starts_ok a false && k
  | RGroup _ a => starts_ok a k
  end.

(** [finishes r k]: every match of [r] ends after a character that does
    not continue a word (or at the start of the text); [k] tells whether
    what precedes [r] ends so. *)
Fixpoint finishes (r : regex) (k : bool) : bool :=
  match r with
  | REps | REol => k
  | RBol => negb (nonlast LF) && negb (nonlast CR)
  | RChar d => negb (nonlast d)
  | RClass p => class_avoids nonlast p
  | RSeq a b => finishes b (finishes a k)
  | RRep _ O a => finishes a false && k
  | RRep _ (S _) a => finishes a false
  | ROpt a => finishes a false && k
  | RGroup _ a => finishes a k
  end.

Definition ends_ok (r : regex) : bool :=
  match last_char r with
  | Some d => negb (nonlast d)
  | None => false
  end.

(** [gsafe r k]: every capture group of [r] closes at a position at which
    no word is cut in two; [k] tells whether what follows [r] starts
    outside a word. *)
Fixpoint gsafe (r : regex) (k : bool) : bool :=
  match r with
  | RSeq a b => gsafe a (starts_ok b k) && gsafe b k
  | RRep _ _ a => no_groups a
  | ROpt a => gsafe a k
  | RGroup _ a => gsafe a k && (k || ends_ok a)
  | _ => true
  end.

(** [gopen r k]: every capture group of [r] opens at a position at which
    no word is cut in two; [k] tells whether what precedes [r] ends
    outside a word. *)
Fixpoint gopen (r : regex) (k : bool) : bool :=
  match r with
  | RSeq a b => gopen a k && gopen b (finishes a k)
  | RRep _ _ a => no_groups a
  | ROpt a => gopen a k
  | RGroup _ a => gopen a k && (k || starts_ok a false)
  | _ => true
  end.

End Words.

(** [closes], decided on the reversed text. *)
Definition closed (mark : ascii) (words : list str) (s : str) : bool :=
  marked mark (map (@rev ascii) words) (rev s).

(** The checks under which a stage keeps [marked]: no match starts and no
    group ends inside a word, and the template writes whole words. *)
Definition keeps_opening (mark : ascii) (words : list str) (st : stage)
    : bool :=
  gsafe words (fst st) false
  && (starts_ok words (fst st) false
      || begins_bol (fst st)
         && negb (nonlast words LF) && negb (nonlast words CR))
  && runs_ok (marked mark words) (snd st) [].

(** The checks under which a stage keeps [closed]: no match ends and no
    group starts inside a word, and the template writes whole words. *)
Definition keeps_closing (mark : ascii) (words : list str) (st : stage)
    : bool :=
  gopen words (fst st) false
  && (finishes words (fst st) false
      || ends_eol (fst st)
         && negb (inner words LF) && negb (inner words CR))
  && runs_ok (closed mark words) (snd st) [].

(** *** The markup of the renderer

    The texts with which the replacement templates open a tag, the three
    entities of the escaping, and the texts with which the templates close
    a tag; the last one is the end of the link tag. *)

Definition openers : list str :=
  map list_ascii_of_string
    [ "<h1>"; "<h2>"; "<h3>"; "</h1>"; "</h2>"; "</h3>";
      "<blockquote>"; "</blockquote>"; "<pre>"; "</pre>";
      "<code>"; "</code>"; "<strong>"; "</strong>"; "<em>"; "</em>";
      "<del>"; "</del>"; "<a href="; "</a>"; "<li>"; "</li>";
      "<hr>"; "<br>"; "<ul>"; "</ul>" ].

Definition entities : list str :=
  map list_ascii_of_string [ "&amp;"; "&lt;"; "&gt;" ].

Definition closers : list str :=
  map list_ascii_of_string
    [ "<h1>"; "<h2>"; "<h3>"; "</h1>"; "</h2>"; "</h3>";
      "<blockquote>"; "</blockquote>"; "<pre>"; "</pre>";
      "<code>"; "</code>"; "<strong>"; "</strong>"; "<em>"; "</em>";
      "<del>"; "</del>"; "</a>"; "<li>"; "</li>";
      "<hr>"; "<br>"; "<ul>"; "</ul>" ]
  ++ [ list_ascii_of_string "noopener" ++ [DQUOTE; ">"%char] ].

(** Every [<] of the text opens a tag of the renderer, every [&] starts
    an entity, every [>] closes a tag of the renderer. *)
Definition tags_only (s : str) : bool := marked "<" openers s.
Definition entities_only (s : str) : bool := marked "&" entities s.
Definition closed_only (s : str) : bool := closed ">" closers s.

(** The stages that run on the escaped text. *)
Definition later_stages : list stage :=
  markup_stages ++ list_stages ++ cleanup_stages.

(* ================================================================== *)
(** ** Plain text

    Characters that no stage of the renderer looks for at the start of a
    match, and texts made of them. *)

Definition special_chars : str :=
  list_ascii_of_string "&<>#`*_~[-0123456789" ++ [LF; CR].

Definition plain (c : ascii) : bool :=
  negb (existsb (Ascii.eqb c) special_chars).

Definition plain_text (s : string) : Prop :=
  s <> "" /\ Forall (fun c => plain c = true) (list_ascii_of_string s).

(** The scan of [replace] resumed in the middle of a text. *)
Definition replace_at (r : regex) (t : template) (prev : option ascii)
    (s : str) : str :=
  replace_from (S (List.length s)) r t prev s.

(** Patterns that consume nothing. *)
Definition passive (r : regex) : bool :=
  match r with
  | REps | RBol | REol => true
  | _ => false
  end.

(** [may_start r c]: a match of [r] may start before the character [c]. *)
Fixpoint may_start (r : regex) (c : ascii) : bool :=
  match r with
  | RChar d => Ascii.eqb c d
  | RClass p => p c
  | RSeq a b => if passive a then may_start b c else may_start a c
  | RRep _ (S _) a => may_start a c
  | RGroup _ a => may_start a c
  | _ => true
  end.

(** No match of the pattern starts before a plain character. *)
Definition skips_plain (r : regex) : bool :=
  forallb (fun c => negb (plain c) || negb (may_start r c)) all_ascii.

(** The text has no occurrence of the character. *)
Definition lacks (c : ascii) (s : string) : Prop :=
  Forall (fun x => Ascii.eqb x c = false) (list_ascii_of_string s).

(* ================================================================== *)
(** * Properties *)

(** ** Coordinate conversion *)

Lemma screenToCanvas_x (ds : DragScale) (x y : Q) :
  ~ (ds_scale ds == 0)%Q ->
  (px (screenToCanvas ds (px (canvasToScreen ds x y))
         (py (canvasToScreen ds x y))) == x)%Q.
Proof. intros Hs. unfold screenToCanvas, canvasToScreen. simpl. field. exact Hs. Qed.

Lemma screenToCanvas_y (ds : DragScale) (x y : Q) :
  ~ (ds_scale ds == 0)%Q ->
  (py (screenToCanvas ds (px (canvasToScreen ds x y))
         (py (canvasToScreen ds x y))) == y)%Q.
Proof. intros Hs. unfold screenToCanvas, canvasToScreen. simpl. field. exact Hs. Qed.

(** The two formulas are inverse to each other in exact arithmetic: for
    every transform whose scale is strictly positive, converting to view
    coordinates with [canvasToScreen] ([(world + offset) * scale]) and back
    with [screenToCanvas] ([view / scale - offset]) returns [(x, y)].
    This is a law of the formulas over the rationals; what the program
    computes on binary64 values is the subject of
    [roundtrip_within_tolerance] below. *)
Theorem toWorld_toView_roundtrip (ds : DragScale) (x y : Q) :
  (0 < ds_scale ds)%Q ->
  let view := canvasToScreen ds x y in
  point_eq (screenToCanvas ds (px view) (py view)) (mkPoint x y).
Proof.
  intros Hpos view. unfold view.
  assert (Hs : ~ (ds_scale ds == 0)%Q).
  { intro H0. rewrite H0 in Hpos. revert Hpos. apply Qlt_irrefl. }
  split; simpl px; simpl py.
  - exact (screenToCanvas_x ds x y Hs).
  - exact (screenToCanvas_y ds x y Hs).
Qed.

Lemma toWorld_toView_roundtrip_witness :
  (0 < ds_scale (mkDS 2 10 (-5)))%Q /\
  point_eq
    (screenToCanvas (mkDS 2 10 (-5))
       (px (canvasToScreen (mkDS 2 10 (-5)) 100 (7 # 2)))
       (py (canvasToScreen (mkDS 2 10 (-5)) 100 (7 # 2))))
    (mkPoint 100 (7 # 2)).
Proof.
  split.
  - reflexivity.
  - apply (toWorld_toView_roundtrip (mkDS 2 10 (-5)) 100 (7 # 2)). reflexivity.
Defined.

(** ** Persistence: loading *)

Lemma has_position_numbers (r : NoteRecord) :
  has_position r = true ->
  exists x y, r_x r = JNumber x /\ r_y r = JNumber y.
Proof.
  unfold has_position. destruct (r_x r), (r_y r); simpl; try discriminate.
  intros _. eauto.
Qed.

Lemma deserializeNote_skip (ds : DragScale) (now : Z) (st : State)
    (r : NoteRecord) :
  has_position r = false -> deserializeNote ds now st r = st.
Proof.
  unfold has_position, deserializeNote.
  destruct (r_x r), (r_y r); simpl; try reflexivity; discriminate.
Qed.

Lemma num_or_twice (a d : Q) : num_or (num_or a d) d = num_or a d.
Proof.
  unfold num_or. destruct (Qeq_bool a 0) eqn:Ha.
  - destruct (Qeq_bool d 0); reflexivity.
  - rewrite Ha. reflexivity.
Qed.

Lemma num_or_twice_opt (f : option Q) (d : Q) :
  num_or (opt_or num_or f d) d = opt_or num_or f d \/ Qeq_bool d 0 = true.
Proof.
  destruct f as [v|]; simpl.
  - left. apply num_or_twice.
  - unfold num_or. destruct (Qeq_bool d 0); auto.
Qed.

Lemma field_loaded_num (f : option Q) (d : Q) :
  field_loaded (fun q => Qeq_bool q 0) f d (num_or (opt_or num_or f d) d).
Proof.
  destruct f as [v|]; simpl.
  - rewrite num_or_twice. unfold num_or. destruct (Qeq_bool v 0); reflexivity.
  - unfold num_or. destruct (Qeq_bool d 0); reflexivity.
Qed.

Lemma field_loaded_str (f : option string) (d : string) :
  field_loaded empty_string f d (opt_or str_or f d).
Proof. destruct f as [[|c s]|]; reflexivity. Qed.

Lemma field_loaded_int (f : option Z) (d : Z) :
  field_loaded (fun z => Z.eqb z 0) f d (opt_or int_or f d).
Proof.
  destruct f as [v|]; simpl; [|reflexivity].
  unfold int_or. destruct (Z.eqb v 0); reflexivity.
Qed.

Lemma deserializeNote_load (ds : DragScale) (now : Z) (st : State)
    (r : NoteRecord) :
  has_position r = true ->
  exists n,
    stickyNotes (deserializeNote ds now st r) = stickyNotes st ++ [n] /\
    loads now r n /\
    id n = (noteIdCounter st + 1)%Z /\
    noteIdCounter (deserializeNote ds now st r) = (noteIdCounter st + 1)%Z /\
    same_globals st (deserializeNote ds now st r).
Proof.
  intros Hpos. destruct (has_position_numbers r Hpos) as (x & y & Hx & Hy).
  unfold deserializeNote. rewrite Hx, Hy.
  eexists. split; [reflexivity|].
  split.
  - unfold loads; simpl. rewrite Hx, Hy.
    repeat split;
      auto using field_loaded_num, field_loaded_str, field_loaded_int.
  - repeat split.
Qed.

Lemma ids_from_app (c : Z) (k1 k2 : nat) :
  ids_from c (k1 + k2) = ids_from c k1 ++ ids_from (c + Z.of_nat k1) k2.
Proof.
  revert c. induction k1 as [|k1 IH]; intros c.
  - simpl. f_equal. lia.
  - cbn [Nat.add ids_from app]. rewrite IH. do 3 f_equal. lia.
Qed.

Lemma same_globals_refl (st : State) : same_globals st st.
Proof. repeat split. Qed.

Lemma same_globals_trans (a b c : State) :
  same_globals a b -> same_globals b c -> same_globals a c.
Proof.
  unfold same_globals. intros (A1 & A2 & A3 & A4 & A5 & A6)
    (B1 & B2 & B3 & B4 & B5 & B6).
  repeat split; congruence.
Qed.

Lemma deserializeNotes_spec (ds : DragScale) (now : Z)
    (recs : list NoteRecord) :
  forall st,
  exists news,
    stickyNotes (deserializeNotes ds now recs st) = stickyNotes st ++ news /\
    Forall2 (loads now) (filter has_position recs) news /\
    map id news = ids_from (noteIdCounter st) (List.length news) /\
    noteIdCounter (deserializeNotes ds now recs st)
      = (noteIdCounter st + Z.of_nat (List.length news))%Z /\
    same_globals st (deserializeNotes ds now recs st).
Proof.
  induction recs as [|r recs IH]; intros st.
  - exists []. simpl. rewrite app_nil_r.
    repeat split; try constructor. lia.
  - cbn [deserializeNotes fold_left filter].
    fold (deserializeNotes ds now recs (deserializeNote ds now st r)).
    destruct (has_position r) eqn:Hpos.
    + destruct (deserializeNote_load ds now st r Hpos)
        as (n & Hn & Hl & Hid & Hc & Hg).
      destruct (IH (deserializeNote ds now st r))
        as (news & Hs & Hf & Hids & Hc' & Hg').
      exists (n :: news). rewrite Hs, Hn, <- app_assoc. simpl.
      split; [reflexivity|]. split; [constructor; assumption|].
      split; [|split].
      * rewrite Hid, Hids, Hc. reflexivity.
      * rewrite Hc', Hc. lia.
      * eapply same_globals_trans; eassumption.
    + rewrite (deserializeNote_skip ds now st r Hpos). apply IH.
Qed.

Lemma deserializeNotes_filter (ds : DragScale) (now : Z)
    (recs : list NoteRecord) :
  forall st,
  deserializeNotes ds now (filter has_position recs) st
  = deserializeNotes ds now recs st.
Proof.
  induction recs as [|r recs IH]; intros st; [reflexivity|].
  cbn [filter]. destruct (has_position r) eqn:Hpos.
  - cbn [deserializeNotes fold_left]. apply IH.
  - cbn [deserializeNotes fold_left].
    rewrite (deserializeNote_skip ds now st r Hpos). apply IH.
Qed.

(** C9. For every record sequence given to [deserializeNotes], a record
    whose [x] or [y] is not a number is skipped with no side effect (the
    state is the same before and after its turn, so the whole load equals
    the load of the records with numeric positions), while every record
    with numeric [x] and [y] yields exactly one note, in order, with the
    defaults for its missing optional fields. *)
Theorem deserialize_skips_only_malformed (ds : DragScale) (now : Z)
    (recs : list NoteRecord) (st : State) :
  let st' := deserializeNotes ds now recs st in
  (forall s r, has_position r = false -> deserializeNote ds now s r = s) /\
  deserializeNotes ds now (filter has_position recs) st = st' /\
  exists news,
    stickyNotes st' = stickyNotes st ++ news /\
    Forall2 (loads now) (filter has_position recs) news /\
    map id news = ids_from (noteIdCounter st) (List.length news) /\
    noteIdCounter st' = (noteIdCounter st + Z.of_nat (List.length news))%Z /\
    same_globals st st'.
Proof.
  intros st'. split; [|split].
  - intros s r. apply deserializeNote_skip.
  - apply deserializeNotes_filter.
  - apply deserializeNotes_spec.
Qed.

(** ** Persistence: saving and loading again *)

Lemma serialized_has_position (now : Z) (l : list Note) :
  filter has_position
    (map (fun note =>
            mkRecord (Some (id note)) (JNumber (canvasX note))
              (JNumber (canvasY note))
              (Some (num_or (width note) DEFAULT_WIDTH))
              (Some (num_or (height note) DEFAULT_HEIGHT))
              (Some (text note)) (Some (color note))
              (Some (int_or (createdAt note) now))) l)
  = map (fun note =>
            mkRecord (Some (id note)) (JNumber (canvasX note))
              (JNumber (canvasY note))
              (Some (num_or (width note) DEFAULT_WIDTH))
              (Some (num_or (height note) DEFAULT_HEIGHT))
              (Some (text note)) (Some (color note))
              (Some (int_or (createdAt note) now))) l.
Proof. induction l as [|n l IH]; simpl; [|rewrite IH]; reflexivity. Qed.

Lemma Forall2_map_l {A B C : Type} (R : B -> C -> Prop) (f : A -> B)
    (l : list A) (l' : list C) :
  Forall2 R (map f l) l' -> Forall2 (fun a c => R (f a) c) l l'.
Proof.
  revert l'. induction l as [|a l IH]; intros l' H; inversion H; subst;
    constructor; auto.
Qed.

Lemma Forall2_impl_in {A B : Type} (R R' : A -> B -> Prop) (P : A -> Prop)
    (l : list A) (l' : list B) :
  (forall a b, P a -> R a b -> R' a b) ->
  Forall P l -> Forall2 R l l' -> Forall2 R' l l'.
Proof.
  intros HR HP H. induction H; constructor; inversion HP; subst; auto.
Qed.

Lemma Forall2_length_eq {A B : Type} (R : A -> B -> Prop) (l : list A)
    (l' : list B) :
  Forall2 R l l' -> List.length l = List.length l'.
Proof. induction 1; simpl; congruence. Qed.

Lemma int_or_idem (a d : Z) : int_or (int_or a d) d = int_or a d.
Proof.
  unfold int_or. destruct (Z.eqb a 0) eqn:Ha.
  - destruct (Z.eqb d 0); reflexivity.
  - rewrite Ha. reflexivity.
Qed.

Lemma loads_serialized (now : Z) (n n' : Note) :
  truthy_fields n ->
  loads now
    (mkRecord (Some (id n)) (JNumber (canvasX n)) (JNumber (canvasY n))
       (Some (num_or (width n) DEFAULT_WIDTH))
       (Some (num_or (height n) DEFAULT_HEIGHT))
       (Some (text n)) (Some (color n))
       (Some (int_or (createdAt n) now))) n' ->
  restored now n n'.
Proof.
  intros (Hw & Hh & Hc) (Hx & Hy & Lw & Lh & Lt & Lc & La).
  simpl in *. unfold num_or in Lw, Lh. rewrite Hw in Lw. rewrite Hh in Lh.
  rewrite Hw in Lw. rewrite Hh in Lh.
  unfold restored. repeat split; try congruence.
  - destruct (color n); [contradiction|exact Lc].
  - intros Ht. destruct (text n); [contradiction|exact Lt].
  - unfold int_or in *.
    destruct (Z.eqb (createdAt n) 0) eqn:Ha.
    + destruct (Z.eqb now 0); exact La.
    + rewrite Ha in La. exact La.
Qed.

Lemma same_note_ids (l l' : list Note) :
  Forall2 same_note l l' -> map id l' = map id l.
Proof.
  induction 1 as [|n n' l l' Hn _ IH]; simpl; [reflexivity|].
  destruct Hn as (Hid & _). congruence.
Qed.

(** C1, as stated, fails: the note of [sample_state] has id 1 and comes
    back with id 2. *)
Lemma reload_does_not_keep_ids :
  ~ Forall2 same_note (stickyNotes sample_state)
      (stickyNotes (reload sample_ds sample_now sample_state)).
Proof.
  intros H. apply same_note_ids in H.
  vm_compute in H. discriminate H.
Qed.

(** C1, amended. For every note set whose sizes and colours are truthy,
    [serializeNotes], [clearAllNotes] and [deserializeNotes] give back the
    notes in their order, each with the same world position, size and
    colour, with the same text when the text was not empty, and with the
    same [createdAt] unless it was missing; the ids are not restored: the
    loaded notes take the next ids of [noteIdCounter]. *)
Theorem reload_restores_notes (ds : DragScale) (now : Z) (st : State) :
  Forall truthy_fields (stickyNotes st) ->
  let st' := reload ds now st in
  Forall2 (restored now) (stickyNotes st) (stickyNotes st') /\
  map id (stickyNotes st')
    = ids_from (noteIdCounter st) (List.length (stickyNotes st)).
Proof.
  intros Hwf st'. unfold st', reload.
  destruct (deserializeNotes_spec ds now (serializeNotes now st)
              (clearAllNotes st)) as (news & Hs & Hl & Hids & _ & _).
  rewrite Hs. cbn [clearAllNotes set_stickyNotes set_selectedNoteId
                   stickyNotes noteIdCounter app] in *.
  unfold serializeNotes in Hl. rewrite serialized_has_position in Hl.
  apply Forall2_map_l in Hl.
  assert (HR : Forall2 (restored now) (stickyNotes st) news).
  { eapply Forall2_impl_in; [|exact Hwf|exact Hl].
    intros n n' Hn Hld. apply loads_serialized; assumption. }
  split; [exact HR|].
  rewrite (Forall2_length_eq _ _ _ HR). exact Hids.
Qed.

Lemma reload_restores_notes_witness :
  Forall truthy_fields (stickyNotes sample_state) /\
  Forall2 (restored sample_now) (stickyNotes sample_state)
    (stickyNotes (reload sample_ds sample_now sample_state)) /\
  map id (stickyNotes (reload sample_ds sample_now sample_state))
    = ids_from (noteIdCounter sample_state)
        (List.length (stickyNotes sample_state)).
Proof.
  assert (H : Forall truthy_fields (stickyNotes sample_state)).
  { constructor; [|constructor].
    repeat split; try reflexivity. discriminate. }
  split; [exact H|].
  exact (reload_restores_notes sample_ds sample_now sample_state H).
Defined.

(** ** Lists of notes *)

Lemma Forall_update_note (P : Note -> Prop) (i : Z) (f : Note -> Note)
    (l : list Note) :
  (forall n, P n -> P (f n)) -> Forall P l -> Forall P (update_note i f l).
Proof.
  intros Hf. induction 1 as [|n l Hn Hl IH]; simpl; [constructor|].
  destruct (Z.eqb (id n) i); constructor; auto.
Qed.

Lemma Forall_remove_first (P : Note -> Prop) (i : Z) (l : list Note) :
  Forall P l -> Forall P (remove_first i l).
Proof.
  induction 1 as [|n l Hn Hl IH]; simpl; [constructor|].
  destruct (Z.eqb (id n) i); [assumption|constructor; assumption].
Qed.

Lemma Forall_map_notes (P : Note -> Prop) (f : Note -> Note) (l : list Note) :
  (forall n, P n -> P (f n)) -> Forall P l -> Forall P (map f l).
Proof. intros Hf. induction 1; simpl; constructor; auto. Qed.

Lemma find_note_some (i : Z) (l : list Note) (n : Note) :
  find_note i l = Some n -> In n l /\ id n = i.
Proof.
  unfold find_note. intros H. apply find_some in H.
  destruct H as (Hin & Heq). split; [assumption|]. apply Z.eqb_eq. assumption.
Qed.

Lemma find_note_none (i : Z) (l : list Note) :
  find_note i l = None -> forall n, In n l -> id n <> i.
Proof.
  unfold find_note. intros H n Hin Heq.
  apply (find_none _ _ H) in Hin. apply Z.eqb_neq in Hin. contradiction.
Qed.

(** ** Properties of size and colour that every event keeps *)

Lemma Qmax_js_lower (a b : Q) : (a <= Qmax_js a b)%Q.
Proof.
  unfold Qmax_js. destruct (Qle_bool a b) eqn:E.
  - apply Qle_bool_iff. exact E.
  - apply Qle_refl.
Qed.

Section Kept.

Variable html_text : string -> string.
Variable layout_offset : Q -> Q.
Variable K : Q -> Q -> string -> Prop.
Variable record_ok : NoteRecord -> Prop.

Hypothesis K_default : K DEFAULT_WIDTH DEFAULT_HEIGHT DEFAULT_COLOR.
Hypothesis K_resize : forall w h c w' h',
  K w h c -> (MIN_WIDTH <= w')%Q -> (MIN_HEIGHT <= h')%Q -> K w' h' c.
Hypothesis K_recolor : forall w h c key,
  K w h c -> is_palette_key key = true -> K w h key.
Hypothesis K_load : forall r,
  record_ok r -> K (loaded_width r) (loaded_height r) (loaded_color r).

Lemma quiet_holds (f : Note -> Note) :
  quiet f -> forall n, holds K n -> holds K (f n).
Proof.
  intros Hq n Hn. destruct (Hq n) as (Hw & Hh & Hc).
  unfold holds. rewrite Hw, Hh, Hc. exact Hn.
Qed.

Ltac quiet_tac :=
  intros n; repeat split;
  repeat match goal with
         | |- context [match ?x with _ => _ end] => destruct x
         | |- context [if ?x then _ else _] => destruct x
         end; reflexivity.

Lemma quiet_map_element (g : Element -> Element) : quiet (map_element g).
Proof. quiet_tac. Qed.

Lemma quiet_startEditing : quiet startEditing.
Proof. quiet_tac. Qed.

Lemma quiet_stopEditing : quiet (stopEditing html_text).
Proof. intros n. unfold stopEditing. destruct (isEditing n); repeat split. Qed.

Lemma quiet_drag_onMouseDown (x y : Q) :
  quiet (drag_onMouseDown layout_offset x y).
Proof. quiet_tac. Qed.

Lemma quiet_drag_onMouseMove (x y : Q) : quiet (drag_onMouseMove x y).
Proof. intros n. unfold drag_onMouseMove. destruct (dragging n); repeat split. Qed.

Lemma quiet_drag_onMouseUp (ds : DragScale) :
  quiet (drag_onMouseUp layout_offset ds).
Proof. intros n. unfold drag_onMouseUp. destruct (dragging n); repeat split. Qed.

Lemma quiet_resize_onMouseDown (x y : Q) : quiet (resize_onMouseDown x y).
Proof. quiet_tac. Qed.

Lemma quiet_resize_onMouseUp : quiet resize_onMouseUp.
Proof. intros n. unfold resize_onMouseUp. destruct (resizing n); repeat split. Qed.

Lemma holds_resize_onMouseMove (ds : DragScale) (x y : Q) (n : Note) :
  holds K n -> holds K (resize_onMouseMove ds x y n).
Proof.
  intros Hn. unfold resize_onMouseMove. destruct (resizing n); [|exact Hn].
  unfold holds. simpl. eapply K_resize; [exact Hn| |]; apply Qmax_js_lower.
Qed.

Lemma holds_changeNoteColor (key : string) (n : Note) :
  is_palette_key key = true -> holds K n -> holds K (changeNoteColor key n).
Proof.
  intros Hk Hn. unfold changeNoteColor.
  destruct (NOTE_COLORS_get key); [|exact Hn].
  unfold holds. simpl. eapply K_recolor; eassumption.
Qed.

Lemma kept_update_in (i : Z) (f : Note -> Note) (st : State) :
  (forall n, holds K n -> holds K (f n)) ->
  kept K st -> kept K (update_in i f st).
Proof.
  intros Hf (Hn & Hc). split; [|exact Hc].
  apply Forall_update_note; assumption.
Qed.

Lemma kept_map (f : Note -> Note) (st : State) :
  (forall n, holds K n -> holds K (f n)) ->
  kept K st -> kept K (set_stickyNotes (map f (stickyNotes st)) st).
Proof.
  intros Hf (Hn & Hc). split; [|exact Hc].
  apply Forall_map_notes; assumption.
Qed.

Lemma kept_deselectAllNotes (st : State) :
  kept K st -> kept K (deselectAllNotes st).
Proof.
  intros H. unfold deselectAllNotes. destruct (selectedNoteId st); [|exact H].
  apply (kept_update_in z (map_element (set_el_selected false)) st) in H.
  - exact H.
  - apply quiet_holds, quiet_map_element.
Qed.

Lemma kept_selectNote (i : Z) (st : State) :
  kept K st -> kept K (selectNote i st).
Proof.
  intros H. unfold selectNote.
  apply kept_update_in; [apply quiet_holds, quiet_map_element|].
  apply kept_deselectAllNotes in H. exact H.
Qed.

Lemma kept_push (n : Note) (c : Z) (st : State) :
  holds K n -> kept K st ->
  kept K (set_noteIdCounter c (set_stickyNotes (stickyNotes st ++ [n]) st)).
Proof.
  intros Hn (Hl & Hc). split; [|exact Hc].
  simpl. apply Forall_app. split; [assumption|constructor; [assumption|constructor]].
Qed.

Lemma kept_createStickyNote (ds : DragScale) (now : Z) (x y : Q) (st : State) :
  kept K st -> kept K (createStickyNote ds now x y st).
Proof.
  intros H. unfold createStickyNote. apply kept_selectNote.
  apply kept_push; [exact K_default|exact H].
Qed.

Lemma kept_removeNote (i : Z) (st : State) :
  kept K st -> kept K (removeNote i st).
Proof.
  intros (Hn & Hc). unfold removeNote.
  destruct (find_note i (stickyNotes st)); [|split; assumption].
  assert (H : kept K (set_stickyNotes (remove_first i (stickyNotes st)) st)).
  { split; [apply Forall_remove_first; assumption|exact Hc]. }
  cbn [selectedNoteId set_stickyNotes].
  destruct (selectedNoteId st) as [sel|]; [|exact H].
  destruct (Z.eqb sel i); exact H.
Qed.

Lemma kept_selected (st : State) (n : Note) :
  kept K st -> getSelectedNote st = Some n -> holds K n.
Proof.
  intros (Hn & _). unfold getSelectedNote.
  destruct (selectedNoteId st); [|discriminate].
  intros Hf. apply find_note_some in Hf. destruct Hf as (Hin & _).
  rewrite Forall_forall in Hn. apply Hn. exact Hin.
Qed.

Lemma kept_copySelectedNote (st : State) :
  kept K st -> kept K (copySelectedNote st).
Proof.
  intros H. unfold copySelectedNote.
  destruct (getSelectedNote st) as [n|] eqn:Hs; [|exact H].
  split; [exact (proj1 H)|]. exact (kept_selected st n H Hs).
Qed.

Lemma kept_pasteNote (ds : DragScale) (now : Z) (w h : Q) (st : State) :
  kept K st -> kept K (pasteNote ds now w h st).
Proof.
  intros H. unfold pasteNote.
  destruct (clipboardNote st) as [clip|] eqn:Hc; [|exact H].
  apply kept_selectNote. apply kept_push; [|exact H].
  destruct H as (_ & H). rewrite Hc in H. exact H.
Qed.

Lemma kept_duplicateSelectedNote (ds : DragScale) (now : Z) (st : State) :
  kept K st -> kept K (duplicateSelectedNote ds now st).
Proof.
  intros H. unfold duplicateSelectedNote.
  destruct (getSelectedNote st) as [n|] eqn:Hs; [|exact H].
  apply kept_selectNote. apply kept_push; [|exact H].
  exact (kept_selected st n H Hs).
Qed.

Lemma kept_stop (i : Z) (st : State) :
  kept K st -> kept K (update_in i (stopEditing html_text) st).
Proof. apply kept_update_in, quiet_holds, quiet_stopEditing. Qed.

Lemma kept_on_key (c : bool) (a : State -> State) (st st' : State)
    (b : bool) :
  (forall s, kept K s -> kept K (a s)) ->
  on_key c a st = (st', b) -> kept K st -> kept K st'.
Proof.
  intros Ha. unfold on_key. destruct c; intros E H; inversion E; subst; auto.
Qed.

Lemma kept_removeSelected (st : State) :
  kept K st -> kept K (removeSelected st).
Proof.
  intros H. unfold removeSelected. destruct (selectedNoteId st); [|exact H].
  apply kept_removeNote. exact H.
Qed.

Lemma kept_escapeKey (st : State) :
  kept K st -> kept K (escapeKey html_text st).
Proof.
  intros H. unfold escapeKey.
  destruct (getSelectedNote st) as [n|]; [destruct (isEditing n)|];
    auto using kept_stop, kept_deselectAllNotes.
Qed.

Lemma kept_globalKeyDownHandler (env : Env) (key : string) (ctrl : bool)
    (focus : Focus) (st : State) :
  kept K st ->
  kept K (fst (globalKeyDownHandler html_text env key ctrl focus st)).
Proof.
  intros H. unfold globalKeyDownHandler.
  set (typing := isTyping focus st). clearbody typing.
  set (st0 := if (String.eqb key "t" || String.eqb key "T") && negb typing
              then set_isTKeyHeld true st else st).
  assert (H0 : kept K st0).
  { unfold st0.
    destruct ((String.eqb key "t" || String.eqb key "T") && negb typing);
      exact H. }
  clearbody st0.
  destruct (on_key _ copySelectedNote st0) as [st1 s1] eqn:E1.
  apply (kept_on_key _ _ _ _ _ kept_copySelectedNote E1) in H0.
  destruct (on_key _ (pasteNote _ _ _ _) st1) as [st2 s2] eqn:E2.
  apply (kept_on_key _ _ _ _ _ (kept_pasteNote _ _ _ _) E2) in H0.
  destruct (on_key _ (duplicateSelectedNote _ _) st2) as [st3 s3] eqn:E3.
  apply (kept_on_key _ _ _ _ _ (kept_duplicateSelectedNote _ _) E3) in H0.
  destruct (on_key _ removeSelected st3) as [st4 s4] eqn:E4.
  apply (kept_on_key _ _ _ _ _ kept_removeSelected E4) in H0.
  cbn [fst]. destruct (String.eqb key "Escape"); [|exact H0].
  apply kept_escapeKey. exact H0.
Qed.

Lemma kept_contentKeyDownHandler (key : string) (shift : bool) (i : Z)
    (st : State) :
  kept K st -> kept K (contentKeyDownHandler html_text key shift i st).
Proof.
  intros H. unfold contentKeyDownHandler.
  destruct (String.eqb key "Enter" && negb shift);
    destruct (String.eqb key "Escape"); auto using kept_stop.
Qed.

Lemma kept_keyDown (env : Env) (key : string) (ctrl shift : bool)
    (focus : Focus) (st : State) :
  kept K st -> kept K (keyDown html_text env key ctrl shift focus st).
Proof.
  intros H. unfold keyDown.
  pose proof (kept_globalKeyDownHandler env key ctrl focus st H) as H'.
  destruct (globalKeyDownHandler html_text env key ctrl focus st)
    as [st' stopped].
  cbn [fst] in H'. destruct focus; try exact H'.
  destruct stopped; [exact H'|].
  apply kept_contentKeyDownHandler. exact H'.
Qed.

Lemma kept_deserializeNote (ds : DragScale) (now : Z) (st : State)
    (r : NoteRecord) :
  record_ok r -> kept K st -> kept K (deserializeNote ds now st r).
Proof.
  intros Hr H. unfold deserializeNote.
  destruct (r_x r); try exact H. destruct (r_y r); try exact H.
  unfold createStickyNoteFromData. apply kept_push; [|exact H].
  exact (K_load r Hr).
Qed.

Lemma kept_deserializeNotes (ds : DragScale) (now : Z)
    (recs : list NoteRecord) :
  Forall record_ok recs ->
  forall st, kept K st -> kept K (deserializeNotes ds now recs st).
Proof.
  induction 1 as [|r recs Hr Hrecs IH]; intros st H; [exact H|].
  cbn [deserializeNotes fold_left]. apply IH.
  apply kept_deserializeNote; assumption.
Qed.

Lemma kept_checkTransform (ds : DragScale) (st : State) :
  kept K st -> kept K (checkTransform ds st).
Proof.
  intros H. unfold checkTransform.
  destruct (stickyNotes st) as [|n0 l0] eqn:E; [exact H|].
  match goal with |- context [if ?c then _ else _] => destruct c end;
    [|exact H].
  unfold updateAllNotePositions.
  apply (kept_map _ (set_last (ds_offset0 ds) (ds_offset1 ds) (ds_scale ds) st)).
  - apply quiet_holds. intros m. repeat split.
  - exact H.
Qed.

Lemma kept_step (env : Env) (st : State) (ev : Event) :
  restores record_ok ev -> kept K st ->
  kept K (step html_text layout_offset env st ev).
Proof.
  intros Hev H. destruct ev; cbn [step].
  - destruct (isTKeyHeld st); [apply kept_createStickyNote|]; exact H.
  - apply kept_deselectAllNotes; exact H.
  - destruct (is_live noteId st); [apply kept_selectNote|]; exact H.
  - destruct (is_live noteId st); [|exact H].
    apply kept_selectNote, kept_update_in; [|exact H].
    apply quiet_holds, quiet_drag_onMouseDown.
  - apply kept_update_in; [|exact H].
    apply quiet_holds, quiet_resize_onMouseDown.
  - apply kept_map; [|exact H]. intros n Hn.
    apply holds_resize_onMouseMove.
    apply (quiet_holds _ (quiet_drag_onMouseMove clientX clientY)). exact Hn.
  - apply kept_map; [|exact H]. intros n Hn.
    apply (quiet_holds _ quiet_resize_onMouseUp).
    apply (quiet_holds _ (quiet_drag_onMouseUp (env_ds env))). exact Hn.
  - apply kept_update_in; [|exact H]. apply quiet_holds, quiet_startEditing.
  - apply kept_update_in; [|exact H]. intros n Hn.
    destruct (el_contentEditable (element n)); exact Hn.
  - apply kept_update_in; [|exact H]. intros n Hn.
    destruct (isEditing n); [|exact Hn].
    apply (quiet_holds _ quiet_stopEditing). exact Hn.
  - apply kept_removeNote; exact H.
  - destruct (is_palette_key key) eqn:Hk; [|exact H].
    apply kept_update_in; [|exact H]. intros n.
    apply holds_changeNoteColor. exact Hk.
  - apply kept_keyDown; exact H.
  - unfold globalKeyUpHandler.
    destruct (String.eqb key "t" || String.eqb key "T"); exact H.
  - exact H.
  - apply kept_checkTransform; exact H.
  - split; [constructor|exact (proj2 H)].
  - apply kept_deserializeNotes; assumption.
Qed.

Lemma kept_run (trace : list (Env * Event)) :
  Forall (fun ee => restores record_ok (snd ee)) trace ->
  forall st, kept K st -> kept K (run html_text layout_offset st trace).
Proof.
  induction 1 as [|ee trace Hee Htrace IH]; intros st H; [exact H|].
  cbn [run fold_left]. apply IH. apply kept_step; assumption.
Qed.

End Kept.

(** ** Sizes *)

Lemma loaded_size_ok (min d : Q) (f : option Q) :
  Qeq_bool d 0 = false -> (min <= d)%Q ->
  size_field_ok min f ->
  (min <= num_or (opt_or num_or f d) d)%Q.
Proof.
  intros Hd Hmin Hf.
  destruct (num_or_twice_opt f d) as [E|E]; [rewrite E|congruence].
  destruct f as [v|]; simpl in *.
  - unfold num_or. destruct (Qeq_bool v 0) eqn:Hv; [exact Hmin|].
    destruct Hf as [Hf|Hf]; [discriminate|exact Hf].
  - exact Hmin.
Qed.

Lemma K_sizes_load (r : NoteRecord) :
  record_sizes_ok r ->
  K_sizes (loaded_width r) (loaded_height r) (loaded_color r).
Proof.
  intros (Hw & Hh). split.
  - apply loaded_size_ok; [reflexivity|discriminate|exact Hw].
  - apply loaded_size_ok; [reflexivity|discriminate|exact Hh].
Qed.

Lemma kept_initial (K : Q -> Q -> string -> Prop) : kept K initial_state.
Proof. split; [constructor|exact I]. Qed.

(** C2, as stated, fails right after a load: a record with [width] 50 and
    [height] 50 becomes a note of that size. *)
Lemma deserialize_keeps_small_size :
  ~ Forall sizes_ok
      (stickyNotes
         (deserializeNotes sample_ds sample_now [small_record] initial_state)).
Proof.
  intros H. inversion H as [|n l (Hw & _) _]; subst.
  vm_compute in Hw. apply Hw. reflexivity.
Qed.

(** C2, amended. In every run from the initial state under valid views,
    in which the restored records carry a [width] and a [height] that are
    absent, falsy or at least the minimum, every note has
    [width >= MIN_WIDTH] and [height >= MIN_HEIGHT] after every event: after
    each creation, paste, duplicate and load, and after any sequence of
    resize moves, whatever the pointer positions are.  A resize move by
    itself ends within the bounds from any size.  [deserializeNotes] does
    not clamp: it stores a truthy [width] or [height] of a record as it
    is. *)
Theorem sizes_kept (html_text : string -> string) (layout_offset : Q -> Q)
    (trace : list (Env * Event)) :
  Forall (fun ee => valid_view (fst ee) /\ restores record_sizes_ok (snd ee))
    trace ->
  Forall sizes_ok
    (stickyNotes (run html_text layout_offset initial_state trace)) /\
  (forall ds clientX clientY n g,
      resizing n = Some g ->
      sizes_ok (resize_onMouseMove ds clientX clientY n)).
Proof.
  intros Htrace. split.
  - refine (proj1 (kept_run html_text layout_offset K_sizes record_sizes_ok
                     _ _ _ K_sizes_load trace _ initial_state
                     (kept_initial K_sizes))).
    + split; discriminate.
    + intros w h c w' h' _ Hw Hh. split; assumption.
    + intros w h c key H _. exact H.
    + eapply Forall_impl; [|exact Htrace]. intros ee (_ & H). exact H.
  - intros ds x y n g Hg. unfold resize_onMouseMove. rewrite Hg.
    split; simpl; apply Qmax_js_lower.
Qed.

Lemma sample_trace_ok (ok : NoteRecord -> Prop) :
  ok bare_record ->
  Forall (fun ee => valid_view (fst ee) /\ restores ok (snd ee)) sample_trace.
Proof.
  intros Hok. unfold sample_trace. simpl.
  repeat (constructor; [split; [reflexivity|]|]);
    try exact I; try constructor; auto.
Qed.

Lemma sizes_kept_witness :
  Forall (fun ee => valid_view (fst ee) /\ restores record_sizes_ok (snd ee))
    sample_trace /\
  Forall sizes_ok
    (stickyNotes (run (fun h => h) (fun q => q) initial_state sample_trace)).
Proof.
  assert (H : Forall (fun ee => valid_view (fst ee) /\
                                restores record_sizes_ok (snd ee))
                sample_trace).
  { apply sample_trace_ok. split; exact I. }
  split; [exact H|].
  exact (proj1 (sizes_kept (fun h => h) (fun q => q) sample_trace H)).
Defined.

(** ** Colours *)

Lemma K_color_load (r : NoteRecord) :
  record_color_ok r ->
  K_color (loaded_width r) (loaded_height r) (loaded_color r).
Proof.
  unfold record_color_ok, K_color, loaded_color.
  destruct (r_color r) as [c|]; simpl; [|reflexivity].
  intros [H|H]; [subst; reflexivity|].
  destruct c; [reflexivity|exact H].
Qed.

Lemma changeNoteColor_rejects (key : string) (n : Note) :
  NOTE_COLORS_get key = None -> changeNoteColor key n = n.
Proof. intros H. unfold changeNoteColor. rewrite H. reflexivity. Qed.

Lemma applyNoteColor_fallback (key : string) (e : Element) :
  NOTE_COLORS_get key = None ->
  el_note_bg (applyNoteColor key e) = Some "#fef3c7" /\
  el_note_text (applyNoteColor key e) = Some "#92400e".
Proof. intros H. unfold applyNoteColor. rewrite H. split; reflexivity. Qed.

Lemma loaded_color_kept (r : NoteRecord) (c : string) :
  r_color r = Some c -> c <> "" -> loaded_color r = c.
Proof.
  intros H Hc. unfold loaded_color. rewrite H. simpl.
  destruct c; [contradiction|reflexivity].
Qed.

(** C5, as stated, fails at a load: the colour ["purple"] of a record is
    stored in the note, and it is not a palette key. *)
Lemma deserialize_keeps_unknown_color :
  ~ Forall color_ok
      (stickyNotes
         (deserializeNotes sample_ds sample_now [purple_record] initial_state)).
Proof.
  intros H. inversion H as [|n l Hc _]; subst.
  vm_compute in Hc. discriminate Hc.
Qed.

(** C5, amended. In every run from the initial state in which the restored
    records carry a colour that is absent, empty or a palette key, the
    stored colour of every note is a palette key after every event.  A
    colour change with a key that has no entry in the palette object leaves
    the note as it is.  At a load only an absent or empty colour is
    replaced by the default: any other string is stored unchanged, and for
    a key without entry the element shows the default entry. *)
Theorem colors_kept (html_text : string -> string) (layout_offset : Q -> Q)
    (trace : list (Env * Event)) :
  Forall (fun ee => valid_view (fst ee) /\ restores record_color_ok (snd ee))
    trace ->
  Forall color_ok
    (stickyNotes (run html_text layout_offset initial_state trace)) /\
  (forall key n, NOTE_COLORS_get key = None -> changeNoteColor key n = n) /\
  (forall r c, r_color r = Some c -> c <> "" -> loaded_color r = c) /\
  (forall key e, NOTE_COLORS_get key = None ->
     el_note_bg (applyNoteColor key e) = Some "#fef3c7" /\
     el_note_text (applyNoteColor key e) = Some "#92400e").
Proof.
  intros Htrace. split; [|split; [|split]].
  - refine (proj1 (kept_run html_text layout_offset K_color record_color_ok
                     _ _ _ K_color_load trace _ initial_state
                     (kept_initial K_color))).
    + reflexivity.
    + intros w h c w' h' H _ _. exact H.
    + intros w h c key _ H. exact H.
    + eapply Forall_impl; [|exact Htrace]. intros ee (_ & H). exact H.
  - exact changeNoteColor_rejects.
  - exact loaded_color_kept.
  - exact applyNoteColor_fallback.
Qed.

Lemma colors_kept_witness :
  Forall (fun ee => valid_view (fst ee) /\ restores record_color_ok (snd ee))
    sample_trace /\
  Forall color_ok
    (stickyNotes (run (fun h => h) (fun q => q) initial_state sample_trace)).
Proof.
  assert (H : Forall (fun ee => valid_view (fst ee) /\
                                restores record_color_ok (snd ee))
                sample_trace).
  { apply sample_trace_ok. exact I. }
  split; [exact H|].
  exact (proj1 (colors_kept (fun h => h) (fun q => q) sample_trace H)).
Defined.

(** ** Selection *)

Lemma ids_update_note (i : Z) (f : Note -> Note) (l : list Note) :
  (forall n, id (f n) = id n) ->
  map id (update_note i f l) = map id l.
Proof.
  intros Hf. induction l as [|n l IH]; simpl; [reflexivity|].
  destruct (Z.eqb (id n) i); simpl; [rewrite Hf|rewrite IH]; reflexivity.
Qed.

Lemma In_update_note (i : Z) (f : Note -> Note) (l : list Note) (n' : Note) :
  In n' (update_note i f l) ->
  exists n, In n l /\ (n' = n \/ (id n = i /\ n' = f n)).
Proof.
  induction l as [|n l IH]; simpl; [contradiction|].
  destruct (Z.eqb (id n) i) eqn:E; simpl.
  - intros [H|H].
    + exists n. split; [left; reflexivity|]. right.
      split; [apply Z.eqb_eq; exact E|symmetry; exact H].
    + exists n'. split; [right; exact H|left; reflexivity].
  - intros [H|H].
    + exists n. split; [left; reflexivity|left; symmetry; exact H].
    + destruct (IH H) as (m & Hm & Hn). exists m. split; [right; exact Hm|exact Hn].
Qed.

(** With unique ids, the notes of another id are untouched and the note of
    id [i] is the image of the one that was there. *)
Lemma In_update_note_nodup (i : Z) (f : Note -> Note) (l : list Note)
    (n' : Note) :
  (forall n, id (f n) = id n) ->
  NoDup (map id l) ->
  In n' (update_note i f l) ->
  (id n' <> i /\ In n' l) \/ (exists n, In n l /\ id n = i /\ n' = f n).
Proof.
  intros Hf. induction l as [|n l IH]; simpl; [contradiction|].
  intros Hnd Hin. inversion Hnd as [|x xs Hx Hxs]; subst.
  destruct (Z.eqb (id n) i) eqn:E; simpl in Hin.
  - apply Z.eqb_eq in E. destruct Hin as [H|H].
    + right. exists n. auto.
    + left. split; [|right; exact H].
      intros Hi. apply Hx. rewrite E, <- Hi. apply in_map. exact H.
  - apply Z.eqb_neq in E. destruct Hin as [H|H].
    + left. subst n'. split; [exact E|left; reflexivity].
    + destruct (IH Hxs H) as [(Hi & Hl)|(m & Hm & Hi & Hn)].
      * left. split; [exact Hi|right; exact Hl].
      * right. exists m. split; [right; exact Hm|split; assumption].
Qed.

Lemma is_live_ids (i : Z) (st : State) :
  is_live i st = true <-> In i (map id (stickyNotes st)).
Proof.
  unfold is_live. destruct (find_note i (stickyNotes st)) as [n|] eqn:E.
  - apply find_note_some in E. destruct E as (Hin & Hid).
    split; [|reflexivity]. intros _. rewrite <- Hid. apply in_map. exact Hin.
  - split; [discriminate|]. intros Hin. apply in_map_iff in Hin.
    destruct Hin as (n & Hid & Hin).
    exfalso. exact (find_note_none i _ E n Hin Hid).
Qed.

Lemma In_remove_first (i : Z) (l : list Note) (n : Note) :
  In n (remove_first i l) -> In n l.
Proof.
  induction l as [|m l IH]; simpl; [contradiction|].
  destruct (Z.eqb (id m) i); simpl; [auto|]. intros [H|H]; auto.
Qed.

Lemma ids_remove_first (i : Z) (l : list Note) :
  NoDup (map id l) ->
  NoDup (map id (remove_first i l)) /\
  (forall j, In j (map id (remove_first i l)) <->
             (j <> i /\ In j (map id l))).
Proof.
  induction l as [|m l IH]; simpl; intros Hnd.
  - split; [constructor|]. intros j. tauto.
  - inversion Hnd as [|x xs Hx Hxs]; subst.
    destruct (Z.eqb (id m) i) eqn:E.
    + apply Z.eqb_eq in E. split; [exact Hxs|].
      intros j. split.
      * intros Hj. split; [|right; exact Hj]. intros Hji. subst j.
        apply Hx. rewrite E. exact Hj.
      * intros (Hji & [Hj|Hj]); [congruence|exact Hj].
    + apply Z.eqb_neq in E. destruct (IH Hxs) as (Hnd' & Hin').
      split.
      * simpl. constructor; [|exact Hnd'].
        intros Hm. apply Hin' in Hm. apply Hx. exact (proj2 Hm).
      * intros j. simpl. rewrite Hin'. split.
        -- intros [Hj|(Hji & Hj)]; [subst j; auto|auto].
        -- intros (Hji & [Hj|Hj]); auto.
Qed.

Lemma NoDup_snoc (l : list Z) (x : Z) :
  NoDup l -> ~ In x l -> NoDup (l ++ [x]).
Proof.
  induction 1 as [|y l Hy Hl IH]; simpl; intros Hx.
  - constructor; [auto|constructor].
  - constructor.
    + rewrite in_app_iff. intros [H|[H|[]]]; [auto|]. apply Hx. left.
      symmetry. exact H.
    + apply IH. intros H. apply Hx. right. exact H.
Qed.

Lemma selection_ok_update_in (i : Z) (f : Note -> Note) (st : State) :
  discreet f -> selection_ok st -> selection_ok (update_in i f st).
Proof.
  intros Hf (Hnd & Hle & Hlive & Hhi).
  assert (Hid : forall n, id (f n) = id n) by (intros n; apply Hf).
  unfold selection_ok. cbn [update_in stickyNotes set_stickyNotes noteIdCounter
                              selectedNoteId].
  split; [|split; [|split]].
  - rewrite (ids_update_note i f (stickyNotes st) Hid). exact Hnd.
  - apply Forall_update_note; [|exact Hle]. intros n. rewrite Hid. auto.
  - intros sel Hsel. apply is_live_ids.
    cbn [update_in stickyNotes set_stickyNotes].
    rewrite (ids_update_note i f (stickyNotes st) Hid). apply is_live_ids. auto.
  - intros n' Hin. apply In_update_note in Hin.
    destruct Hin as (n & Hn & [E|(_ & E)]); subst n'.
    + apply Hhi. exact Hn.
    + destruct (Hf n) as (E1 & E2). rewrite E1, E2. apply Hhi. exact Hn.
Qed.

Lemma selection_ok_map (f : Note -> Note) (st : State) :
  discreet f -> selection_ok st ->
  selection_ok (set_stickyNotes (map f (stickyNotes st)) st).
Proof.
  intros Hf (Hnd & Hle & Hlive & Hhi).
  assert (Hids : map id (map f (stickyNotes st)) = map id (stickyNotes st)).
  { rewrite map_map. apply map_ext. intros n. apply Hf. }
  unfold selection_ok. cbn [stickyNotes set_stickyNotes noteIdCounter
                              selectedNoteId].
  split; [|split; [|split]].
  - rewrite Hids. exact Hnd.
  - apply Forall_map_notes; [|exact Hle].
    intros n. destruct (Hf n) as (E & _). rewrite E. auto.
  - intros sel Hsel. apply is_live_ids. cbn [stickyNotes set_stickyNotes].
    rewrite Hids. apply is_live_ids. auto.
  - intros n' Hin. apply in_map_iff in Hin. destruct Hin as (n & E & Hn).
    subst n'. destruct (Hf n) as (E1 & E2).
    unfold selection_list; cbn [selectedNoteId]. rewrite E1, E2.
    apply Hhi. exact Hn.
Qed.

Lemma deselectAllNotes_spec (st : State) :
  selection_ok st ->
  selection_ok (deselectAllNotes st) /\
  selectedNoteId (deselectAllNotes st) = None /\
  map id (stickyNotes (deselectAllNotes st)) = map id (stickyNotes st) /\
  noteIdCounter (deselectAllNotes st) = noteIdCounter st.
Proof.
  intros H. unfold deselectAllNotes.
  destruct (selectedNoteId st) as [sel|] eqn:Hsel; [|auto].
  destruct H as (Hnd & Hle & Hlive & Hhi).
  assert (Hid : forall n,
             id (map_element (set_el_selected false) n) = id n)
    by reflexivity.
  assert (Hids : map id (update_note sel (map_element (set_el_selected false))
                           (stickyNotes st)) = map id (stickyNotes st))
    by (apply ids_update_note; exact Hid).
  split; [|split; [reflexivity|split; [exact Hids|reflexivity]]].
  unfold selection_ok.
  cbn [update_in stickyNotes set_stickyNotes set_selectedNoteId noteIdCounter
       selectedNoteId].
  split; [|split; [|split]].
  - rewrite Hids. exact Hnd.
  - apply Forall_update_note; [|exact Hle]. intros n. rewrite Hid. auto.
  - discriminate.
  - intros n' Hin. unfold selection_list; cbn [selectedNoteId In].
    apply In_update_note_nodup in Hin; [|exact Hid|exact Hnd].
    destruct Hin as [(Hne & Hin)|(n & Hn & Hi & E)].
    + specialize (Hhi n' Hin). unfold selection_list in Hhi.
      rewrite Hsel in Hhi. simpl in Hhi. split; [|contradiction].
      intros Ht. apply Hhi in Ht. destruct Ht as [Ht|[]]. congruence.
    + subst n'. simpl. split; [discriminate|contradiction].
Qed.

Lemma selectNote_spec (i : Z) (st : State) :
  selection_ok st -> is_live i st = true ->
  selection_ok (selectNote i st) /\
  selectedNoteId (selectNote i st) = Some i /\
  highlighted [i] (selectNote i st).
Proof.
  intros H Hlive. unfold selectNote.
  destruct (deselectAllNotes_spec st H)
    as ((Hnd & Hle & _ & Hhi) & Hsel & Hids & Hc).
  set (st1 := deselectAllNotes st) in *.
  assert (Hid : forall n,
             id (map_element (set_el_selected true) n) = id n)
    by reflexivity.
  assert (Hids' : map id (update_note i (map_element (set_el_selected true))
                            (stickyNotes st1)) = map id (stickyNotes st))
    by (rewrite (ids_update_note i _ (stickyNotes st1) Hid); exact Hids).
  assert (Hhl : highlighted [i]
                  (update_in i (map_element (set_el_selected true))
                     (set_selectedNoteId (Some i) st1))).
  { intros n' Hin.
    cbn [update_in stickyNotes set_stickyNotes set_selectedNoteId] in Hin.
    apply In_update_note_nodup in Hin; [|exact Hid|exact Hnd].
    destruct Hin as [(Hne & Hin)|(n & Hn & Hi & E)].
    - specialize (Hhi n' Hin). unfold selection_list in Hhi.
      rewrite Hsel in Hhi. simpl in *. split.
      + intros Ht. apply Hhi in Ht. contradiction.
      + intros [Ht|[]]. congruence.
    - subst n'. simpl. split; [auto|reflexivity]. }
  split; [|split; [reflexivity|exact Hhl]].
  unfold selection_ok.
  split; [|split; [|split]].
  - cbn [update_in stickyNotes set_stickyNotes set_selectedNoteId].
    rewrite Hids'. rewrite <- Hids. exact Hnd.
  - cbn [update_in stickyNotes set_stickyNotes set_selectedNoteId
         noteIdCounter].
    apply Forall_update_note; [|exact Hle]. intros n. rewrite Hid. auto.
  - intros sel Hs. cbn [update_in selectedNoteId set_stickyNotes
                        set_selectedNoteId] in Hs.
    inversion Hs; subst sel. apply is_live_ids.
    cbn [update_in stickyNotes set_stickyNotes set_selectedNoteId].
    rewrite Hids'. apply is_live_ids. exact Hlive.
  - exact Hhl.
Qed.

Lemma selection_ok_push (n : Note) (st : State) :
  selection_ok st ->
  id n = (noteIdCounter st + 1)%Z ->
  el_selected (element n) = false ->
  selection_ok
    (set_noteIdCounter (noteIdCounter st + 1)
       (set_stickyNotes (stickyNotes st ++ [n]) st)) /\
  is_live (id n)
    (set_noteIdCounter (noteIdCounter st + 1)
       (set_stickyNotes (stickyNotes st ++ [n]) st)) = true.
Proof.
  intros (Hnd & Hle & Hlive & Hhi) Hid Hsel.
  assert (Hfresh : ~ In (id n) (map id (stickyNotes st))).
  { intros Hin. apply in_map_iff in Hin. destruct Hin as (m & E & Hm).
    rewrite Forall_forall in Hle. specialize (Hle m Hm). lia. }
  split.
  - unfold selection_ok.
    cbn [stickyNotes set_stickyNotes set_noteIdCounter noteIdCounter
         selectedNoteId].
    split; [|split; [|split]].
    + rewrite map_app. apply NoDup_snoc; assumption.
    + apply Forall_app. split.
      * eapply Forall_impl; [|exact Hle]. intros m Hm. simpl in Hm. lia.
      * constructor; [lia|constructor].
    + intros sel Hs. apply is_live_ids.
      cbn [stickyNotes set_stickyNotes set_noteIdCounter].
      rewrite map_app, in_app_iff. left. apply is_live_ids. auto.
    + intros m Hm. unfold selection_list; cbn [selectedNoteId].
      fold (selection_list st). apply in_app_iff in Hm.
      destruct Hm as [Hm|[Hm|[]]]; [apply Hhi; exact Hm|]. subst m.
      rewrite Hsel. split; [discriminate|]. intros Hin. exfalso.
      unfold selection_list in Hin.
      cbn [selectedNoteId set_noteIdCounter set_stickyNotes] in Hin.
      destruct (selectedNoteId st) as [sel|] eqn:Hs; [|exact Hin].
      destruct Hin as [E|[]]. apply Hfresh. rewrite <- E.
      apply is_live_ids. auto.
  - apply is_live_ids. cbn [stickyNotes set_stickyNotes set_noteIdCounter].
    rewrite map_app, in_app_iff. right. left. reflexivity.
Qed.

Lemma removeNote_spec (i : Z) (st : State) :
  selection_ok st ->
  selection_ok (removeNote i st) /\
  (selectedNoteId st = Some i -> selectedNoteId (removeNote i st) = None) /\
  (selectedNoteId st <> Some i ->
   selectedNoteId (removeNote i st) = selectedNoteId st).
Proof.
  intros H. unfold removeNote.
  destruct (find_note i (stickyNotes st)) as [n|] eqn:Hfind.
  - destruct H as (Hnd & Hle & Hlive & Hhi).
    destruct (ids_remove_first i (stickyNotes st) Hnd) as (Hnd' & Hin').
    cbn [selectedNoteId set_stickyNotes].
    assert (Hle' : Forall (fun m => (id m <= noteIdCounter st)%Z)
                     (remove_first i (stickyNotes st)))
      by (apply Forall_remove_first; exact Hle).
    destruct (selectedNoteId st) as [sel|] eqn:Hsel.
    + destruct (Z.eqb sel i) eqn:E.
      * apply Z.eqb_eq in E. subst sel.
        split; [|split; [reflexivity|congruence]].
        unfold selection_ok.
        cbn [stickyNotes set_stickyNotes set_selectedNoteId noteIdCounter
             selectedNoteId].
        split; [exact Hnd'|split; [exact Hle'|split; [discriminate|]]].
        intros m Hm. unfold selection_list;
          cbn [selectedNoteId set_stickyNotes set_selectedNoteId In].
        assert (Hne : id m <> i).
        { apply (Hin' (id m)). apply in_map. exact Hm. }
        apply In_remove_first in Hm. specialize (Hhi m Hm).
        unfold selection_list in Hhi. rewrite Hsel in Hhi. simpl in Hhi.
        split; [|contradiction]. intros Ht. apply Hhi in Ht.
        destruct Ht as [Ht|[]]. congruence.
      * apply Z.eqb_neq in E.
        split; [|split; [congruence|intros _; exact Hsel]].
        unfold selection_ok.
        cbn [stickyNotes set_stickyNotes noteIdCounter selectedNoteId].
        split; [exact Hnd'|split; [exact Hle'|split]].
        -- intros s Hs. cbn [selectedNoteId set_stickyNotes] in Hs.
           rewrite Hsel in Hs. inversion Hs; subst s.
           apply is_live_ids. cbn [stickyNotes set_stickyNotes].
           apply Hin'. split; [exact E|]. apply is_live_ids. auto.
        -- intros m Hm. unfold selection_list;
           cbn [selectedNoteId set_stickyNotes set_selectedNoteId].
           rewrite Hsel. apply In_remove_first in Hm.
           specialize (Hhi m Hm). unfold selection_list in Hhi.
           rewrite Hsel in Hhi. exact Hhi.
    + split; [|split; [discriminate|intros _; exact Hsel]].
      unfold selection_ok.
      cbn [stickyNotes set_stickyNotes noteIdCounter selectedNoteId].
      split; [exact Hnd'|split; [exact Hle'|split]].
      * intros s Hs. cbn [selectedNoteId set_stickyNotes] in Hs.
        rewrite Hsel in Hs. discriminate.
      * intros m Hm. unfold selection_list;
           cbn [selectedNoteId set_stickyNotes set_selectedNoteId].
        rewrite Hsel. apply In_remove_first in Hm.
        specialize (Hhi m Hm). unfold selection_list in Hhi.
        rewrite Hsel in Hhi. exact Hhi.
  - split; [exact H|split; [|reflexivity]].
    intros Hsel. destruct H as (_ & _ & Hlive & _).
    specialize (Hlive i Hsel). unfold is_live in Hlive.
    rewrite Hfind in Hlive. discriminate.
Qed.

Lemma selection_ok_clearAllNotes (st : State) :
  selection_ok (clearAllNotes st).
Proof.
  unfold selection_ok, clearAllNotes. simpl.
  split; [constructor|split; [constructor|split; [discriminate|]]].
  intros n [].
Qed.

Section Selection.

Variable html_text : string -> string.
Variable layout_offset : Q -> Q.

Lemma selection_ok_created (n : Note) (st : State) :
  selection_ok st ->
  id n = (noteIdCounter st + 1)%Z ->
  el_selected (element n) = false ->
  selection_ok
    (selectNote (noteIdCounter st + 1)
       (set_noteIdCounter (noteIdCounter st + 1)
          (set_stickyNotes (stickyNotes st ++ [n]) st))).
Proof.
  intros H Hid Hsel.
  destruct (selection_ok_push n st H Hid Hsel) as (Hok & Hlive).
  rewrite Hid in Hlive.
  exact (proj1 (selectNote_spec _ _ Hok Hlive)).
Qed.

Lemma selection_ok_createStickyNote (ds : DragScale) (now : Z) (x y : Q)
    (st : State) :
  selection_ok st -> selection_ok (createStickyNote ds now x y st).
Proof.
  intros H. unfold createStickyNote.
  apply selection_ok_created; [exact H|reflexivity|reflexivity].
Qed.

Lemma selection_ok_pasteNote (ds : DragScale) (now : Z) (w h : Q)
    (st : State) :
  selection_ok st -> selection_ok (pasteNote ds now w h st).
Proof.
  intros H. unfold pasteNote. destruct (clipboardNote st); [|exact H].
  apply selection_ok_created; [exact H|reflexivity|reflexivity].
Qed.

Lemma selection_ok_duplicateSelectedNote (ds : DragScale) (now : Z)
    (st : State) :
  selection_ok st -> selection_ok (duplicateSelectedNote ds now st).
Proof.
  intros H. unfold duplicateSelectedNote.
  destruct (getSelectedNote st); [|exact H].
  apply selection_ok_created; [exact H|reflexivity|reflexivity].
Qed.

Lemma selection_ok_copySelectedNote (st : State) :
  selection_ok st -> selection_ok (copySelectedNote st).
Proof.
  intros H. unfold copySelectedNote.
  destruct (getSelectedNote st); exact H.
Qed.

Lemma selection_ok_deserializeNote (ds : DragScale) (now : Z) (st : State)
    (r : NoteRecord) :
  selection_ok st -> selection_ok (deserializeNote ds now st r).
Proof.
  intros H. unfold deserializeNote.
  destruct (r_x r); try exact H. destruct (r_y r); try exact H.
  unfold createStickyNoteFromData.
  apply selection_ok_push; [exact H|reflexivity|reflexivity].
Qed.

Lemma selection_ok_deserializeNotes (ds : DragScale) (now : Z)
    (recs : list NoteRecord) :
  forall st, selection_ok st -> selection_ok (deserializeNotes ds now recs st).
Proof.
  induction recs as [|r recs IH]; intros st H; [exact H|].
  cbn [deserializeNotes fold_left]. apply IH.
  apply selection_ok_deserializeNote. exact H.
Qed.

Lemma discreet_stopEditing : discreet (stopEditing html_text).
Proof. intros n. unfold stopEditing. destruct (isEditing n); split; reflexivity. Qed.

Lemma discreet_changeNoteColor (key : string) : discreet (changeNoteColor key).
Proof.
  intros n. unfold changeNoteColor.
  destruct (NOTE_COLORS_get key); split; reflexivity.
Qed.

Lemma discreet_compose (f g : Note -> Note) :
  discreet f -> discreet g -> discreet (fun n => g (f n)).
Proof.
  intros Hf Hg n. destruct (Hf n) as (F1 & F2), (Hg (f n)) as (G1 & G2).
  split; congruence.
Qed.

Lemma discreet_drag_onMouseMove (x y : Q) : discreet (drag_onMouseMove x y).
Proof.
  intros n. unfold drag_onMouseMove. destruct (dragging n); split; reflexivity.
Qed.

Lemma discreet_resize_onMouseMove (ds : DragScale) (x y : Q) :
  discreet (resize_onMouseMove ds x y).
Proof.
  intros n. unfold resize_onMouseMove.
  destruct (resizing n); split; reflexivity.
Qed.

Lemma discreet_drag_onMouseUp (ds : DragScale) :
  discreet (drag_onMouseUp layout_offset ds).
Proof.
  intros n. unfold drag_onMouseUp. destruct (dragging n); split; reflexivity.
Qed.

Lemma discreet_resize_onMouseUp : discreet resize_onMouseUp.
Proof.
  intros n. unfold resize_onMouseUp. destruct (resizing n); split; reflexivity.
Qed.

Lemma selection_ok_stop (i : Z) (st : State) :
  selection_ok st -> selection_ok (update_in i (stopEditing html_text) st).
Proof. apply selection_ok_update_in, discreet_stopEditing. Qed.

Lemma selection_ok_removeSelected (st : State) :
  selection_ok st -> selection_ok (removeSelected st).
Proof.
  intros H. unfold removeSelected. destruct (selectedNoteId st); [|exact H].
  apply removeNote_spec. exact H.
Qed.

Lemma selection_ok_escapeKey (st : State) :
  selection_ok st -> selection_ok (escapeKey html_text st).
Proof.
  intros H. unfold escapeKey.
  destruct (getSelectedNote st) as [n|]; [destruct (isEditing n)|];
    try (apply deselectAllNotes_spec; exact H).
  apply selection_ok_stop. exact H.
Qed.

Lemma selection_ok_on_key (c : bool) (a : State -> State) (st st' : State)
    (b : bool) :
  (forall s, selection_ok s -> selection_ok (a s)) ->
  on_key c a st = (st', b) -> selection_ok st -> selection_ok st'.
Proof.
  intros Ha. unfold on_key. destruct c; intros E H; inversion E; subst; auto.
Qed.

Lemma selection_ok_globalKeyDownHandler (env : Env) (key : string)
    (ctrl : bool) (focus : Focus) (st : State) :
  selection_ok st ->
  selection_ok (fst (globalKeyDownHandler html_text env key ctrl focus st)).
Proof.
  intros H. unfold globalKeyDownHandler.
  set (typing := isTyping focus st). clearbody typing.
  set (st0 := if (String.eqb key "t" || String.eqb key "T") && negb typing
              then set_isTKeyHeld true st else st).
  assert (H0 : selection_ok st0).
  { unfold st0.
    destruct ((String.eqb key "t" || String.eqb key "T") && negb typing);
      exact H. }
  clearbody st0.
  destruct (on_key _ copySelectedNote st0) as [st1 s1] eqn:E1.
  apply (selection_ok_on_key _ _ _ _ _ selection_ok_copySelectedNote E1) in H0.
  destruct (on_key _ (pasteNote _ _ _ _) st1) as [st2 s2] eqn:E2.
  apply (selection_ok_on_key _ _ _ _ _ (selection_ok_pasteNote _ _ _ _) E2)
    in H0.
  destruct (on_key _ (duplicateSelectedNote _ _) st2) as [st3 s3] eqn:E3.
  apply (selection_ok_on_key _ _ _ _ _
           (selection_ok_duplicateSelectedNote _ _) E3) in H0.
  destruct (on_key _ removeSelected st3) as [st4 s4] eqn:E4.
  apply (selection_ok_on_key _ _ _ _ _ selection_ok_removeSelected E4) in H0.
  cbn [fst]. destruct (String.eqb key "Escape"); [|exact H0].
  apply selection_ok_escapeKey. exact H0.
Qed.

Lemma selection_ok_keyDown (env : Env) (key : string) (ctrl shift : bool)
    (focus : Focus) (st : State) :
  selection_ok st ->
  selection_ok (keyDown html_text env key ctrl shift focus st).
Proof.
  intros H. unfold keyDown.
  pose proof (selection_ok_globalKeyDownHandler env key ctrl focus st H) as H'.
  destruct (globalKeyDownHandler html_text env key ctrl focus st)
    as [st' stopped].
  cbn [fst] in H'. destruct focus; try exact H'.
  destruct stopped; [exact H'|].
  unfold contentKeyDownHandler.
  destruct (String.eqb key "Enter" && negb shift);
    destruct (String.eqb key "Escape"); auto using selection_ok_stop.
Qed.

Lemma selection_ok_checkTransform (ds : DragScale) (st : State) :
  selection_ok st -> selection_ok (checkTransform ds st).
Proof.
  intros H. unfold checkTransform.
  destruct (stickyNotes st) as [|n0 l0] eqn:E; [exact H|].
  match goal with |- context [if ?c then _ else _] => destruct c end;
    [|exact H].
  unfold updateAllNotePositions.
  apply (selection_ok_map _
           (set_last (ds_offset0 ds) (ds_offset1 ds) (ds_scale ds) st)).
  - intros m. split; reflexivity.
  - exact H.
Qed.

Lemma selection_ok_step (env : Env) (st : State) (ev : Event) :
  selection_ok st -> selection_ok (step html_text layout_offset env st ev).
Proof.
  intros H. destruct ev; cbn [step].
  - destruct (isTKeyHeld st); [apply selection_ok_createStickyNote|]; exact H.
  - apply deselectAllNotes_spec; exact H.
  - destruct (is_live noteId st) eqn:L; [|exact H].
    apply selectNote_spec; assumption.
  - destruct (is_live noteId st) eqn:L; [|exact H].
    apply selectNote_spec.
    + apply selection_ok_update_in; [|exact H]. intros n. split; reflexivity.
    + apply is_live_ids. cbn [update_in stickyNotes set_stickyNotes].
      rewrite ids_update_note; [|reflexivity]. apply is_live_ids. exact L.
  - apply selection_ok_update_in; [|exact H]. intros n. split; reflexivity.
  - apply selection_ok_map; [|exact H].
    apply (discreet_compose (drag_onMouseMove clientX clientY)
             (resize_onMouseMove (env_ds env) clientX clientY)).
    + apply discreet_drag_onMouseMove.
    + apply discreet_resize_onMouseMove.
  - apply selection_ok_map; [|exact H].
    apply (discreet_compose (drag_onMouseUp layout_offset (env_ds env))
             resize_onMouseUp).
    + apply discreet_drag_onMouseUp.
    + apply discreet_resize_onMouseUp.
  - apply selection_ok_update_in; [|exact H]. intros n. split; reflexivity.
  - apply selection_ok_update_in; [|exact H]. intros n.
    destruct (el_contentEditable (element n)); split; reflexivity.
  - apply selection_ok_update_in; [|exact H]. intros n.
    destruct (isEditing n); [apply discreet_stopEditing|split; reflexivity].
  - apply removeNote_spec; exact H.
  - destruct (is_palette_key key); [|exact H].
    apply selection_ok_update_in; [apply discreet_changeNoteColor|exact H].
  - apply selection_ok_keyDown; exact H.
  - unfold globalKeyUpHandler.
    destruct (String.eqb key "t" || String.eqb key "T"); exact H.
  - exact H.
  - apply selection_ok_checkTransform; exact H.
  - apply selection_ok_clearAllNotes.
  - apply selection_ok_deserializeNotes; exact H.
Qed.

Lemma selection_ok_run (trace : list (Env * Event)) :
  forall st, selection_ok st ->
  selection_ok (run html_text layout_offset st trace).
Proof.
  induction trace as [|ee trace IH]; intros st H; [exact H|].
  cbn [run fold_left]. apply IH. apply selection_ok_step. exact H.
Qed.

End Selection.

Lemma selection_ok_initial : selection_ok initial_state.
Proof.
  unfold selection_ok, initial_state. simpl.
  split; [constructor|split; [constructor|split; [discriminate|]]].
  intros n [].
Qed.

(** C4. In every state the script reaches, the selection is a singleton
    that, when set, names a live note, and the class [selected] is on that
    note and on no other.  Selecting a live note [b], whatever was
    selected, leaves exactly [b] selected; removing the selected note
    clears the selection; removing another note leaves it unchanged; the
    bulk clear resets it.  Every event keeps this invariant. *)
Theorem selection_kept (html_text : string -> string)
    (layout_offset : Q -> Q) (trace : list (Env * Event)) :
  let st := run html_text layout_offset initial_state trace in
  selection_ok st /\
  (forall b, is_live b st = true ->
     selectedNoteId (selectNote b st) = Some b /\
     highlighted [b] (selectNote b st) /\
     selection_ok (selectNote b st)) /\
  (forall sel, selectedNoteId st = Some sel ->
     selectedNoteId (removeNote sel st) = None) /\
  (forall sel j, selectedNoteId st = Some sel -> j <> sel ->
     selectedNoteId (removeNote j st) = Some sel) /\
  (forall j, selection_ok (removeNote j st)) /\
  selectedNoteId (clearAllNotes st) = None /\
  selection_ok (clearAllNotes st).
Proof.
  intros st.
  assert (H : selection_ok st).
  { apply selection_ok_run. exact selection_ok_initial. }
  split; [exact H|]. split; [|split; [|split; [|split; [|split]]]].
  - intros b Hb. destruct (selectNote_spec b st H Hb) as (H1 & H2 & H3). auto.
  - intros sel Hsel. apply (removeNote_spec sel st H). exact Hsel.
  - intros sel j Hsel Hne.
    destruct (removeNote_spec j st H) as (_ & _ & Hkeep).
    rewrite Hkeep; [exact Hsel|]. rewrite Hsel. congruence.
  - intros j. apply (removeNote_spec j st H).
  - reflexivity.
  - apply selection_ok_clearAllNotes.
Qed.

(** ** Editing *)

Section Editing.

Variable html_text : string -> string.
Variable layout_offset : Q -> Q.

Lemma find_update_note (i j : Z) (f : Note -> Note) (l : list Note) :
  (forall n, id (f n) = id n) ->
  find_note i (update_note j f l)
  = if Z.eqb j i then option_map f (find_note i l) else find_note i l.
Proof.
  intros Hf. unfold find_note.
  induction l as [|n l IH]; simpl; [destruct (Z.eqb j i); reflexivity|].
  destruct (Z.eqb (id n) j) eqn:Ej; simpl.
  - apply Z.eqb_eq in Ej. rewrite Hf, Ej.
    destruct (Z.eqb j i); reflexivity.
  - rewrite IH. destruct (Z.eqb (id n) i) eqn:Ei; [|reflexivity].
    destruct (Z.eqb j i) eqn:Eji; [|reflexivity].
    apply Z.eqb_eq in Ei, Eji. apply Z.eqb_neq in Ej. congruence.
Qed.

Lemma stopEditing_id (n : Note) : id (stopEditing html_text n) = id n.
Proof. unfold stopEditing. destruct (isEditing n); reflexivity. Qed.

Lemma stopEditing_twice (n : Note) :
  stopEditing html_text (stopEditing html_text n) = stopEditing html_text n.
Proof.
  unfold stopEditing. destruct (isEditing n) eqn:E; simpl.
  - reflexivity.
  - rewrite E. reflexivity.
Qed.

(** What [stopEditing] does to a note that is being edited and shows the
    raw text [t]: it stores [t] and renders it. *)
Lemma stopEditing_commits (n : Note) (t : string) :
  isEditing n = true ->
  el_content (element n) = CText t ->
  text (stopEditing html_text n) = t /\
  isEditing (stopEditing html_text n) = false /\
  el_contentEditable (element (stopEditing html_text n)) = false /\
  el_content (element (stopEditing html_text n)) = CHtml (parseMarkdown t).
Proof.
  intros He Hc. unfold stopEditing. rewrite He. simpl. rewrite Hc. simpl.
  repeat split.
Qed.

Lemma find_stop (i j : Z) (st : State) :
  find_note i (stickyNotes (update_in j (stopEditing html_text) st))
  = if Z.eqb j i
    then option_map (stopEditing html_text) (find_note i (stickyNotes st))
    else find_note i (stickyNotes st).
Proof. apply find_update_note. exact stopEditing_id. Qed.

Lemma find_deselectAllNotes (i : Z) (st : State) (n : Note) :
  find_note i (stickyNotes st) = Some n ->
  selectedNoteId st <> Some i ->
  find_note i (stickyNotes (deselectAllNotes st)) = Some n.
Proof.
  intros Hf Hsel. unfold deselectAllNotes.
  destruct (selectedNoteId st) as [sel|]; [|exact Hf].
  cbn [stickyNotes set_selectedNoteId update_in set_stickyNotes].
  rewrite find_update_note; [|reflexivity].
  destruct (Z.eqb sel i) eqn:E; [|exact Hf].
  apply Z.eqb_eq in E. congruence.
Qed.

(** The Escape branch of the global handler leaves an edited note as it is
    or commits it, and commits it when it is the selected one. *)
Lemma escapeKey_find (i : Z) (st : State) (n : Note) :
  find_note i (stickyNotes st) = Some n ->
  isEditing n = true ->
  (find_note i (stickyNotes (escapeKey html_text st)) = Some n /\
   selectedNoteId st <> Some i) \/
  find_note i (stickyNotes (escapeKey html_text st))
  = Some (stopEditing html_text n).
Proof.
  intros Hf He. unfold escapeKey, getSelectedNote.
  destruct (selectedNoteId st) as [sel|] eqn:Hsel.
  - destruct (Z.eq_dec sel i) as [E|E].
    + subst sel. rewrite Hf, He. right. rewrite find_stop.
      destruct (find_note_some i _ n Hf) as (_ & Hid).
      rewrite Hid, Z.eqb_refl, Hf. reflexivity.
    + left. split; [|congruence].
      destruct (find_note sel (stickyNotes st)) as [sn|] eqn:Hsn.
      * destruct (isEditing sn).
        -- rewrite find_stop. apply find_note_some in Hsn.
           destruct Hsn as (_ & Hid). rewrite Hid.
           destruct (Z.eqb sel i) eqn:E'; [|exact Hf].
           apply Z.eqb_eq in E'. contradiction.
        -- apply find_deselectAllNotes; [exact Hf|congruence].
      * apply find_deselectAllNotes; [exact Hf|congruence].
  - left. split; [|discriminate].
    apply find_deselectAllNotes; [exact Hf|congruence].
Qed.

Lemma globalKeyDownHandler_Escape (env : Env) (ctrl : bool) (focus : Focus)
    (st : State) :
  globalKeyDownHandler html_text env "Escape" ctrl focus st
  = (escapeKey html_text st, false).
Proof. unfold globalKeyDownHandler, on_key. destruct ctrl; reflexivity. Qed.

Lemma globalKeyDownHandler_Enter (env : Env) (ctrl : bool) (focus : Focus)
    (st : State) :
  globalKeyDownHandler html_text env "Enter" ctrl focus st = (st, false).
Proof. unfold globalKeyDownHandler, on_key. destruct ctrl; reflexivity. Qed.

Lemma keyDown_Enter_find (env : Env) (ctrl : bool) (i : Z) (st : State)
    (n : Note) :
  find_note i (stickyNotes st) = Some n ->
  find_note i
    (stickyNotes
       (keyDown html_text env "Enter" ctrl false (FocusContent i) st))
  = Some (stopEditing html_text n).
Proof.
  intros Hf. unfold keyDown. rewrite globalKeyDownHandler_Enter.
  unfold contentKeyDownHandler. simpl String.eqb. cbv iota. simpl andb.
  cbv iota. rewrite find_stop, Z.eqb_refl, Hf. reflexivity.
Qed.

Lemma keyDown_Escape_find (env : Env) (ctrl shift : bool) (focus : Focus)
    (i : Z) (st : State) (n : Note) :
  find_note i (stickyNotes st) = Some n ->
  isEditing n = true ->
  focus = FocusContent i \/ selectedNoteId st = Some i ->
  find_note i
    (stickyNotes (keyDown html_text env "Escape" ctrl shift focus st))
  = Some (stopEditing html_text n).
Proof.
  intros Hf He Hfocus. unfold keyDown. rewrite globalKeyDownHandler_Escape.
  assert (Hc : forall j,
             find_note i (stickyNotes (escapeKey html_text st))
             = Some (stopEditing html_text n) ->
             find_note i
               (stickyNotes
                  (contentKeyDownHandler html_text "Escape" shift j
                     (escapeKey html_text st)))
             = Some (stopEditing html_text n)).
  { intros j Hj. unfold contentKeyDownHandler. simpl String.eqb. cbv iota.
    simpl andb. cbv iota. rewrite find_stop, Hj.
    destruct (Z.eqb j i); [|reflexivity].
    simpl. rewrite stopEditing_twice. reflexivity. }
  destruct (escapeKey_find i st n Hf He) as [(Hkeep & Hsel)|Hdone].
  - destruct Hfocus as [Hfocus|Hfocus]; [|contradiction]. subst focus.
    unfold contentKeyDownHandler. simpl String.eqb. cbv iota. simpl andb.
    cbv iota. rewrite find_stop, Z.eqb_refl, Hkeep. reflexivity.
  - destruct focus; auto.
Qed.

End Editing.

(** C10. Pressing Escape while a note is being edited (with the focus in
    its content area, or with the note selected) commits: the text the
    content area shows becomes the note's [text], the note leaves the
    editing state and the text is rendered.  The note ends exactly as the
    Enter key leaves it; no earlier text is restored. *)
Theorem escape_commits_like_enter (html_text : string -> string)
    (layout_offset : Q -> Q) (env : Env) (ctrl shift : bool) (focus : Focus)
    (st : State) (i : Z) (n : Note) (t : string) :
  find_note i (stickyNotes st) = Some n ->
  isEditing n = true ->
  el_content (element n) = CText t ->
  focus = FocusContent i \/ selectedNoteId st = Some i ->
  let escaped :=
    step html_text layout_offset env st (KeyDown "Escape" ctrl shift focus) in
  let entered :=
    step html_text layout_offset env st
      (KeyDown "Enter" false false (FocusContent i)) in
  exists n',
    find_note i (stickyNotes escaped) = Some n' /\
    find_note i (stickyNotes entered) = Some n' /\
    n' = stopEditing html_text n /\
    text n' = t /\
    isEditing n' = false /\
    el_content (element n') = CHtml (parseMarkdown t).
Proof.
  intros Hf He Hc Hfocus escaped entered.
  exists (stopEditing html_text n).
  destruct (stopEditing_commits html_text n t He Hc) as (H1 & H2 & _ & H4).
  split; [|split; [|split; [reflexivity|split; [exact H1|split; assumption]]]].
  - apply keyDown_Escape_find; assumption.
  - apply keyDown_Enter_find; assumption.
Qed.

Lemma escape_commits_like_enter_witness :
  find_note 1 (stickyNotes editing_state) = Some editing_note /\
  isEditing editing_note = true /\
  el_content (element editing_note) = CText "**bold**" /\
  exists n',
    find_note 1
      (stickyNotes
         (step (fun h => h) (fun q => q) sample_env editing_state
            (KeyDown "Escape" false false (FocusContent 1)))) = Some n' /\
    find_note 1
      (stickyNotes
         (step (fun h => h) (fun q => q) sample_env editing_state
            (KeyDown "Enter" false false (FocusContent 1)))) = Some n' /\
    n' = stopEditing (fun h => h) editing_note /\
    text n' = "**bold**" /\
    isEditing n' = false /\
    el_content (element n') = CHtml (parseMarkdown "**bold**").
Proof.
  assert (Hf : find_note 1 (stickyNotes editing_state) = Some editing_note)
    by (vm_compute; reflexivity).
  assert (He : isEditing editing_note = true) by reflexivity.
  assert (Hc : el_content (element editing_note) = CText "**bold**")
    by reflexivity.
  split; [exact Hf|]. split; [exact He|]. split; [exact Hc|].
  exact (escape_commits_like_enter (fun h => h) (fun q => q) sample_env
           false false (FocusContent 1) editing_state 1 editing_note
           "**bold**" Hf He Hc (or_introl eq_refl)).
Defined.

(** ** The renderer: escaping *)

Lemma ltb_tail {A : Type} (x : A) (s : list A) :
  (List.length s <? List.length (x :: s))%nat = true.
Proof. apply Nat.ltb_lt. simpl. lia. Qed.

(** Replacing one character globally is a character-wise substitution. *)
Lemma replace_from_char (c : ascii) (e : string) (s : str) :
  forall fuel prev,
  (List.length s < fuel)%nat ->
  replace_from fuel (RChar c) [TLit e] prev s
  = flat_map (fun x => if Ascii.eqb x c then list_ascii_of_string e else [x]) s.
Proof.
  induction s as [|x s IH]; intros fuel prev Hfuel;
    (destruct fuel as [|fuel]; [inversion Hfuel|]).
  - reflexivity.
  - cbn [replace_from flat_map]. unfold exec. cbn [rmatch].
    simpl in Hfuel.
    destruct (Ascii.eqb x c).
    + rewrite ltb_tail. cbn [expand capture]. rewrite app_nil_r.
      rewrite IH by lia. reflexivity.
    + rewrite IH by lia. reflexivity.
Qed.

Lemma replace_char (c : ascii) (e : string) (s : str) :
  replace (RChar c) [TLit e] s
  = flat_map (fun x => if Ascii.eqb x c then list_ascii_of_string e else [x]) s.
Proof. unfold replace. apply replace_from_char. lia. Qed.

Lemma flat_map_flat_map {A B C : Type} (f : A -> list B) (g : B -> list C)
    (l : list A) :
  flat_map g (flat_map f l) = flat_map (fun x => flat_map g (f x)) l.
Proof.
  induction l as [|a l IH]; simpl; [reflexivity|].
  rewrite flat_map_app, IH. reflexivity.
Qed.

(** The three escaping stages together replace each of [&], [<] and [>] by
    its entity, and nothing else. *)
Lemma escape_stages_spec (s : str) :
  run_stages escape_stages s = escapeHtml s.
Proof.
  unfold run_stages, escape_stages. cbn [fold_left fst snd].
  rewrite !replace_char, !flat_map_flat_map. unfold escapeHtml.
  apply flat_map_ext. intros x. unfold escape_char.
  destruct (Ascii.eqb x "&") eqn:E1; [reflexivity|].
  cbn [flat_map]. rewrite app_nil_r.
  destruct (Ascii.eqb x "<") eqn:E2; [reflexivity|].
  cbn [flat_map]. rewrite app_nil_r.
  destruct (Ascii.eqb x ">"); reflexivity.
Qed.

Lemma well_escaped_char (c : ascii) (s : str) :
  well_escaped (escape_char c ++ s) = well_escaped s.
Proof.
  unfold escape_char.
  destruct (Ascii.eqb c "&") eqn:E1; [reflexivity|].
  destruct (Ascii.eqb c "<") eqn:E2; [reflexivity|].
  destruct (Ascii.eqb c ">") eqn:E3; [reflexivity|].
  cbn [app well_escaped]. rewrite E1, E2, E3. reflexivity.
Qed.

Lemma well_escaped_escapeHtml (s : str) : well_escaped (escapeHtml s) = true.
Proof.
  induction s as [|c s IH]; [reflexivity|].
  unfold escapeHtml. cbn [flat_map]. rewrite well_escaped_char. exact IH.
Qed.

Lemma parseMarkdown_after_escape (text : string) :
  text <> "" ->
  parseMarkdown text
  = string_of_list_ascii (after_escape (escapeHtml (list_ascii_of_string text))).
Proof.
  intros H. unfold parseMarkdown, after_escape.
  destruct text; [contradiction|]. rewrite escape_stages_spec. reflexivity.
Qed.

(** ** The matcher and its declarative reading *)

Lemma or_else_some (a b : option result) (res : result) :
  or_else a b = Some res -> a = Some res \/ b = Some res.
Proof. destruct a; simpl; auto. Qed.

Lemma rep_sound (body : matcher) (r : regex) (g : bool) :
  (forall prev s cs k res,
      body prev s cs k = Some res ->
      exists c', matches r (prev, s, cs) c' /\ result_cont k c' = Some res) ->
  forall fuel min prev s cs k res,
    rep body g fuel min prev s cs k = Some res ->
    exists c', matches (RRep g min r) (prev, s, cs) c' /\
               result_cont k c' = Some res.
Proof.
  intros Hbody. induction fuel as [|fuel IH]; intros min prev s cs k res H;
    [discriminate|].
  cbn [rep] in H.
  assert (Hmore :
    body prev s cs
      (fun prev' s' cs' =>
         if (List.length s' <? List.length s)%nat
         then rep body g fuel (Nat.pred min) prev' s' cs' k else None)
    = Some res ->
    exists c', matches (RRep g min r) (prev, s, cs) c' /\
               result_cont k c' = Some res).
  { intros Hm. apply Hbody in Hm. destruct Hm as ([[p1 s1] cs1] & Hm1 & Hk).
    simpl in Hk. destruct (List.length s1 <? List.length s)%nat; [|discriminate].
    apply IH in Hk. destruct Hk as (c' & Hm2 & Hk).
    exists c'. split; [|exact Hk]. eapply M_rep_more; eassumption. }
  assert (Hdone : min = O -> k prev s cs = Some res ->
    exists c', matches (RRep g min r) (prev, s, cs) c' /\
               result_cont k c' = Some res).
  { intros -> Hk. exists (prev, s, cs). split; [apply M_rep_done|exact Hk]. }
  destruct min as [|min]; [|auto].
  destruct g; apply or_else_some in H; destruct H; auto.
Qed.

Lemma rmatch_sound (r : regex) :
  forall prev s cs k res,
    rmatch r prev s cs k = Some res ->
    exists c', matches r (prev, s, cs) c' /\ result_cont k c' = Some res.
Proof.
  induction r as [|c|p| | |r1 IH1 r2 IH2|g min r IH|r IH|n r IH];
    intros prev s cs k res H; cbn [rmatch] in H.
  - exists (prev, s, cs). split; [constructor|exact H].
  - destruct s as [|x s]; [discriminate|].
    destruct (Ascii.eqb x c) eqn:E; [|discriminate].
    apply Ascii.eqb_eq in E. subst x.
    exists (Some c, s, cs). split; [constructor|exact H].
  - destruct s as [|x s]; [discriminate|].
    destruct (p x) eqn:E; [|discriminate].
    exists (Some x, s, cs). split; [constructor; exact E|exact H].
  - destruct (at_bol prev) eqn:E; [|discriminate].
    exists (prev, s, cs). split; [constructor; exact E|exact H].
  - destruct (at_eol s) eqn:E; [|discriminate].
    exists (prev, s, cs). split; [constructor; exact E|exact H].
  - apply IH1 in H. destruct H as ([[p1 s1] cs1] & Hm1 & Hk). simpl in Hk.
    apply IH2 in Hk. destruct Hk as (c2 & Hm2 & Hk).
    exists c2. split; [econstructor; eassumption|exact Hk].
  - eapply rep_sound; [exact IH|exact H].
  - apply or_else_some in H. destruct H as [H|H].
    + apply IH in H. destruct H as (c' & Hm & Hk).
      exists c'. split; [constructor; exact Hm|exact Hk].
    + exists (prev, s, cs). split; [apply M_opt_none|exact H].
  - apply IH in H. destruct H as ([[p1 s1] cs1] & Hm & Hk). simpl in Hk.
    eexists. split; [apply M_group; exact Hm|exact Hk].
Qed.

Lemma exec_sound (r : regex) (prev : option ascii) (s : str) (res : result) :
  exec r prev s = Some res -> matches r (prev, s, []) res.
Proof.
  unfold exec. intros H. apply rmatch_sound in H.
  destruct H as ([[p1 s1] cs1] & Hm & Hk). simpl in Hk.
  inversion Hk; subst. exact Hm.
Qed.

Lemma last_opt_app (prev : option ascii) (a b : str) :
  last_opt prev (a ++ b) = last_opt (last_opt prev a) b.
Proof. revert prev. induction a as [|x a IH]; intros prev; simpl; auto. Qed.

(** A match consumes a prefix of the text. *)
Lemma matches_consumes (r : regex) (c c' : result) :
  matches r c c' ->
  exists m, snd (fst c) = m ++ snd (fst c') /\
            fst (fst c') = last_opt (fst (fst c)) m.
Proof.
  induction 1 as [c|x prev s cs|p x prev s cs Hp|prev s cs Hb|prev s cs He
                 |r1 r2 c c1 c2 H1 IH1 H2 IH2|g r c
                 |g min r c c1 c2 H1 IH1 H2 IH2|r c c' H IH|r c
                 |n r prev s cs prev' s' cs' H IH]; simpl in *;
    try (exists []; split; reflexivity);
    try (exists [x]; split; reflexivity);
    try exact IH.
  - destruct IH1 as (m1 & E1 & P1), IH2 as (m2 & E2 & P2).
    exists (m1 ++ m2). rewrite <- app_assoc, <- E2, <- E1, last_opt_app, <- P1.
    auto.
  - destruct IH1 as (m1 & E1 & P1), IH2 as (m2 & E2 & P2).
    exists (m1 ++ m2). rewrite <- app_assoc, <- E2, <- E1, last_opt_app, <- P1.
    auto.
Qed.

(** ** Soundness of the static checks *)

Lemma in_all_ascii (c : ascii) : In c all_ascii.
Proof.
  unfold all_ascii. rewrite <- (ascii_nat_embedding c). apply in_map.
  apply in_seq. pose proof (nat_ascii_bounded c). lia.
Qed.

Lemma class_avoids_sound (bad p : ascii -> bool) (x : ascii) :
  class_avoids bad p = true -> p x = true -> bad x = false.
Proof.
  unfold class_avoids. rewrite forallb_forall. intros H Hp.
  specialize (H x (in_all_ascii x)). rewrite Hp in H. simpl in H.
  destruct (bad x); [discriminate|reflexivity].
Qed.

Lemma begins_bol_sound (r : regex) (c c' : result) :
  matches r c c' -> begins_bol r = true -> at_bol (fst (fst c)) = true.
Proof.
  induction 1; simpl; intros Hb; try discriminate; auto.
Qed.

Lemma ends_eol_sound (r : regex) (c c' : result) :
  matches r c c' -> ends_eol r = true -> at_eol (snd (fst c')) = true.
Proof.
  induction 1; simpl; intros Hb; try discriminate; auto.
Qed.

(** A repetition ends where it started or where its last iteration
    ended. *)
Lemma last_char_sound (r : regex) (c c' : result) :
  matches r c c' ->
  forall d,
    (last_char r = Some d -> fst (fst c') = Some d) /\
    (forall g n a, r = RRep g n a -> last_char a = Some d ->
       c' = c \/ fst (fst c') = Some d).
Proof.
  induction 1 as [c|x prev s cs|p x prev s cs Hp|prev s cs Hb|prev s cs He
                 |r1 r2 c c1 c2 H1 IH1 H2 IH2|g r c
                 |g min r c c1 c2 H1 IH1 H2 IH2|r c c' H IH|r c
                 |n r prev s cs prev' s' cs' H IH];
    intros d; (split; [cbn [last_char]; intros Hl|intros g' n' a' E Ha]);
    try discriminate; simpl in *.
  - inversion Hl; reflexivity.
  - apply (IH2 d). exact Hl.
  - inversion E; subst. left. reflexivity.
  - destruct min as [|min]; [discriminate|].
    destruct (proj2 (IH2 d) g min r eq_refl Hl) as [E|E].
    + subst c2. apply (IH1 d). exact Hl.
    + exact E.
  - inversion E; subst. right.
    destruct (proj2 (IH2 d) g' (Nat.pred n') a' eq_refl Ha) as [E'|E'].
    + subst c2. apply (IH1 d). exact Ha.
    + exact E'.
  - apply (IH d) in Hl. exact Hl.
Qed.

Lemma no_groups_caps (r : regex) (c c' : result) :
  matches r c c' -> no_groups r = true -> snd c' = snd c.
Proof.
  induction 1 as [c|x prev s cs|p x prev s cs Hp|prev s cs Hb|prev s cs He
                 |r1 r2 c c1 c2 H1 IH1 H2 IH2|g r c
                 |g min r c c1 c2 H1 IH1 H2 IH2|r c c' H IH|r c
                 |n r prev s cs prev' s' cs' H IH];
    cbn [no_groups]; intros Hn; try reflexivity; try discriminate.
  - apply andb_prop in Hn. destruct Hn as (Ha & Hb).
    rewrite (IH2 Hb). apply IH1. exact Ha.
  - rewrite (IH2 Hn). apply IH1. exact Hn.
  - apply IH. exact Hn.
Qed.

Lemma prefix_app (t x b : str) :
  prefix t x = true -> prefix t (x ++ b) = true.
Proof.
  revert x. induction t as [|a t IH]; intros x H; [reflexivity|].
  destruct x as [|c x]; [discriminate|]. simpl in *.
  apply andb_prop in H. destruct H as (H1 & H2).
  rewrite H1, (IH x H2). reflexivity.
Qed.

Lemma prefix_split (t x b : str) :
  prefix t (x ++ b) = true ->
  prefix t x = true \/
  exists h t2, t = x ++ h :: t2 /\ prefix (h :: t2) b = true.
Proof.
  revert t. induction x as [|c x IH]; intros t H.
  - destruct t as [|h t2]; [left; reflexivity|]. right. exists h, t2. auto.
  - destruct t as [|a t]; [left; reflexivity|]. simpl in H.
    apply andb_prop in H. destruct H as (H1 & H2).
    apply Ascii.eqb_eq in H1. subst a.
    destruct (IH t H2) as [Hp|(h & t2 & E & Hp)].
    + left. simpl. rewrite Ascii.eqb_refl. exact Hp.
    + right. exists h, t2. subst t. auto.
Qed.

Lemma prefix_eq (t s : str) :
  prefix t s = true -> exists s2, s = t ++ s2.
Proof.
  revert s. induction t as [|a t IH]; intros s H; [exists s; reflexivity|].
  destruct s as [|c s]; [discriminate|]. simpl in H.
  apply andb_prop in H. destruct H as (H1 & H2).
  apply Ascii.eqb_eq in H1. subst c.
  destruct (IH s H2) as (s2 & E). exists s2. subst s. reflexivity.
Qed.

Lemma prefix_refl_app (t s : str) : prefix t (t ++ s) = true.
Proof.
  induction t as [|a t IH]; [reflexivity|]. simpl.
  rewrite Ascii.eqb_refl. exact IH.
Qed.

Lemma last_opt_cons (p : option ascii) (c : ascii) (x : str) :
  x <> [] -> last_opt p (c :: x) = last_opt None x.
Proof.
  intros Hx. simpl. destruct x as [|d x]; [contradiction|]. reflexivity.
Qed.

Lemma last_opt_removelast (c : ascii) (x : str) (h : ascii) (t2 : str) :
  exists d, last_opt None (c :: x) = Some d /\
            In d (removelast ((c :: x) ++ h :: t2)).
Proof.
  rewrite removelast_app by discriminate.
  assert (H : exists d, last_opt None (c :: x) = Some d /\ In d (c :: x)).
  { simpl. generalize c. induction x as [|e x IH]; intros c0; simpl.
    - exists c0. auto.
    - destruct (IH e) as (d & Hd & Hin). exists d. auto. }
  destruct H as (d & Hd & Hin). exists d. split; [exact Hd|].
  apply in_or_app. left. exact Hin.
Qed.

Lemma last_opt_nonempty (p : option ascii) (m : str) :
  m <> [] -> last_opt p m = last_opt None m.
Proof. destruct m as [|c m]; [contradiction|reflexivity]. Qed.

Lemma firstn_consumed (m s' : str) :
  firstn (List.length (m ++ s') - List.length s') (m ++ s') = m.
Proof.
  rewrite length_app, Nat.add_sub.
  rewrite firstn_app, Nat.sub_diag, firstn_all. simpl. apply app_nil_r.
Qed.

Lemma capture_ok (ok : str -> bool) (n : nat) (cs : caps) :
  ok [] = true -> caps_ok ok cs -> ok (capture n cs) = true.
Proof.
  intros Hnil. induction 1 as [|[k v] cs Hv Hcs IH]; simpl; [exact Hnil|].
  destruct (Nat.eqb k n); [exact Hv|exact IH].
Qed.

(** A template whose literal runs pass a check that concatenation keeps
    expands to a text that passes it, when the captures do. *)
Lemma runs_ok_sound (ok : str -> bool) (cs : caps) :
  ok [] = true ->
  (forall a b, ok a = true -> ok b = true -> ok (a ++ b) = true) ->
  caps_ok ok cs ->
  forall t acc, runs_ok ok t acc = true -> ok (acc ++ expand t cs) = true.
Proof.
  intros Hnil Happ Hc. induction t as [|pc t IH]; intros acc H.
  - simpl. rewrite app_nil_r. exact H.
  - destruct pc as [w|n]; cbn [runs_ok expand] in *.
    + rewrite app_assoc. apply IH. exact H.
    + apply andb_prop in H. destruct H as (H1 & H2).
      apply Happ; [exact H1|]. apply Happ; [apply capture_ok; assumption|].
      apply (IH [] H2).
Qed.

(** ** Texts whose marks start words *)

Section Words.

Variable mark : ascii.
Variable words : list str.

Lemma at_eol_next_ok (s : str) :
  negb (inner words LF) && negb (inner words CR) = true ->
  at_eol s = true -> next_ok words s = true.
Proof.
  intros Hi. apply andb_prop in Hi. destruct Hi as (H1 & H2).
  destruct s as [|c s]; [reflexivity|]. cbn [at_eol next_ok].
  unfold is_line_terminator. intros Hc.
  apply orb_prop in Hc. destruct Hc as [Hc|Hc];
    apply Ascii.eqb_eq in Hc; subst c; assumption.
Qed.

Lemma at_bol_prev_ok (prev : option ascii) :
  negb (nonlast words LF) && negb (nonlast words CR) = true ->
  at_bol prev = true -> prev_ok words prev = true.
Proof.
  intros Hi. apply andb_prop in Hi. destruct Hi as (H1 & H2).
  destruct prev as [c|]; [|reflexivity]. cbn [at_bol prev_ok].
  unfold is_line_terminator. intros Hc.
  apply orb_prop in Hc. destruct Hc as [Hc|Hc];
    apply Ascii.eqb_eq in Hc; subst c; assumption.
Qed.

Lemma starts_sound (r : regex) (c c' : result) :
  matches r c c' ->
  forall k,
    starts_ok words r k = true ->
    (k = true -> next_ok words (snd (fst c')) = true) ->
    next_ok words (snd (fst c)) = true.
Proof.
  induction 1 as [c|x prev s cs|p x prev s cs Hp|prev s cs Hb|prev s cs He
                 |r1 r2 c c1 c2 H1 IH1 H2 IH2|g r c
                 |g min r c c1 c2 H1 IH1 H2 IH2|r c c' H IH|r c
                 |n r prev s cs prev' s' cs' H IH];
    intros k Hs Hk; cbn [starts_ok] in Hs; simpl in *.
  - auto.
  - exact Hs.
  - rewrite (class_avoids_sound _ p x Hs Hp). reflexivity.
  - auto.
  - apply at_eol_next_ok; assumption.
  - apply (IH1 (starts_ok words r2 k) Hs). intros Hk2. apply (IH2 k Hk2 Hk).
  - apply andb_prop in Hs. apply Hk. apply Hs.
  - assert (Ha : starts_ok words r false = true).
    { destruct min; [apply andb_prop in Hs; apply Hs|exact Hs]. }
    apply (IH1 false Ha). discriminate.
  - apply andb_prop in Hs. apply (IH false (proj1 Hs)). discriminate.
  - apply andb_prop in Hs. apply Hk. apply Hs.
  - apply (IH k Hs Hk).
Qed.

Lemma finishes_sound (r : regex) (c c' : result) :
  matches r c c' ->
  forall k,
    finishes words r k = true ->
    (k = true -> prev_ok words (fst (fst c)) = true) ->
    prev_ok words (fst (fst c')) = true.
Proof.
  induction 1 as [c|x prev s cs|p x prev s cs Hp|prev s cs Hb|prev s cs He
                 |r1 r2 c c1 c2 H1 IH1 H2 IH2|g r c
                 |g min r c c1 c2 H1 IH1 H2 IH2|r c c' H IH|r c
                 |n r prev s cs prev' s' cs' H IH];
    intros k Hs Hk; cbn [finishes] in Hs; simpl in *.
  - auto.
  - exact Hs.
  - rewrite (class_avoids_sound _ p x Hs Hp). reflexivity.
  - apply at_bol_prev_ok; assumption.
  - auto.
  - apply (IH2 (finishes words r1 k) Hs). intros Hk1. apply (IH1 k Hk1 Hk).
  - apply andb_prop in Hs. apply Hk. apply Hs.
  - assert (Ha : finishes words r false = true).
    { destruct min; [apply andb_prop in Hs; apply Hs|exact Hs]. }
    apply (IH2 true).
    + destruct (Nat.pred min); cbn [finishes]; rewrite Ha; reflexivity.
    + intros _. apply (IH1 false Ha). discriminate.
  - apply andb_prop in Hs. apply (IH false (proj1 Hs)). discriminate.
  - apply andb_prop in Hs. apply Hk. apply Hs.
  - apply (IH k Hs Hk).
Qed.

Lemma starts_word_app (x b : str) :
  starts_word words x = true -> starts_word words (x ++ b) = true.
Proof.
  unfold starts_word. rewrite !existsb_exists.
  intros (t & Ht & Hp). exists t. split; [exact Ht|apply prefix_app; exact Hp].
Qed.

Lemma marked_app (a b : str) :
  marked mark words a = true -> marked mark words b = true ->
  marked mark words (a ++ b) = true.
Proof.
  intros Ha Hb. induction a as [|c a IH]; [exact Hb|].
  cbn [app marked] in *. apply andb_prop in Ha. destruct Ha as (H1 & H2).
  rewrite (IH H2), andb_true_r.
  destruct (Ascii.eqb c mark); [|reflexivity].
  apply (starts_word_app (c :: a) b). exact H1.
Qed.

Lemma marked_suffix (a b : str) :
  marked mark words (a ++ b) = true -> marked mark words b = true.
Proof.
  induction a as [|c a IH]; [auto|]. cbn [app marked]. intros H.
  apply andb_prop in H. apply IH. apply H.
Qed.

(** A position inside a word is not a valid cut. *)
Lemma word_cut (t : str) (c : ascii) (x : str) (h : ascii) (t2 b : str) :
  In t words -> t = (c :: x) ++ h :: t2 ->
  cut_ok words (last_opt None (c :: x)) (h :: b) = false.
Proof.
  intros Ht E. unfold cut_ok. cbn [next_ok].
  assert (Hi : inner words h = true).
  { unfold inner. apply existsb_exists. exists h.
    split; [|apply Ascii.eqb_refl].
    apply in_concat. exists (tl t). split; [apply in_map; exact Ht|].
    subst t. simpl. apply in_or_app. right. left. reflexivity. }
  destruct (last_opt_removelast c x h t2) as (d & Hd & Hin).
  assert (Hn : nonlast words d = true).
  { unfold nonlast. apply existsb_exists. exists d.
    split; [|apply Ascii.eqb_refl].
    apply in_concat. exists (removelast t).
    split; [apply in_map; exact Ht|]. subst t. exact Hin. }
  rewrite Hi, Hd. simpl. rewrite Hn. reflexivity.
Qed.

(** A text cut at a valid position keeps the property on the left. *)
Lemma marked_cut (x b : str) :
  marked mark words (x ++ b) = true ->
  cut_ok words (last_opt None x) b = true ->
  marked mark words x = true.
Proof.
  induction x as [|c x IH]; [reflexivity|]. intros H Hcut.
  cbn [app marked] in H. apply andb_prop in H. destruct H as (H1 & H2).
  cbn [marked]. apply andb_true_intro. split.
  - destruct (Ascii.eqb c mark); [|reflexivity].
    unfold starts_word in *. rewrite existsb_exists in *.
    destruct H1 as (t & Ht & Hp). exists t. split; [exact Ht|].
    change (c :: x ++ b) with ((c :: x) ++ b) in Hp.
    apply prefix_split in Hp. destruct Hp as [Hp|(h & t2 & E & Hp)];
      [exact Hp|].
    destruct b as [|h' b]; [discriminate|]. simpl in Hp.
    apply andb_prop in Hp. destruct Hp as (Hh & _).
    apply Ascii.eqb_eq in Hh. subst h'.
    rewrite (word_cut t c x h t2 b Ht E) in Hcut. discriminate.
  - destruct x as [|e x]; [reflexivity|].
    apply IH; [exact H2|].
    rewrite last_opt_cons in Hcut by discriminate. exact Hcut.
Qed.

(** [marked] decides [opens]. *)
Lemma marked_opens (s : str) :
  marked mark words s = true <-> opens mark words s.
Proof.
  split.
  - induction s as [|c s IH]; intros H a b E.
    + destruct a; discriminate.
    + cbn [marked] in H. apply andb_prop in H. destruct H as (H1 & H2).
      destruct a as [|c' a]; simpl in E; inversion E; subst.
      * rewrite Ascii.eqb_refl in H1. unfold starts_word in H1.
        apply existsb_exists in H1. destruct H1 as (w & Hw & Hp).
        apply prefix_eq in Hp. destruct Hp as (rest & Hp).
        exists w, rest. auto.
      * apply (IH H2 a b eq_refl).
  - induction s as [|c s IH]; intros H; [reflexivity|].
    cbn [marked]. apply andb_true_intro. split.
    + destruct (Ascii.eqb c mark) eqn:Ec; [|reflexivity].
      apply Ascii.eqb_eq in Ec. subst c.
      destruct (H [] s eq_refl) as (w & rest & Hw & E).
      unfold starts_word. apply existsb_exists. exists w.
      split; [exact Hw|]. rewrite E. apply prefix_refl_app.
    + apply IH. intros a b E. apply (H (c :: a) b). rewrite E. reflexivity.
Qed.

Lemma matches_marked (r : regex) (c c' : result) :
  matches r c c' ->
  marked mark words (snd (fst c)) = true ->
  marked mark words (snd (fst c')) = true.
Proof.
  intros H Ht. destruct (matches_consumes r c c' H) as (m & E & _).
  rewrite E in Ht. apply marked_suffix in Ht. exact Ht.
Qed.

(** Under [gsafe] every capture of a match in a text whose marks all start
    words is itself such a text. *)
Lemma gsafe_sound (r : regex) (c c' : result) :
  matches r c c' ->
  forall k,
    gsafe words r k = true ->
    (k = true -> next_ok words (snd (fst c')) = true) ->
    marked mark words (snd (fst c)) = true ->
    caps_ok (marked mark words) (snd c) ->
    caps_ok (marked mark words) (snd c').
Proof.
  induction 1 as [c|x prev s cs|p x prev s cs Hp|prev s cs Hb|prev s cs He
                 |r1 r2 c c1 c2 H1 IH1 H2 IH2|g r c
                 |g min r c c1 c2 H1 IH1 H2 IH2|r c c' H IH|r c
                 |n r prev s cs prev' s' cs' H IH];
    intros k Hg Hk Ht Hc; cbn [gsafe] in Hg; simpl in *; try exact Hc.
  - apply andb_prop in Hg. destruct Hg as (Hg1 & Hg2).
    apply (IH2 k Hg2 Hk).
    + apply (matches_marked r1 c c1 H1 Ht).
    + apply (IH1 (starts_ok words r2 k) Hg1); [|exact Ht|exact Hc].
      intros Hk2. apply (starts_sound r2 c1 c2 H2 k Hk2 Hk).
  - assert (E : snd c2 = snd c).
    { apply (no_groups_caps (RRep g min r)); [|exact Hg].
      eapply M_rep_more; eassumption. }
    rewrite E. exact Hc.
  - apply (IH k Hg Hk Ht Hc).
  - apply andb_prop in Hg. destruct Hg as (Hg1 & Hg2).
    constructor; [|apply (IH k Hg1 Hk Ht Hc)]. simpl.
    destruct (matches_consumes r _ _ H) as (m & E & P). simpl in E, P.
    subst s. rewrite firstn_consumed.
    destruct m as [|e m]; [reflexivity|].
    apply (marked_cut (e :: m) s' Ht). unfold cut_ok.
    destruct k; [rewrite (Hk eq_refl); reflexivity|].
    simpl in Hg2. unfold ends_ok in Hg2.
    destruct (last_char r) as [d|] eqn:El; [|discriminate].
    destruct (last_char_sound r _ _ H d) as (Hd & _).
    specialize (Hd El). simpl in Hd. rewrite Hd in P.
    rewrite (last_opt_nonempty prev (e :: m)) in P by discriminate.
    rewrite <- P. simpl. rewrite Hg2. apply orb_true_r.
Qed.

(** What a stage that passes [keeps_opening] guarantees at every match:
    the text copied since the last match and the expansion are texts
    whose marks start words, and so is the text after the match. *)
Lemma opening_step (st : stage) (p0 : option ascii) (chunk s : str)
    (res : result) :
  keeps_opening mark words st = true ->
  marked mark words (chunk ++ s) = true ->
  exec (fst st) (last_opt p0 chunk) s = Some res ->
  marked mark words (chunk ++ expand (snd st) (snd res)) = true /\
  marked mark words (snd (fst res)) = true.
Proof.
  unfold keeps_opening. intros Hok Hcs He.
  apply andb_prop in Hok. destruct Hok as (Hok & Htpl).
  apply andb_prop in Hok. destruct Hok as (Hg & Hs).
  apply exec_sound in He.
  assert (Ht : marked mark words s = true)
    by (apply (marked_suffix chunk); exact Hcs).
  split; [|apply (matches_marked _ _ _ He); exact Ht].
  apply marked_app.
  - destruct chunk as [|c chunk]; [reflexivity|].
    apply (marked_cut (c :: chunk) s Hcs). unfold cut_ok.
    apply orb_prop in Hs. destruct Hs as [Hs|Hs].
    + assert (Hn : next_ok words s = true)
        by (apply (starts_sound _ _ _ He false Hs); discriminate).
      rewrite Hn. reflexivity.
    + apply andb_prop in Hs. destruct Hs as (Hs & Hcr).
      apply andb_prop in Hs. destruct Hs as (Hs & Hlf).
      apply begins_bol_sound in He; [|exact Hs]. cbn [fst] in He.
      rewrite (last_opt_nonempty p0 (c :: chunk)) in He by discriminate.
      rewrite (at_bol_prev_ok _ (andb_true_intro (conj Hlf Hcr)) He).
      apply orb_true_r.
  - apply (runs_ok_sound (marked mark words) (snd res) eq_refl marked_app)
      with (acc := []); [|exact Htpl].
    apply (gsafe_sound _ _ _ He false Hg);
      [discriminate|exact Ht|constructor].
Qed.

End Words.

(** ** Texts whose marks end words *)

Section Closing.

Variable mark : ascii.
Variable words : list str.

Lemma closed_app (a b : str) :
  closed mark words a = true -> closed mark words b = true ->
  closed mark words (a ++ b) = true.
Proof.
  unfold closed. intros Ha Hb. rewrite rev_app_distr.
  apply marked_app; assumption.
Qed.

Lemma closed_prefix (a b : str) :
  closed mark words (a ++ b) = true -> closed mark words a = true.
Proof.
  unfold closed. rewrite rev_app_distr. apply marked_suffix.
Qed.

(** [closed] decides [closes]. *)
Lemma closed_closes (s : str) :
  closed mark words s = true <-> closes mark words s.
Proof.
  unfold closed. rewrite marked_opens. split.
  - intros H a b E.
    destruct (H (rev b) (rev a)) as (w' & rest & Hw & Hr).
    { rewrite E, rev_app_distr. simpl. rewrite <- app_assoc. reflexivity. }
    apply in_map_iff in Hw. destruct Hw as (w & <- & Hw).
    exists w, (rev rest). split; [exact Hw|].
    apply (f_equal (@rev ascii)) in Hr. simpl in Hr.
    rewrite rev_involutive, rev_app_distr, rev_involutive in Hr. exact Hr.
  - intros H a b E.
    destruct (H (rev b) (rev a)) as (w & before & Hw & Hr).
    { apply (f_equal (@rev ascii)) in E.
      rewrite rev_involutive, rev_app_distr in E. simpl in E.
      rewrite <- app_assoc in E. exact E. }
    exists (rev w), (rev before). split; [apply in_map; exact Hw|].
    apply (f_equal (@rev ascii)) in Hr.
    rewrite !rev_app_distr, rev_involutive in Hr. simpl in Hr. exact Hr.
Qed.

(** A text cut at a valid position keeps the property on the right. *)
Lemma closed_cut (x b : str) :
  closed mark words (x ++ b) = true ->
  cut_ok words (last_opt None x) b = true ->
  closed mark words b = true.
Proof.
  rewrite !closed_closes. intros H Hcut a b2 E. subst b.
  destruct (H (x ++ a) b2) as (w & before & Hw & E).
  { rewrite <- app_assoc. reflexivity. }
  rewrite <- app_assoc in E. apply app_eq_app in E.
  destruct E as (l & [(E1 & E2)|(E1 & E2)]).
  - destruct l as [|c l].
    + exists w, []. split; [exact Hw|]. rewrite E2. reflexivity.
    + exfalso. subst x.
      rewrite last_opt_app, (last_opt_nonempty _ (c :: l)) in Hcut
        by discriminate.
      destruct a as [|h a]; cbn [app] in E2, Hcut.
      * rewrite (word_cut words w c l mark [] b2 Hw E2) in Hcut.
        discriminate.
      * rewrite (word_cut words w c l h (a ++ [mark]) (a ++ mark :: b2)
                   Hw E2) in Hcut.
        discriminate.
  - exists w, l. split; [exact Hw|exact E2].
Qed.

Lemma matches_closed (r : regex) (c c' : result) (bf : str) :
  matches r c c' ->
  closed mark words (bf ++ snd (fst c)) = true ->
  exists m, snd (fst c) = m ++ snd (fst c') /\
            fst (fst c') = last_opt (fst (fst c)) m /\
            closed mark words (bf ++ m) = true.
Proof.
  intros H Ht. destruct (matches_consumes r c c' H) as (m & E & P).
  exists m. split; [exact E|]. split; [exact P|].
  rewrite E, app_assoc in Ht. apply closed_prefix in Ht. exact Ht.
Qed.

(** A part of a text that starts at a valid cut. *)
Lemma closed_part (p0 : option ascii) (bf m s' : str) (k : bool) :
  closed mark words (bf ++ m ++ s') = true ->
  (k = true -> prev_ok words (last_opt p0 bf) = true) ->
  (k = false -> next_ok words (m ++ s') = true) ->
  closed mark words m = true.
Proof.
  intros Ht Hp Hn. apply (closed_prefix m s').
  destruct bf as [|c bf]; [exact Ht|].
  apply (closed_cut (c :: bf)); [exact Ht|]. unfold cut_ok.
  destruct k.
  - rewrite (last_opt_nonempty p0 (c :: bf)) in Hp by discriminate.
    rewrite (Hp eq_refl). apply orb_true_r.
  - rewrite (Hn eq_refl). reflexivity.
Qed.

(** Under [gopen] every capture of a match in a text whose marks all end
    words is itself such a text; [bf] is the text before the match
    position. *)
Lemma gopen_sound (r : regex) (c c' : result) :
  matches r c c' ->
  forall k p0 bf,
    gopen words r k = true ->
    (k = true -> prev_ok words (fst (fst c)) = true) ->
    fst (fst c) = last_opt p0 bf ->
    closed mark words (bf ++ snd (fst c)) = true ->
    caps_ok (closed mark words) (snd c) ->
    caps_ok (closed mark words) (snd c').
Proof.
  induction 1 as [c|x prev s cs|p x prev s cs Hp|prev s cs Hb|prev s cs He
                 |r1 r2 c c1 c2 H1 IH1 H2 IH2|g r c
                 |g min r c c1 c2 H1 IH1 H2 IH2|r c c' H IH|r c
                 |n r prev s cs prev' s' cs' H IH];
    intros k p0 bf Hg Hk Hp0 Ht Hc; cbn [gopen] in Hg; simpl in *;
    try exact Hc.
  - apply andb_prop in Hg. destruct Hg as (Hg1 & Hg2).
    destruct (matches_consumes r1 c c1 H1) as (m & E & P).
    apply (IH2 (finishes words r1 k) p0 (bf ++ m) Hg2).
    + intros Hk1. apply (finishes_sound words r1 c c1 H1 k Hk1 Hk).
    + rewrite P, Hp0, last_opt_app. reflexivity.
    + rewrite <- app_assoc, <- E. exact Ht.
    + apply (IH1 k p0 bf Hg1 Hk Hp0 Ht Hc).
  - assert (E : snd c2 = snd c).
    { apply (no_groups_caps (RRep g min r)); [|exact Hg].
      eapply M_rep_more; eassumption. }
    rewrite E. exact Hc.
  - apply (IH k p0 bf Hg Hk Hp0 Ht Hc).
  - apply andb_prop in Hg. destruct Hg as (Hg1 & Hg2).
    constructor; [|apply (IH k p0 bf Hg1 Hk Hp0 Ht Hc)]. simpl.
    destruct (matches_consumes r _ _ H) as (m & E & P). simpl in E, P.
    subst s. rewrite firstn_consumed.
    apply (closed_part p0 bf m s' k Ht).
    + intros ->. rewrite <- Hp0. apply Hk. reflexivity.
    + intros ->. simpl in Hg2.
      apply (starts_sound words r _ _ H false Hg2). discriminate.
Qed.

(** What a stage that passes [keeps_closing] guarantees at every match. *)
Lemma closing_step (st : stage) (p0 : option ascii) (chunk s : str)
    (res : result) :
  keeps_closing mark words st = true ->
  closed mark words (chunk ++ s) = true ->
  exec (fst st) (last_opt p0 chunk) s = Some res ->
  closed mark words (chunk ++ expand (snd st) (snd res)) = true /\
  closed mark words (snd (fst res)) = true.
Proof.
  unfold keeps_closing. intros Hok Hcs He.
  apply andb_prop in Hok. destruct Hok as (Hok & Htpl).
  apply andb_prop in Hok. destruct Hok as (Hg & Hs).
  apply exec_sound in He.
  destruct (matches_consumes _ _ _ He) as (m & E & P). simpl in E, P.
  destruct res as [[p' s'] cs]. simpl in *. subst s. split.
  - apply closed_app; [apply (closed_prefix chunk (m ++ s')); exact Hcs|].
    apply (runs_ok_sound (closed mark words) cs eq_refl closed_app)
      with (acc := []); [|exact Htpl].
    apply (gopen_sound _ _ _ He false p0 chunk Hg);
      [discriminate|reflexivity|exact Hcs|constructor].
  - rewrite app_assoc in Hcs.
    destruct (chunk ++ m) as [|c x] eqn:Ex; [exact Hcs|].
    apply (closed_cut (c :: x)); [exact Hcs|]. unfold cut_ok.
    apply orb_prop in Hs. destruct Hs as [Hs|Hs].
    + assert (Hp : prev_ok words p' = true)
        by (apply (finishes_sound words _ _ _ He false Hs); discriminate).
      rewrite P, <- last_opt_app, Ex in Hp.
      rewrite (last_opt_nonempty p0 (c :: x)) in Hp by discriminate.
      rewrite Hp. apply orb_true_r.
    + apply andb_prop in Hs. destruct Hs as (Hs & Hcr).
      apply andb_prop in Hs. destruct Hs as (Hs & Hlf).
      apply ends_eol_sound in He; [|exact Hs]. simpl in He.
      rewrite (at_eol_next_ok words s' (andb_true_intro (conj Hlf Hcr)) He).
      reflexivity.
Qed.

End Closing.

(** ** The scan of a stage

    A property of texts that concatenation keeps goes through the scan of
    [replace] when, at every match, it holds of the text copied since the
    last match followed by the expansion, and of the text after the
    match. *)

Section Scan.

Variable ok : str -> bool.
Variable st : stage.

Hypothesis ok_app :
  forall a b, ok a = true -> ok b = true -> ok (a ++ b) = true.

Hypothesis step :
  forall p0 chunk s res,
    ok (chunk ++ s) = true ->
    exec (fst st) (last_opt p0 chunk) s = Some res ->
    ok (chunk ++ expand (snd st) (snd res)) = true /\
    ok (snd (fst res)) = true.

Lemma replace_from_keeps (n : nat) :
  forall s, (List.length s <= n)%nat ->
  forall fuel p0 done chunk,
    ok done = true ->
    ok (chunk ++ s) = true ->
    ok (done ++ chunk ++
        replace_from fuel (fst st) (snd st) (last_opt p0 chunk) s) = true.
Proof.
  induction n as [|n IH]; intros s Hn fuel p0 done chunk Hd Hs;
    (destruct fuel as [|fuel]; [apply ok_app; assumption|]);
    cbn [replace_from].
  - destruct s; [|inversion Hn].
    destruct (exec (fst st) (last_opt p0 chunk) []) as [[[p' s'] cs]|] eqn:He;
      [|apply ok_app; assumption].
    destruct (step _ _ _ _ Hs He) as (Hx & _). simpl.
    rewrite app_nil_r. apply ok_app; assumption.
  - assert (Hcopy :
      ok (done ++ chunk ++
          match s with
          | [] => []
          | c :: s1 => c :: replace_from fuel (fst st) (snd st) (Some c) s1
          end) = true).
    { destruct s as [|c s1]; [apply ok_app; assumption|].
      simpl in Hn.
      assert (E : Some c = last_opt p0 (chunk ++ [c]))
        by (rewrite last_opt_app; reflexivity).
      rewrite E.
      change (c :: replace_from fuel (fst st) (snd st)
                     (last_opt p0 (chunk ++ [c])) s1)
        with ([c] ++ replace_from fuel (fst st) (snd st)
                       (last_opt p0 (chunk ++ [c])) s1).
      rewrite (app_assoc chunk [c]).
      apply IH; [lia|exact Hd|]. rewrite <- app_assoc. exact Hs. }
    destruct (exec (fst st) (last_opt p0 chunk) s) as [[[p' s'] cs]|] eqn:He;
      [|exact Hcopy].
    destruct (step _ _ _ _ Hs He) as (Hx & Hs'). simpl in Hx, Hs'.
    rewrite (app_assoc chunk), (app_assoc done).
    assert (Hd' : ok (done ++ chunk ++ expand (snd st) cs) = true)
      by (apply ok_app; assumption).
    destruct (List.length s' <? List.length s)%nat eqn:El.
    + apply Nat.ltb_lt in El.
      apply (IH s' ltac:(lia) fuel p' _ [] Hd' Hs').
    + apply Nat.ltb_ge in El. apply exec_sound in He.
      destruct (matches_consumes _ _ _ He) as (m & E & _). simpl in E.
      assert (Em : m = []).
      { destruct m; [reflexivity|]. subst s. rewrite length_app in El.
        simpl in El. lia. }
      subst m. simpl in E. subst s'.
      destruct s as [|c s1]; [rewrite app_nil_r; exact Hd'|].
      simpl in Hn.
      apply (IH s1 ltac:(lia) fuel None _ [c] Hd' Hs').
Qed.

Lemma replace_keeps (s : str) :
  ok [] = true -> ok s = true -> ok (replace (fst st) (snd st) s) = true.
Proof.
  intros Hnil Hs. unfold replace.
  exact (replace_from_keeps (List.length s) s (le_n _)
           (S (List.length s)) None [] [] Hnil Hs).
Qed.

End Scan.

(** ** Every stage keeps the markup whole *)

Lemma run_stages_marked (mark : ascii) (words : list str)
    (stages : list stage) :
  forallb (keeps_opening mark words) stages = true ->
  forall s, marked mark words s = true ->
            marked mark words (run_stages stages s) = true.
Proof.
  unfold run_stages. induction stages as [|st stages IH]; intros Hok s Hs;
    [exact Hs|].
  cbn [forallb] in Hok. apply andb_prop in Hok. destruct Hok as (H1 & H2).
  cbn [fold_left]. apply (IH H2).
  apply replace_keeps; [apply marked_app| |reflexivity|exact Hs].
  intros p0 chunk s0 res. apply opening_step. exact H1.
Qed.

Lemma run_stages_closed (mark : ascii) (words : list str)
    (stages : list stage) :
  forallb (keeps_closing mark words) stages = true ->
  forall s, closed mark words s = true ->
            closed mark words (run_stages stages s) = true.
Proof.
  unfold run_stages. induction stages as [|st stages IH]; intros Hok s Hs;
    [exact Hs|].
  cbn [forallb] in Hok. apply andb_prop in Hok. destruct Hok as (H1 & H2).
  cbn [fold_left]. apply (IH H2).
  apply replace_keeps; [apply closed_app| |reflexivity|exact Hs].
  intros p0 chunk s0 res. apply closing_step. exact H1.
Qed.

Lemma run_stages_app (l1 l2 : list stage) (s : str) :
  run_stages (l1 ++ l2) s = run_stages l2 (run_stages l1 s).
Proof. unfold run_stages. apply fold_left_app. Qed.

Lemma after_escape_later (s : str) :
  after_escape s = run_stages later_stages s.
Proof.
  unfold after_escape, later_stages. rewrite !run_stages_app. reflexivity.
Qed.

(** The escaped text has its markup characters in place: it has no [<]
    and no [>], and its [&] start the entities. *)
Lemma well_escaped_marks (s : str) :
  well_escaped s = true ->
  tags_only s = true /\ entities_only s = true /\ closes ">" closers s.
Proof.
  unfold tags_only, entities_only.
  induction s as [|c s IH]; intros H.
  - split; [reflexivity|]. split; [reflexivity|].
    intros a b E. destruct a; discriminate.
  - cbn [well_escaped] in H. cbn [marked].
    destruct (Ascii.eqb c "<") eqn:Elt; [discriminate|].
    destruct (Ascii.eqb c ">") eqn:Egt; [discriminate|]. simpl in H.
    assert (Hs : well_escaped s = true).
    { destruct (Ascii.eqb c "&"); [|exact H].
      apply andb_prop in H. apply H. }
    destruct (IH Hs) as (I1 & I2 & I3). rewrite I1, I2.
    split; [reflexivity|]. split.
    + rewrite andb_true_r. destruct (Ascii.eqb c "&") eqn:Ea; [|reflexivity].
      apply Ascii.eqb_eq in Ea. subst c.
      apply andb_prop in H. destruct H as (H & _).
      change (starts_word entities ("&"%char :: s))
        with (prefix (list_ascii_of_string "amp;") s
              || (prefix (list_ascii_of_string "lt;") s
                  || (prefix (list_ascii_of_string "gt;") s || false))).
      rewrite orb_false_r, orb_assoc. exact H.
    + intros a b E. destruct a as [|c' a]; simpl in E; inversion E; subst.
      * rewrite Ascii.eqb_refl in Egt. discriminate.
      * destruct (I3 a b eq_refl) as (w & before & Hw & Eb).
        exists w, (c' :: before). split; [exact Hw|].
        simpl. rewrite Eb. reflexivity.
Qed.

(** In every rendering each [<] opens one of the renderer's tags, each
    [&] starts an entity, and each [>] closes one of the renderer's
    tags. *)
Lemma parseMarkdown_marks (text : string) :
  let html := list_ascii_of_string (parseMarkdown text) in
  tags_only html = true /\ entities_only html = true /\
  closed_only html = true.
Proof.
  destruct text as [|c text]; [repeat split; reflexivity|].
  cbv zeta. rewrite parseMarkdown_after_escape by discriminate.
  rewrite list_ascii_of_string_of_list_ascii, after_escape_later.
  destruct (well_escaped_marks _
              (well_escaped_escapeHtml (list_ascii_of_string (String c text))))
    as (H1 & H2 & H3).
  split; [|split].
  - apply run_stages_marked; [vm_compute; reflexivity|exact H1].
  - apply run_stages_marked; [vm_compute; reflexivity|exact H2].
  - apply run_stages_closed; [vm_compute; reflexivity|].
    apply closed_closes. exact H3.
Qed.

(** No text in which every [<] opens a tag of the renderer holds
    [<script]. *)
Lemma tags_only_no_script (s : str) :
  tags_only s = true ->
  occurrences_in (list_ascii_of_string "<script") s = 0%nat.
Proof.
  unfold tags_only.
  induction s as [|c s IH]; [reflexivity|]. intros H.
  cbn [occurrences_in].
  rewrite (IH (marked_suffix _ _ [c] s H)), Nat.add_0_r.
  destruct (prefix (list_ascii_of_string "<script") (c :: s)) eqn:Hp;
    [|reflexivity].
  apply prefix_eq in Hp. destruct Hp as (s2 & E). rewrite E in H.
  cbn [list_ascii_of_string app marked] in H.
  apply andb_prop in H. destruct H as (H & _).
  vm_compute in H. discriminate H.
Qed.



(** ** Running the scan on texts with plain parts *)

Lemma replace_from_fuel (r : regex) (t : template) (n : nat) :
  forall s, (List.length s <= n)%nat ->
  forall f1 f2 prev,
    (List.length s < f1)%nat -> (List.length s < f2)%nat ->
    replace_from f1 r t prev s = replace_from f2 r t prev s.
Proof.
  induction n as [|n IH]; intros s Hn f1 f2 prev H1 H2;
    (destruct f1 as [|f1]; [inversion H1|]);
    (destruct f2 as [|f2]; [inversion H2|]); cbn [replace_from].
  - destruct s; [|inversion Hn].
    destruct (exec r prev []) as [[[p' s'] cs]|]; reflexivity.
  - destruct s as [|c s1].
    + destruct (exec r prev []) as [[[p' s'] cs]|]; reflexivity.
    + simpl in Hn, H1, H2.
      assert (Hc : replace_from f1 r t (Some c) s1
                   = replace_from f2 r t (Some c) s1)
        by (apply IH; lia).
      destruct (exec r prev (c :: s1)) as [[[p' s'] cs]|].
      * destruct (List.length s' <? List.length (c :: s1))%nat eqn:El.
        -- apply Nat.ltb_lt in El. simpl in El. f_equal. apply IH; lia.
        -- rewrite Hc. reflexivity.
      * rewrite Hc. reflexivity.
Qed.

Lemma replace_is_replace_at (r : regex) (t : template) (s : str) :
  replace r t s = replace_at r t None s.
Proof. reflexivity. Qed.

Lemma replace_at_nil (r : regex) (t : template) (prev : option ascii) :
  exec r prev [] = None -> replace_at r t prev [] = [].
Proof. intros H. unfold replace_at. cbn [replace_from]. rewrite H. reflexivity. Qed.

Lemma replace_at_skip (r : regex) (t : template) (prev : option ascii)
    (c : ascii) (s : str) :
  exec r prev (c :: s) = None ->
  replace_at r t prev (c :: s) = c :: replace_at r t (Some c) s.
Proof.
  intros H. unfold replace_at. cbn [replace_from]. rewrite H. reflexivity.
Qed.

Lemma replace_from_match (r : regex) (t : template) (fuel : nat)
    (prev prev' : option ascii) (s s' : str) (cs : caps) :
  exec r prev s = Some (prev', s', cs) ->
  (List.length s' < List.length s)%nat ->
  replace_from (S fuel) r t prev s
  = expand t cs ++ replace_from fuel r t prev' s'.
Proof.
  intros H Hl. cbn [replace_from]. rewrite H.
  apply Nat.ltb_lt in Hl. rewrite Hl. reflexivity.
Qed.

Lemma replace_at_match (r : regex) (t : template) (prev prev' : option ascii)
    (s s' : str) (cs : caps) :
  exec r prev s = Some (prev', s', cs) ->
  (List.length s' < List.length s)%nat ->
  replace_at r t prev s = expand t cs ++ replace_at r t prev' s'.
Proof.
  intros H Hl. unfold replace_at.
  rewrite (replace_from_match r t _ prev prev' s s' cs H Hl). f_equal.
  apply (replace_from_fuel r t (List.length s')); lia.
Qed.

Lemma passive_matches (r : regex) (c c' : result) :
  matches r c c' -> passive r = true -> c' = c.
Proof.
  intros Hm Hp. destruct Hm; simpl in Hp; try discriminate; reflexivity.
Qed.

Lemma may_start_sound (r : regex) (c c' : result) :
  matches r c c' ->
  forall x s, snd (fst c) = x :: s -> may_start r x = true.
Proof.
  induction 1 as [c|x0 prev s0 cs|p x0 prev s0 cs Hp|prev s0 cs Hb|prev s0 cs He
                 |r1 r2 c c1 c2 H1 IH1 H2 IH2|g r c
                 |g min r c c1 c2 H1 IH1 H2 IH2|r c c' H IH|r c
                 |n r prev s0 cs prev' s' cs' H IH];
    intros x s E; cbn [may_start]; simpl in E; try reflexivity.
  - inversion E; subst. apply Ascii.eqb_refl.
  - inversion E; subst. exact Hp.
  - destruct (passive r1) eqn:Hpas.
    + apply (passive_matches r1 c c1 H1) in Hpas. subst c1.
      apply (IH2 x s E).
    + apply (IH1 x s E).
  - destruct min as [|min]; [reflexivity|]. apply (IH1 x s E).
  - apply (IH x s E).
Qed.

Lemma exec_plain (r : regex) (prev : option ascii) (c : ascii) (s : str) :
  skips_plain r = true -> plain c = true -> exec r prev (c :: s) = None.
Proof.
  intros Hr Hc. destruct (exec r prev (c :: s)) as [res|] eqn:He;
    [|reflexivity].
  apply exec_sound in He.
  pose proof (may_start_sound r _ _ He c s eq_refl) as Hm.
  unfold skips_plain in Hr. rewrite forallb_forall in Hr.
  specialize (Hr c (in_all_ascii c)). rewrite Hc, Hm in Hr. discriminate.
Qed.

(** A plain part is copied. *)
Lemma replace_at_plain (r : regex) (t : template) (a : str) :
  skips_plain r = true ->
  Forall (fun c => plain c = true) a ->
  forall prev s,
    replace_at r t prev (a ++ s) = a ++ replace_at r t (last_opt prev a) s.
Proof.
  intros Hr. induction 1 as [|c a Hc Ha IH]; intros prev s; [reflexivity|].
  cbn [app last_opt].
  rewrite replace_at_skip by (apply exec_plain; assumption).
  rewrite IH. reflexivity.
Qed.

(** *** Loops over a run of characters of the class *)

Lemma rmatch_class_hit (p : ascii -> bool) (prev : option ascii) (x : ascii)
    (s : str) (cs : caps) (k : cont) :
  p x = true -> rmatch (RClass p) prev (x :: s) cs k = k (Some x) s cs.
Proof. intros H. cbn [rmatch]. rewrite H. reflexivity. Qed.

Lemma rmatch_class_stop (p : ascii -> bool) (prev : option ascii) (s : str)
    (cs : caps) (k : cont) :
  match s with [] => true | c :: _ => negb (p c) end = true ->
  rmatch (RClass p) prev s cs k = None.
Proof.
  cbn [rmatch]. destruct s as [|c s]; [reflexivity|].
  destruct (p c); [discriminate|reflexivity].
Qed.

(** A greedy loop runs to the end of the run when the continuation
    succeeds there. *)
Lemma greedy_class (p : ascii -> bool) (a : str) :
  Forall (fun c => p c = true) a ->
  forall fuel min prev s cs k res,
    (List.length (a ++ s) < fuel)%nat ->
    (min <= List.length a)%nat ->
    match s with [] => true | c :: _ => negb (p c) end = true ->
    k (last_opt prev a) s cs = Some res ->
    rep (rmatch (RClass p)) true fuel min prev (a ++ s) cs k = Some res.
Proof.
  induction 1 as [|x a Hx Ha IH]; intros fuel min prev s cs k res Hf Hm Hs Hk;
    (destruct fuel as [|fuel]; [inversion Hf|]); cbn [rep app].
  - destruct min; [|inversion Hm].
    rewrite rmatch_class_stop by exact Hs. exact Hk.
  - rewrite rmatch_class_hit by exact Hx. rewrite ltb_tail.
    simpl in Hf, Hm.
    rewrite (IH fuel (Nat.pred min) (Some x) s cs k res); try assumption;
      try lia.
    destruct min; reflexivity.
Qed.

(** A lazy loop runs to the first position at which the continuation
    succeeds. *)
Lemma lazy_class (p : ascii -> bool) (a : str) :
  Forall (fun c => p c = true) a ->
  forall fuel min prev s cs k res,
    (List.length (a ++ s) < fuel)%nat ->
    (min <= List.length a)%nat ->
    (forall a1 x a2, a = a1 ++ x :: a2 ->
       k (last_opt prev a1) (x :: a2 ++ s) cs = None) ->
    k (last_opt prev a) s cs = Some res ->
    rep (rmatch (RClass p)) false fuel min prev (a ++ s) cs k = Some res.
Proof.
  induction 1 as [|x a Hx Ha IH]; intros fuel min prev s cs k res Hf Hm Hn Hk;
    (destruct fuel as [|fuel]; [inversion Hf|]); cbn [rep app].
  - destruct min; [|inversion Hm]. simpl in Hk. rewrite Hk. reflexivity.
  - rewrite rmatch_class_hit by exact Hx. rewrite ltb_tail.
    simpl in Hf, Hm.
    rewrite (IH fuel (Nat.pred min) (Some x) s cs k res); try assumption;
      try lia.
    + destruct min; [|reflexivity].
      pose proof (Hn [] x a eq_refl) as H0. cbn [last_opt] in H0.
      rewrite H0. reflexivity.
    + intros a1 y a2 E. apply (Hn (x :: a1) y a2). rewrite E. reflexivity.
Qed.

(** A literal run of characters matches itself. *)
Lemma rmatch_chars (w : str) :
  forall prev s cs k,
    rmatch (seq (map RChar w)) prev (w ++ s) cs k = k (last_opt prev w) s cs.
Proof.
  induction w as [|c w IH]; intros prev s cs k; [reflexivity|].
  destruct w as [|d w].
  - cbn [map seq rmatch app last_opt]. rewrite Ascii.eqb_refl. reflexivity.
  - change (seq (map RChar (c :: d :: w)))
      with (RSeq (RChar c) (seq (map RChar (d :: w)))).
    change ((c :: d :: w) ++ s) with (c :: ((d :: w) ++ s)).
    cbn [rmatch]. rewrite Ascii.eqb_refl.
    rewrite (IH (Some c) s cs k). reflexivity.
Qed.

(** It does not match a text that starts with another character. *)
Lemma rmatch_chars_miss (d : ascii) (w : str) (prev : option ascii)
    (x : ascii) (s : str) (cs : caps) (k : cont) :
  Ascii.eqb x d = false ->
  rmatch (seq (map RChar (d :: w))) prev (x :: s) cs k = None.
Proof.
  intros H. destruct w as [|e w].
  - cbn [map seq rmatch]. rewrite H. reflexivity.
  - change (seq (map RChar (d :: e :: w)))
      with (RSeq (RChar d) (seq (map RChar (e :: w)))).
    cbn [rmatch]. rewrite H. reflexivity.
Qed.

Lemma plain_not_special (x d : ascii) :
  plain x = true -> In d special_chars -> Ascii.eqb x d = false.
Proof.
  unfold plain. intros Hx Hd. destruct (Ascii.eqb x d) eqn:E; [|reflexivity].
  apply Ascii.eqb_eq in E. subst d.
  assert (H : existsb (Ascii.eqb x) special_chars = true).
  { apply existsb_exists. exists x. split; [exact Hd|apply Ascii.eqb_refl]. }
  rewrite H in Hx. discriminate.
Qed.

Lemma plain_dot (x : ascii) :
  plain x = true -> negb (is_line_terminator x) = true.
Proof.
  intros Hx. unfold is_line_terminator.
  rewrite (plain_not_special x LF Hx), (plain_not_special x CR Hx);
    [reflexivity| |]; unfold special_chars; apply in_or_app; right; simpl; auto.
Qed.

(** *** Matches of the rules on plain text *)

Lemma Forall_plain_dot (a : str) :
  Forall (fun c => plain c = true) a ->
  Forall (fun c => negb (is_line_terminator c) = true) a.
Proof. apply Forall_impl. exact plain_dot. Qed.

Lemma at_eol_dot_stop (s : str) :
  at_eol s = true ->
  match s with
  | [] => true
  | c :: _ => negb (negb (is_line_terminator c))
  end = true.
Proof. destruct s as [|c s]; simpl; [reflexivity|]. intros ->. reflexivity. Qed.

(** A line rule on a line [w ++ a] whose marker [w] the prefix pattern
    consumes and whose text [a] is plain. *)
Lemma exec_line_rule (pfx : regex) (open close : string) (w a s : str)
    (prev p1 : option ascii) :
  (forall s' cs k, rmatch pfx prev (w ++ s') cs k = k p1 s' cs) ->
  at_bol prev = true ->
  Forall (fun c => plain c = true) a -> a <> [] ->
  at_eol s = true ->
  exec (fst (line_rule pfx open close)) prev (w ++ a ++ s)
  = Some (last_opt p1 a, s, [(1%nat, a)]).
Proof.
  intros Hpfx Hbol Ha Hne Heol. unfold exec, line_rule. cbn [fst seq rmatch].
  rewrite Hbol, Hpfx. unfold plus, dot.
  apply (greedy_class (fun c => negb (is_line_terminator c)) a
           (Forall_plain_dot a Ha)).
  - lia.
  - destruct a; [contradiction|simpl; lia].
  - apply at_eol_dot_stop. exact Heol.
  - rewrite Heol. rewrite firstn_consumed. reflexivity.
Qed.

Local Abbreviation chars := list_ascii_of_string.

Lemma plain_lt (x : ascii) : plain x = true -> Ascii.eqb x "<" = false.
Proof. intros H. apply (plain_not_special x "<" H). vm_compute. tauto. Qed.

(** One list item with a plain text: the lazy loop stops at the first
    [</li>]. *)
Lemma rmatch_li_item (a s : str) (prev : option ascii) (cs : caps) (k : cont)
    (res : result) :
  Forall (fun c => plain c = true) a ->
  k (Some ">"%char) s cs = Some res ->
  rmatch li_item prev (chars "<li>" ++ a ++ chars "</li>" ++ s) cs k
  = Some res.
Proof.
  intros Ha Hk. unfold li_item. cbn [seq]. cbn [rmatch]. unfold lit.
  rewrite rmatch_chars. unfold star_lazy, dot.
  apply (lazy_class (fun c => negb (is_line_terminator c)) a
           (Forall_plain_dot a Ha)).
  - lia.
  - lia.
  - intros a1 x a2 E.
    assert (Hx : plain x = true).
    { rewrite Forall_forall in Ha. apply Ha. rewrite E.
      apply in_or_app. right. left. reflexivity. }
    apply rmatch_chars_miss. apply plain_lt. exact Hx.
  - rewrite rmatch_chars. exact Hk.
Qed.

Lemma exec_none_bol (r : regex) (prev : option ascii) (s : str) :
  begins_bol r = true -> at_bol prev = false -> exec r prev s = None.
Proof.
  intros Hr Hp. destruct (exec r prev s) as [res|] eqn:He; [|reflexivity].
  apply exec_sound in He. apply begins_bol_sound in He; [|exact Hr].
  simpl in He. congruence.
Qed.

Lemma last_opt_plain (p : option ascii) (a : str) :
  Forall (fun c => plain c = true) a -> a <> [] ->
  exists x, last_opt p a = Some x /\ plain x = true.
Proof.
  intros Ha. revert p. induction Ha as [|c a Hc Ha IH]; intros p Hne;
    [contradiction|].
  destruct a as [|d a]; [exists c; auto|].
  apply (IH (Some c)). discriminate.
Qed.

Lemma at_bol_last_plain (p : option ascii) (a : str) :
  Forall (fun c => plain c = true) a -> a <> [] ->
  at_bol (last_opt p a) = false.
Proof.
  intros Ha Hne. destruct (last_opt_plain p a Ha Hne) as (x & E & Hx).
  rewrite E. simpl. apply plain_dot in Hx.
  destruct (is_line_terminator x); [discriminate|reflexivity].
Qed.

Lemma run_stages_cons (st : stage) (l : list stage) (s : str) :
  run_stages (st :: l) s = run_stages l (replace_at (fst st) (snd st) None s).
Proof. reflexivity. Qed.

Lemma run_stages_nil (s : str) : run_stages [] s = s.
Proof. reflexivity. Qed.

(** The scan of a stage over a text made of known characters and plain
    parts, as long as nothing matches. *)
Ltac exec_none :=
  first
    [ vm_compute; reflexivity
    | apply exec_none_bol;
      [ reflexivity | apply at_bol_last_plain; assumption ] ].

Ltac scan_step :=
  first
    [ rewrite replace_at_nil by exec_none
    | rewrite replace_at_plain by (first [vm_compute; reflexivity | assumption])
    | rewrite replace_at_skip by exec_none ].

Ltac skip_stage := rewrite run_stages_cons; cbn [fst snd]; repeat scan_step.

Lemma exec_char_hit (c : ascii) (prev : option ascii) (s : str) :
  exec (RChar c) prev (c :: s) = Some (Some c, s, []).
Proof. unfold exec. cbn [rmatch]. rewrite Ascii.eqb_refl. reflexivity. Qed.

Lemma firstn_consumed3 (x y z s : str) :
  firstn (List.length (x ++ y ++ z ++ s) - List.length s) (x ++ y ++ z ++ s)
  = x ++ y ++ z.
Proof.
  replace (x ++ y ++ z ++ s) with ((x ++ y ++ z) ++ s)
    by (rewrite <- !app_assoc; reflexivity).
  apply firstn_consumed.
Qed.

(** The stage that drops the line break after a list item. *)
Lemma exec_li_br (a s : str) (prev : option ascii) :
  Forall (fun c => plain c = true) a ->
  exec (seq [RGroup 1 li_item; ROpt (RGroup 2 (lit "<br>"))]) prev
    (chars "<li>" ++ a ++ chars "</li>" ++ chars "<br>" ++ s)
  = Some (Some ">"%char, s,
          [(2%nat, chars "<br>");
           (1%nat, chars "<li>" ++ a ++ chars "</li>")]).
Proof.
  intros Ha. unfold exec. cbn [seq rmatch].
  apply rmatch_li_item; [exact Ha|].
  unfold lit. rewrite rmatch_chars. cbn [or_else].
  rewrite firstn_consumed3.
  rewrite (firstn_consumed (chars "<br>") s). reflexivity.
Qed.

Lemma exec_li_end (a : str) (prev : option ascii) :
  Forall (fun c => plain c = true) a ->
  exec (seq [RGroup 1 li_item; ROpt (RGroup 2 (lit "<br>"))]) prev
    (chars "<li>" ++ a ++ chars "</li>" ++ [])
  = Some (Some ">"%char, [], [(1%nat, chars "<li>" ++ a ++ chars "</li>")]).
Proof.
  intros Ha. unfold exec. cbn [seq rmatch].
  apply rmatch_li_item; [exact Ha|].
  cbn [lit chars map seq rmatch or_else].
  rewrite firstn_consumed3. reflexivity.
Qed.

(** One more item of a greedy run of list items. *)
Lemma greedy_item (a s : str) (fuel min : nat) (prev : option ascii)
    (cs : caps) (k : cont) (res : result) :
  Forall (fun c => plain c = true) a ->
  rep (rmatch li_item) true fuel (Nat.pred min) (Some ">"%char) s cs k
  = Some res ->
  rep (rmatch li_item) true (S fuel) min prev
    (chars "<li>" ++ a ++ chars "</li>" ++ s) cs k
  = Some res.
Proof.
  intros Ha Hk. cbn [rep].
  rewrite (rmatch_li_item a s prev cs _ res Ha).
  - destruct min; reflexivity.
  - assert (Hl : (List.length s
                  <? List.length (chars "<li>" ++ a ++ chars "</li>" ++ s))%nat
                 = true).
    { apply Nat.ltb_lt. rewrite !length_app. simpl. lia. }
    rewrite Hl. exact Hk.
Qed.

Lemma greedy_items_end (fuel : nat) (prev : option ascii) (cs : caps)
    (k : cont) :
  rep (rmatch li_item) true (S fuel) 0 prev [] cs k = k prev [] cs.
Proof. reflexivity. Qed.

(** The stage that wraps a run of list items. *)
Lemma exec_ul (a b : str) (prev : option ascii) :
  Forall (fun c => plain c = true) a ->
  Forall (fun c => plain c = true) b ->
  exec (RGroup 1 (plus li_item)) prev
    (chars "<li>" ++ a ++ chars "</li>"
     ++ chars "<li>" ++ b ++ chars "</li>" ++ [])
  = Some (Some ">"%char, [],
          [(1%nat, chars "<li>" ++ a ++ chars "</li>"
                   ++ chars "<li>" ++ b ++ chars "</li>" ++ [])]).
Proof.
  intros Ha Hb. unfold exec, plus. cbn [rmatch].
  apply greedy_item; [exact Ha|].
  assert (Hf : exists f,
             List.length (chars "<li>" ++ a ++ chars "</li>"
                          ++ chars "<li>" ++ b ++ chars "</li>" ++ [])
             = S (S f)).
  { rewrite !length_app. simpl. eexists. reflexivity. }
  destruct Hf as (f & Hf). rewrite Hf. cbn [Nat.pred].
  apply greedy_item; [exact Hb|]. cbn [Nat.pred].
  rewrite greedy_items_end. rewrite <- Hf, Nat.sub_0_r, firstn_all.
  reflexivity.
Qed.

(** ** Two bullet lines *)

Ltac len_tac :=
  cbn [list_ascii_of_string app List.length];
  repeat (rewrite length_app; cbn [List.length]); lia.

Ltac tidy :=
  repeat (progress
            (cbn [expand capture Nat.eqb snd fst line_rule span_rule
                  list_ascii_of_string app];
             rewrite ?app_nil_r; repeat rewrite <- app_assoc)).

Section TwoBullets.

Variables a b : str.
Hypothesis plain_a : Forall (fun c => plain c = true) a.
Hypothesis plain_b : Forall (fun c => plain c = true) b.
Hypothesis some_a : a <> [].
Hypothesis some_b : b <> [].

Lemma bullets_escape :
  run_stages escape_stages (chars "- " ++ a ++ LF :: chars "- " ++ b ++ [])
  = chars "- " ++ a ++ LF :: chars "- " ++ b ++ [].
Proof.
  unfold escape_stages. cbn [list_ascii_of_string app].
  skip_stage. skip_stage. skip_stage. reflexivity.
Qed.

Lemma bullets_markup :
  run_stages markup_stages (chars "- " ++ a ++ LF :: chars "- " ++ b ++ [])
  = chars "<li>" ++ a ++ chars "</li>" ++ chars "<br>"
    ++ chars "<li>" ++ b ++ chars "</li>" ++ [].
Proof.
  unfold markup_stages. cbn [list_ascii_of_string app].
  do 12 skip_stage.
  (* the unordered list rule matches both lines *)
  rewrite run_stages_cons. cbn [fst snd].
  pose proof (exec_line_rule (RSeq (oneof "-*") (lit " ")) "<li>" "</li>"
                (chars "- ") a (LF :: chars "- " ++ b ++ []) None
                (Some " "%char) (fun _ _ _ => eq_refl) eq_refl
                plain_a some_a eq_refl) as E1.
  rewrite (replace_at_match _ _ _ _ _ _ _ E1) by len_tac.
  scan_step.
  pose proof (exec_line_rule (RSeq (oneof "-*") (lit " ")) "<li>" "</li>"
                (chars "- ") b [] (Some LF)
                (Some " "%char) (fun _ _ _ => eq_refl) eq_refl
                plain_b some_b eq_refl) as E2.
  rewrite (replace_at_match _ _ _ _ _ _ _ E2) by len_tac.
  scan_step. tidy. clear E1 E2.
  (* the ordered list rule and the rule for --- do not match *)
  do 2 skip_stage.
  (* the line break *)
  rewrite run_stages_cons. cbn [fst snd].
  repeat scan_step.
  rewrite (replace_at_match _ _ _ _ _ _ _ (exec_char_hit LF _ _)) by len_tac.
  repeat scan_step. tidy.
  reflexivity.
Qed.

Lemma bullets_lists :
  run_stages list_stages
    (chars "<li>" ++ a ++ chars "</li>" ++ chars "<br>"
     ++ chars "<li>" ++ b ++ chars "</li>" ++ [])
  = chars "<ul>" ++ chars "<li>" ++ a ++ chars "</li>"
    ++ chars "<li>" ++ b ++ chars "</li>" ++ chars "</ul>".
Proof.
  unfold list_stages.
  rewrite run_stages_cons. cbn [fst snd].
  rewrite (replace_at_match _ _ _ _ _ _ _ (exec_li_br a _ None plain_a))
    by len_tac.
  rewrite (replace_at_match _ _ _ _ _ _ _ (exec_li_end b _ plain_b))
    by len_tac.
  scan_step. tidy.
  rewrite run_stages_cons. cbn [fst snd].
  pose proof (exec_ul a b None plain_a plain_b) as E.
  cbn [list_ascii_of_string app] in E.
  rewrite (replace_at_match _ _ _ _ _ _ _ E) by len_tac.
  scan_step. tidy. reflexivity.
Qed.

Lemma bullets_cleanup :
  run_stages cleanup_stages
    (chars "<ul>" ++ chars "<li>" ++ a ++ chars "</li>"
     ++ chars "<li>" ++ b ++ chars "</li>" ++ chars "</ul>")
  = chars "<ul>" ++ chars "<li>" ++ a ++ chars "</li>"
    ++ chars "<li>" ++ b ++ chars "</li>" ++ chars "</ul>".
Proof.
  unfold cleanup_stages. cbn [list_ascii_of_string app].
  do 10 skip_stage. reflexivity.
Qed.

End TwoBullets.

(** ** Strings and character lists *)

Lemma chars_append (x y : string) :
  chars (x ++ y)%string = chars x ++ chars y.
Proof. induction x as [|c x IH]; simpl; congruence. Qed.

Lemma string_of_app (x y : str) :
  string_of_list_ascii (x ++ y)
  = (string_of_list_ascii x ++ string_of_list_ascii y)%string.
Proof. induction x as [|c x IH]; simpl; congruence. Qed.

Lemma chars_nonempty (x : string) : x <> ""%string -> chars x <> [].
Proof. destruct x; [contradiction|discriminate]. Qed.

(** A pattern that starts with a special character starts nowhere in a
    plain text. *)
Lemma occurrences_in_plain (c : ascii) (n a s : str) :
  In c special_chars ->
  Forall (fun x => plain x = true) a ->
  occurrences_in (c :: n) (a ++ s) = occurrences_in (c :: n) s.
Proof.
  intros Hc. induction 1 as [|x a Hx Ha IH]; [reflexivity|].
  cbn [app occurrences_in prefix].
  rewrite Ascii.eqb_sym, (plain_not_special x c Hx Hc). exact IH.
Qed.

Lemma lt_special : In "<"%char special_chars.
Proof. vm_compute. tauto. Qed.

Ltac count_tags :=
  unfold occurrences; rewrite !chars_append;
  cbn [list_ascii_of_string app];
  repeat (simpl occurrences_in;
          rewrite ?occurrences_in_plain by (exact lt_special || assumption));
  reflexivity.

(** Bullets written with [-].  Two consecutive lines [- a] and [- b],
    for item texts [a] and [b] without markup characters, are rendered as
    one [<ul>] element with the two [<li>] items and nothing else, with no
    line break left between or around them.  At [a = "a"] and [b = "b"]
    this is [parseMarkdown "- a\n- b" = "<ul><li>a</li><li>b</li></ul>"].
    The same lines written with [*] are the subject of
    [star_bullets_not_a_list] below. *)
Theorem two_bullets_one_list (a b : string) :
  plain_text a -> plain_text b ->
  let html := parseMarkdown ("- " ++ a ++ NL ++ "- " ++ b)%string in
  html = ("<ul><li>" ++ a ++ "</li><li>" ++ b ++ "</li></ul>")%string /\
  occurrences "<ul>" html = 1%nat /\
  occurrences "</ul>" html = 1%nat /\
  occurrences "<li>" html = 2%nat /\
  occurrences "<br>" html = 0%nat.
Proof.
  intros [Ha Pa] [Hb Pb]. cbv zeta.
  assert (E : parseMarkdown ("- " ++ a ++ NL ++ "- " ++ b)%string
              = ("<ul><li>" ++ a ++ "</li><li>" ++ b ++ "</li></ul>")%string).
  { rewrite parseMarkdown_after_escape by discriminate.
    rewrite <- escape_stages_spec.
    replace (chars ("- " ++ a ++ NL ++ "- " ++ b)%string)
      with (chars "- " ++ chars a ++ LF :: chars "- " ++ chars b ++ [])
      by (rewrite !chars_append, app_nil_r; reflexivity).
    pose proof (chars_nonempty a Ha) as Na.
    pose proof (chars_nonempty b Hb) as Nb.
    rewrite (bullets_escape (chars a) (chars b) Pa Pb).
    unfold after_escape.
    rewrite (bullets_markup (chars a) (chars b) Pa Pb Na Nb).
    rewrite (bullets_lists (chars a) (chars b) Pa Pb).
    rewrite (bullets_cleanup (chars a) (chars b) Pa Pb).
    rewrite !string_of_app, !string_of_list_ascii_of_string. reflexivity. }
  rewrite E. split; [reflexivity|].
  repeat split; count_tags.
Qed.

(** The two bullet lines of the example. *)
Lemma two_bullets_one_list_witness :
  plain_text "a" /\ plain_text "b" /\
  let html := parseMarkdown ("- a" ++ NL ++ "- b")%string in
  html = "<ul><li>a</li><li>b</li></ul>"%string /\
  occurrences "<ul>" html = 1%nat /\
  occurrences "</ul>" html = 1%nat /\
  occurrences "<li>" html = 2%nat /\
  occurrences "<br>" html = 0%nat.
Proof.
  assert (Pa : plain_text "a").
  { split; [discriminate|repeat constructor]. }
  assert (Pb : plain_text "b").
  { split; [discriminate|repeat constructor]. }
  split; [exact Pa|]. split; [exact Pb|].
  exact (two_bullets_one_list "a" "b" Pa Pb).
Defined.

(** Bullets written with [*]: the italic stage runs before the list stage
    and its body [[^*]+] spans the line break, so the markers of two
    consecutive [*] lines are read as one pair of emphasis delimiters.
    A single [*] line is a list item. *)
Remark star_bullets_are_emphasis :
  parseMarkdown ("* a" ++ NL ++ "* b")%string = "<em> a<br></em> b"%string /\
  parseMarkdown "* a" = "<ul><li>a</li></ul>"%string.
Proof. vm_compute. split; reflexivity. Qed.

(** ** Code spans *)

(** A span rule with a lazy body, on a plain text between the
    delimiters. *)
Lemma exec_span_lazy (opn : string) (d : ascii) (cls open close : string)
    (a s : str) (prev : option ascii) :
  Forall (fun c => plain c = true) a -> a <> [] ->
  In d special_chars ->
  exec (fst (span_rule opn (plus_lazy dot) (String d cls) open close)) prev
    (chars opn ++ a ++ chars (String d cls) ++ s)
  = Some (last_opt (last_opt (last_opt prev (chars opn)) a)
            (chars (String d cls)), s, [(1%nat, a)]).
Proof.
  intros Ha Hne Hd. unfold exec, span_rule. cbn [fst seq rmatch].
  unfold lit. rewrite rmatch_chars. cbn [rmatch]. unfold plus_lazy, dot.
  apply (lazy_class (fun c => negb (is_line_terminator c)) a
           (Forall_plain_dot a Ha)).
  - lia.
  - destruct a; [contradiction|simpl; lia].
  - intros a1 x a2 E.
    assert (Hx : plain x = true).
    { rewrite Forall_forall in Ha. apply Ha. rewrite E.
      apply in_or_app. right. left. reflexivity. }
    cbn [list_ascii_of_string]. apply rmatch_chars_miss.
    apply plain_not_special; assumption.
  - rewrite rmatch_chars. rewrite firstn_consumed. reflexivity.
Qed.

(** A span rule with a greedy body [[^d]+], on a text without [d]
    between the delimiters. *)
Lemma exec_span_greedy (opn : string) (d : ascii) (open close : string)
    (a s : str) (prev : option ascii) :
  Forall (fun c => negb (Ascii.eqb c d) = true) a -> a <> [] ->
  exec (fst (span_rule opn (plus (notchar d)) (String d "") open close)) prev
    (chars opn ++ a ++ d :: s)
  = Some (Some d, s, [(1%nat, a)]).
Proof.
  intros Ha Hne. unfold exec, span_rule. cbn [fst seq rmatch].
  unfold lit. rewrite rmatch_chars. cbn [rmatch]. unfold plus, notchar.
  apply (greedy_class (fun c => negb (Ascii.eqb c d)) a Ha).
  - lia.
  - destruct a; [contradiction|simpl; lia].
  - rewrite Ascii.eqb_refl. reflexivity.
  - cbn [list_ascii_of_string map seq rmatch]. rewrite Ascii.eqb_refl.
    change (d :: s) with ([d] ++ s) at 1.
    rewrite firstn_consumed. reflexivity.
Qed.

Lemma plain_not (d : ascii) (a : str) :
  In d special_chars ->
  Forall (fun c => plain c = true) a ->
  Forall (fun c => negb (Ascii.eqb c d) = true) a.
Proof.
  intros Hd. apply Forall_impl. intros x Hx.
  rewrite (plain_not_special x d Hx Hd). reflexivity.
Qed.

(** A doubled opening delimiter does not start at a single delimiter
    that a plain character follows. *)
Lemma exec_open_miss (d : ascii) (w : string) (body : regex)
    (cls open close : string) (a s : str) (prev : option ascii) :
  Forall (fun c => plain c = true) a -> a <> [] ->
  In d special_chars ->
  exec (fst (span_rule (String d (String d w)) body cls open close)) prev
    (d :: a ++ s)
  = None.
Proof.
  intros Ha Hne Hd. destruct a as [|x a]; [contradiction|].
  inversion Ha as [|? ? Hx _]; subst.
  unfold exec, span_rule. cbn [fst seq rmatch]. unfold lit.
  cbn [list_ascii_of_string map].
  change (seq (RChar d :: RChar d :: map RChar (chars w)))
    with (RSeq (RChar d) (seq (map RChar (d :: chars w)))).
  cbn [rmatch app]. rewrite Ascii.eqb_refl.
  apply rmatch_chars_miss. apply plain_not_special; assumption.
Qed.

Ltac special := vm_compute; tauto.

Ltac scan :=
  repeat first
    [ scan_step
    | rewrite replace_at_skip
        by (apply exec_open_miss; [assumption | assumption | special]) ].

Ltac pass_stage := rewrite run_stages_cons; cbn [fst snd]; scan.

Ltac enter_stage := rewrite run_stages_cons; cbn [fst snd]; scan.

Ltac hit E :=
  cbn [list_ascii_of_string app] in E;
  rewrite <- ?app_assoc in E; cbn [app] in E;
  rewrite (replace_at_match _ _ _ _ _ _ _ E) by len_tac;
  clear E; scan; tidy.

Ltac pass_all := cbn [list_ascii_of_string app]; repeat pass_stage; reflexivity.

(** The four groups of stages, one after the other, on a text that the
    escaping, the list stages and the cleanup leave alone. *)
Lemma stages_chain (s m : str) :
  run_stages escape_stages s = s ->
  run_stages markup_stages s = m ->
  run_stages list_stages m = m ->
  run_stages cleanup_stages m = m ->
  after_escape (run_stages escape_stages s) = m.
Proof.
  intros E0 E1 E2 E3. unfold after_escape. rewrite E0, E1, E2, E3.
  reflexivity.
Qed.

Section CodeSpan.

Variable a : str.
Hypothesis plain_a : Forall (fun c => plain c = true) a.
Hypothesis some_a : a <> [].

(** The text of a code span [d a d], delimiters included, has no
    backtick. *)
Lemma span_text (d : string) :
  Forall (fun c => negb (Ascii.eqb c "`") = true) (chars d) ->
  Forall (fun c => negb (Ascii.eqb c "`") = true) (chars d ++ a ++ chars d).
Proof.
  intros Hd. apply Forall_app. split; [exact Hd|].
  apply Forall_app. split; [|exact Hd].
  apply plain_not; [special|exact plain_a].
Qed.

Lemma span_text_some (d : string) : chars d ++ a ++ chars d <> [].
Proof.
  destruct a; [contradiction|]. destruct (chars d); discriminate.
Qed.

(** A code span around a plain text keeps the text. *)
Lemma code_plain :
  after_escape (run_stages escape_stages (chars "`" ++ a ++ chars "`"))
  = chars "<code>" ++ a ++ chars "</code>".
Proof.
  apply stages_chain.
  - unfold escape_stages. pass_all.
  - unfold markup_stages. cbn [list_ascii_of_string app].
    do 5 pass_stage. enter_stage.
    pose proof (exec_span_greedy "`" "`" "<code>" "</code>" a [] None
                  (plain_not "`" a ltac:(special) plain_a) some_a) as E.
    hit E. pass_all.
  - unfold list_stages. pass_all.
  - unfold cleanup_stages. pass_all.
Qed.

(** A code span around [**a**]: the bold stage matches inside the code
    element. *)
Lemma code_bold :
  after_escape (run_stages escape_stages (chars "`**" ++ a ++ chars "**`"))
  = chars "<code><strong>" ++ a ++ chars "</strong></code>".
Proof.
  apply stages_chain.
  - unfold escape_stages. pass_all.
  - unfold markup_stages. cbn [list_ascii_of_string app].
    do 5 pass_stage. enter_stage.
    pose proof (exec_span_greedy "`" "`" "<code>" "</code>"
                  (chars "**" ++ a ++ chars "**") [] None
                  (span_text "**" ltac:(repeat constructor))
                  (span_text_some "**")) as E.
    hit E. enter_stage.
    pose proof (exec_span_lazy "**" "*" "*" "<strong>" "</strong>" a
                (chars "</code>") (Some ">"%char) plain_a some_a
                ltac:(special)) as E.
    hit E. pass_all.
  - unfold list_stages. pass_all.
  - unfold cleanup_stages. pass_all.
Qed.

(** A code span around [__a__]. *)
Lemma code_bold_underscores :
  after_escape (run_stages escape_stages (chars "`__" ++ a ++ chars "__`"))
  = chars "<code><strong>" ++ a ++ chars "</strong></code>".
Proof.
  apply stages_chain.
  - unfold escape_stages. pass_all.
  - unfold markup_stages. cbn [list_ascii_of_string app].
    do 5 pass_stage. enter_stage.
    pose proof (exec_span_greedy "`" "`" "<code>" "</code>"
                  (chars "__" ++ a ++ chars "__") [] None
                  (span_text "__" ltac:(repeat constructor))
                  (span_text_some "__")) as E.
    hit E. do 1 pass_stage. enter_stage.
    pose proof (exec_span_lazy "__" "_" "_" "<strong>" "</strong>" a
                (chars "</code>") (Some ">"%char) plain_a some_a
                ltac:(special)) as E.
    hit E. pass_all.
  - unfold list_stages. pass_all.
  - unfold cleanup_stages. pass_all.
Qed.

(** A code span around [*a*]. *)
Lemma code_italic :
  after_escape (run_stages escape_stages (chars "`*" ++ a ++ chars "*`"))
  = chars "<code><em>" ++ a ++ chars "</em></code>".
Proof.
  apply stages_chain.
  - unfold escape_stages. pass_all.
  - unfold markup_stages. cbn [list_ascii_of_string app].
    do 5 pass_stage. enter_stage.
    pose proof (exec_span_greedy "`" "`" "<code>" "</code>"
                  (chars "*" ++ a ++ chars "*") [] None
                  (span_text "*" ltac:(repeat constructor))
                  (span_text_some "*")) as E.
    hit E. do 2 pass_stage. enter_stage.
    pose proof (exec_span_greedy "*" "*" "<em>" "</em>" a
                (chars "</code>") (Some ">"%char)
                (plain_not "*" a ltac:(special) plain_a) some_a) as E.
    hit E. pass_all.
  - unfold list_stages. pass_all.
  - unfold cleanup_stages. pass_all.
Qed.

(** A code span around [_a_]. *)
Lemma code_italic_underscore :
  after_escape (run_stages escape_stages (chars "`_" ++ a ++ chars "_`"))
  = chars "<code><em>" ++ a ++ chars "</em></code>".
Proof.
  apply stages_chain.
  - unfold escape_stages. pass_all.
  - unfold markup_stages. cbn [list_ascii_of_string app].
    do 5 pass_stage. enter_stage.
    pose proof (exec_span_greedy "`" "`" "<code>" "</code>"
                  (chars "_" ++ a ++ chars "_") [] None
                  (span_text "_" ltac:(repeat constructor))
                  (span_text_some "_")) as E.
    hit E. do 3 pass_stage. enter_stage.
    pose proof (exec_span_greedy "_" "_" "<em>" "</em>" a
                (chars "</code>") (Some ">"%char)
                (plain_not "_" a ltac:(special) plain_a) some_a) as E.
    hit E. pass_all.
  - unfold list_stages. pass_all.
  - unfold cleanup_stages. pass_all.
Qed.

(** A code span around [~~a~~]. *)
Lemma code_strike :
  after_escape (run_stages escape_stages (chars "`~~" ++ a ++ chars "~~`"))
  = chars "<code><del>" ++ a ++ chars "</del></code>".
Proof.
  apply stages_chain.
  - unfold escape_stages. pass_all.
  - unfold markup_stages. cbn [list_ascii_of_string app].
    do 5 pass_stage. enter_stage.
    pose proof (exec_span_greedy "`" "`" "<code>" "</code>"
                  (chars "~~" ++ a ++ chars "~~") [] None
                  (span_text "~~" ltac:(repeat constructor))
                  (span_text_some "~~")) as E.
    hit E. do 4 pass_stage. enter_stage.
    pose proof (exec_span_lazy "~~" "~" "~" "<del>" "</del>" a
                (chars "</code>") (Some ">"%char) plain_a some_a
                ltac:(special)) as E.
    hit E. pass_all.
  - unfold list_stages. pass_all.
  - unfold cleanup_stages. pass_all.
Qed.

End CodeSpan.

Ltac render_with L :=
  rewrite parseMarkdown_after_escape by discriminate;
  rewrite <- escape_stages_spec;
  rewrite !chars_append;
  rewrite L by (assumption || (apply chars_nonempty; assumption));
  rewrite !string_of_app, !string_of_list_ascii_of_string; reflexivity.

(** C6, as stated, fails: inside a code span the bold delimiters are
    matched by the later bold stage, and the code element does not hold
    the literal [**a**]. *)
Lemma code_span_is_reinterpreted :
  ~ (parseMarkdown "`**a**`" = "<code>**a**</code>" /\
     occurrences "<strong>" (parseMarkdown "`**a**`") = 0%nat).
Proof. vm_compute. intros (H & _). discriminate H. Qed.

(** C6, amended. The code-span stage runs before the bold and italic
    stages, but it does not shield what it wraps: the later stages run over
    the whole text, code elements included.  For every text [a] without
    markup characters, the rendering of [**a**] between backticks is a code
    element that holds a [strong] element, and likewise for the other
    delimiters; the code span of [a] itself keeps its text. *)
Theorem code_span_content_is_rendered (a : string) :
  plain_text a ->
  (nth_error markup_stages 5
   = Some (span_rule "`" (plus (notchar "`")) "`" "<code>" "</code>") /\
   nth_error markup_stages 6
   = Some (span_rule "**" (plus_lazy dot) "**" "<strong>" "</strong>") /\
   nth_error markup_stages 8
   = Some (span_rule "*" (plus (notchar "*")) "*" "<em>" "</em>")) /\
  parseMarkdown ("`**" ++ a ++ "**`")
  = ("<code><strong>" ++ a ++ "</strong></code>")%string /\
  parseMarkdown ("`__" ++ a ++ "__`")
  = ("<code><strong>" ++ a ++ "</strong></code>")%string /\
  parseMarkdown ("`*" ++ a ++ "*`")
  = ("<code><em>" ++ a ++ "</em></code>")%string /\
  parseMarkdown ("`_" ++ a ++ "_`")
  = ("<code><em>" ++ a ++ "</em></code>")%string /\
  parseMarkdown ("`~~" ++ a ++ "~~`")
  = ("<code><del>" ++ a ++ "</del></code>")%string /\
  parseMarkdown ("`" ++ a ++ "`") = ("<code>" ++ a ++ "</code>")%string.
Proof.
  intros [Ha Pa]. split; [repeat split|].
  split; [render_with code_bold|].
  split; [render_with code_bold_underscores|].
  split; [render_with code_italic|].
  split; [render_with code_italic_underscore|].
  split; [render_with code_strike|].
  render_with code_plain.
Qed.

(** The code spans of the one-letter text. *)
Lemma code_span_content_is_rendered_witness :
  plain_text "a" /\
  parseMarkdown "`**a**`" = "<code><strong>a</strong></code>"%string /\
  parseMarkdown "`__a__`" = "<code><strong>a</strong></code>"%string /\
  parseMarkdown "`*a*`" = "<code><em>a</em></code>"%string /\
  parseMarkdown "`_a_`" = "<code><em>a</em></code>"%string /\
  parseMarkdown "`~~a~~`" = "<code><del>a</del></code>"%string /\
  parseMarkdown "`a`" = "<code>a</code>"%string.
Proof.
  assert (Pa : plain_text "a").
  { split; [discriminate|repeat constructor]. }
  split; [exact Pa|].
  exact (proj2 (code_span_content_is_rendered "a" Pa)).
Defined.


(* ================================================================== *)
(** * Further properties of the renderer *)

(** ** Plain text, line breaks and inline styles *)

(** No pattern of a stage that skips plain characters matches at a plain
    character, whatever follows the pattern. *)
Lemma rmatch_plain (r : regex) (prev : option ascii) (c : ascii) (s : str)
    (cs : caps) (k : cont) :
  skips_plain r = true -> plain c = true -> rmatch r prev (c :: s) cs k = None.
Proof.
  intros Hr Hc. destruct (rmatch r prev (c :: s) cs k) as [res|] eqn:He;
    [|reflexivity].
  apply rmatch_sound in He. destruct He as (c' & Hm & _).
  pose proof (may_start_sound r _ _ Hm c s eq_refl) as Hs.
  unfold skips_plain in Hr. rewrite forallb_forall in Hr.
  specialize (Hr c (in_all_ascii c)). rewrite Hc, Hs in Hr. discriminate.
Qed.

(** A line break is not dropped in front of plain text. *)
Lemma exec_br_before_miss (tag : regex) (a s : str) (prev : option ascii) :
  skips_plain tag = true ->
  Forall (fun c => plain c = true) a -> a <> [] ->
  exec (fst (br_before tag)) prev (chars "<br>" ++ a ++ s) = None.
Proof.
  intros Ht Ha Hne. destruct a as [|x a]; [contradiction|].
  inversion Ha as [|? ? Hx _]; subst.
  unfold exec, br_before. cbn [fst seq rmatch]. unfold lit.
  rewrite rmatch_chars. cbn [app]. apply rmatch_plain; assumption.
Qed.

Ltac scan_more :=
  repeat first
    [ scan_step
    | rewrite replace_at_skip
        by (apply exec_open_miss; [assumption | assumption | special])
    | rewrite replace_at_skip
        by (apply exec_br_before_miss; [reflexivity | assumption | assumption]) ].

Ltac stage_done :=
  lazymatch goal with
  | |- context [replace_at _ _ _ _] => fail "a stage of the scan is stuck"
  | _ => idtac
  end.

(** A stage that matches nowhere. *)
Ltac pass :=
  stage_done; rewrite run_stages_cons; cbn [fst snd]; scan_more; stage_done.

(** A stage up to its first match. *)
Ltac enter := stage_done; rewrite run_stages_cons; cbn [fst snd]; scan_more.

Ltac settle :=
  repeat (progress
            (cbn [expand capture Nat.eqb snd fst line_rule span_rule
                  br_before br_after DQ list_ascii_of_string app];
             repeat rewrite <- app_assoc)).

(** A match of the stage at the current position of the scan. *)
Ltac strike E :=
  cbn [list_ascii_of_string app] in E;
  rewrite <- ?app_assoc in E; cbn [app] in E;
  rewrite (replace_at_match _ _ _ _ _ _ _ E) by len_tac;
  clear E; settle; scan_more.

Ltac strike_char c :=
  rewrite (replace_at_match _ _ _ _ _ _ _ (exec_char_hit c _ _)) by len_tac;
  settle; scan_more.

Ltac pass_rest :=
  cbn [list_ascii_of_string app DQ]; repeat pass; stage_done; tidy;
  reflexivity.

Section PlainLines.

Variables a b : str.
Hypothesis plain_a : Forall (fun c => plain c = true) a.
Hypothesis plain_b : Forall (fun c => plain c = true) b.
Hypothesis some_a : a <> [].
Hypothesis some_b : b <> [].

Lemma plain_kept : after_escape (run_stages escape_stages (a ++ [])) = a ++ [].
Proof.
  apply stages_chain.
  - unfold escape_stages. pass_rest.
  - unfold markup_stages. pass_rest.
  - unfold list_stages. pass_rest.
  - unfold cleanup_stages. pass_rest.
Qed.

Lemma two_lines :
  after_escape (run_stages escape_stages (a ++ LF :: b ++ []))
  = a ++ chars "<br>" ++ b ++ [].
Proof.
  apply stages_chain.
  - unfold escape_stages. pass_rest.
  - unfold markup_stages. cbn [list_ascii_of_string app].
    do 15 pass. enter.
    strike_char LF. stage_done. tidy. reflexivity.
  - unfold list_stages. pass_rest.
  - unfold cleanup_stages. pass_rest.
Qed.

End PlainLines.

Section Inline.

Variable a : str.
Hypothesis plain_a : Forall (fun c => plain c = true) a.
Hypothesis some_a : a <> [].

(** [**a**] *)
Lemma bold_stars :
  after_escape (run_stages escape_stages (chars "**" ++ a ++ chars "**"))
  = chars "<strong>" ++ a ++ chars "</strong>".
Proof.
  apply stages_chain.
  - unfold escape_stages. pass_rest.
  - unfold markup_stages. cbn [list_ascii_of_string app].
    do 6 pass. enter.
    pose proof (exec_span_lazy "**" "*" "*" "<strong>" "</strong>" a
                  [] None plain_a some_a ltac:(special)) as E.
    strike E. pass_rest.
  - unfold list_stages. pass_rest.
  - unfold cleanup_stages. pass_rest.
Qed.

(** [__a__] *)
Lemma bold_underscores :
  after_escape (run_stages escape_stages (chars "__" ++ a ++ chars "__"))
  = chars "<strong>" ++ a ++ chars "</strong>".
Proof.
  apply stages_chain.
  - unfold escape_stages. pass_rest.
  - unfold markup_stages. cbn [list_ascii_of_string app].
    do 7 pass. enter.
    pose proof (exec_span_lazy "__" "_" "_" "<strong>" "</strong>" a
                  [] None plain_a some_a ltac:(special)) as E.
    strike E. pass_rest.
  - unfold list_stages. pass_rest.
  - unfold cleanup_stages. pass_rest.
Qed.

(** [*a*] *)
Lemma italic_star :
  after_escape (run_stages escape_stages (chars "*" ++ a ++ chars "*"))
  = chars "<em>" ++ a ++ chars "</em>".
Proof.
  apply stages_chain.
  - unfold escape_stages. pass_rest.
  - unfold markup_stages. cbn [list_ascii_of_string app].
    do 8 pass. enter.
    pose proof (exec_span_greedy "*" "*" "<em>" "</em>" a [] None
                  (plain_not "*" a ltac:(special) plain_a) some_a) as E.
    strike E. pass_rest.
  - unfold list_stages. pass_rest.
  - unfold cleanup_stages. pass_rest.
Qed.

(** [_a_] *)
Lemma italic_underscore :
  after_escape (run_stages escape_stages (chars "_" ++ a ++ chars "_"))
  = chars "<em>" ++ a ++ chars "</em>".
Proof.
  apply stages_chain.
  - unfold escape_stages. pass_rest.
  - unfold markup_stages. cbn [list_ascii_of_string app].
    do 9 pass. enter.
    pose proof (exec_span_greedy "_" "_" "<em>" "</em>" a [] None
                  (plain_not "_" a ltac:(special) plain_a) some_a) as E.
    strike E. pass_rest.
  - unfold list_stages. pass_rest.
  - unfold cleanup_stages. pass_rest.
Qed.

(** [~~a~~] *)
Lemma struck :
  after_escape (run_stages escape_stages (chars "~~" ++ a ++ chars "~~"))
  = chars "<del>" ++ a ++ chars "</del>".
Proof.
  apply stages_chain.
  - unfold escape_stages. pass_rest.
  - unfold markup_stages. cbn [list_ascii_of_string app].
    do 10 pass. enter.
    pose proof (exec_span_lazy "~~" "~" "~" "<del>" "</del>" a
                  [] None plain_a some_a ltac:(special)) as E.
    strike E. pass_rest.
  - unfold list_stages. pass_rest.
  - unfold cleanup_stages. pass_rest.
Qed.

End Inline.

(** The four groups of stages, one after the other. *)
Lemma stages_steps (s e m l r : str) :
  run_stages escape_stages s = e ->
  run_stages markup_stages e = m ->
  run_stages list_stages m = l ->
  run_stages cleanup_stages l = r ->
  after_escape (run_stages escape_stages s) = r.
Proof.
  intros E0 E1 E2 E3. unfold after_escape. rewrite E0, E1, E2, E3.
  reflexivity.
Qed.

Lemma lit_marker (w : string) (prev : option ascii) (s : str) (cs : caps)
    (k : cont) :
  rmatch (lit w) prev (chars w ++ s) cs k = k (last_opt prev (chars w)) s cs.
Proof. unfold lit. apply rmatch_chars. Qed.

Section BlockLine.

Variable a : str.
Hypothesis plain_a : Forall (fun c => plain c = true) a.
Hypothesis some_a : a <> [].

(** [### a] *)
Lemma heading3 :
  after_escape (run_stages escape_stages (chars "### " ++ a ++ []))
  = chars "<h3>" ++ a ++ chars "</h3>".
Proof.
  apply stages_chain.
  - unfold escape_stages. pass_rest.
  - unfold markup_stages. cbn [list_ascii_of_string app].
    enter.
    pose proof (exec_line_rule (lit "### ") "<h3>" "</h3>" (chars "### ") a []
                  None _ (lit_marker "### " None) eq_refl plain_a some_a
                  eq_refl) as E.
    strike E. pass_rest.
  - unfold list_stages. pass_rest.
  - unfold cleanup_stages. pass_rest.
Qed.

(** [## a] *)
Lemma heading2 :
  after_escape (run_stages escape_stages (chars "## " ++ a ++ []))
  = chars "<h2>" ++ a ++ chars "</h2>".
Proof.
  apply stages_chain.
  - unfold escape_stages. pass_rest.
  - unfold markup_stages. cbn [list_ascii_of_string app].
    do 1 pass. enter.
    pose proof (exec_line_rule (lit "## ") "<h2>" "</h2>" (chars "## ") a []
                  None _ (lit_marker "## " None) eq_refl plain_a some_a
                  eq_refl) as E.
    strike E. pass_rest.
  - unfold list_stages. pass_rest.
  - unfold cleanup_stages. pass_rest.
Qed.

(** [# a] *)
Lemma heading1 :
  after_escape (run_stages escape_stages (chars "# " ++ a ++ []))
  = chars "<h1>" ++ a ++ chars "</h1>".
Proof.
  apply stages_chain.
  - unfold escape_stages. pass_rest.
  - unfold markup_stages. cbn [list_ascii_of_string app].
    do 2 pass. enter.
    pose proof (exec_line_rule (lit "# ") "<h1>" "</h1>" (chars "# ") a []
                  None _ (lit_marker "# " None) eq_refl plain_a some_a
                  eq_refl) as E.
    strike E. pass_rest.
  - unfold list_stages. pass_rest.
  - unfold cleanup_stages. pass_rest.
Qed.

(** [> a]: the escaping turns the marker into [&gt;], which is what the
    blockquote stage looks for. *)
Lemma quoted :
  after_escape (run_stages escape_stages (chars "> " ++ a ++ []))
  = chars "<blockquote>" ++ a ++ chars "</blockquote>".
Proof.
  apply (stages_steps _ (chars "&gt; " ++ a ++ [])
           (chars "<blockquote>" ++ a ++ chars "</blockquote>")
           (chars "<blockquote>" ++ a ++ chars "</blockquote>")).
  - unfold escape_stages. cbn [list_ascii_of_string app].
    do 2 pass. enter.
    strike_char ">"%char. stage_done. tidy. reflexivity.
  - unfold markup_stages. cbn [list_ascii_of_string app].
    do 3 pass. enter.
    pose proof (exec_line_rule (lit "&gt; ") "<blockquote>" "</blockquote>"
                  (chars "&gt; ") a [] None _ (lit_marker "&gt; " None)
                  eq_refl plain_a some_a eq_refl) as E.
    strike E. pass_rest.
  - unfold list_stages. pass_rest.
  - unfold cleanup_stages. pass_rest.
Qed.

End BlockLine.

(** ** Code blocks and links *)

(** A fenced block: the lazy body stops at the first closing fence. *)
Lemma exec_fence (open close : string) (x s : str) (prev : option ascii) :
  Forall (fun c => Ascii.eqb c "`" = false) x ->
  exec (fst (span_rule "```" (star_lazy anychar) "```" open close)) prev
    (chars "```" ++ x ++ chars "```" ++ s)
  = Some (Some "`"%char, s, [(1%nat, x)]).
Proof.
  intros Hx. unfold exec, span_rule. cbn [fst seq rmatch].
  rewrite lit_marker. cbn [rmatch]. unfold star_lazy, anychar.
  apply (lazy_class (fun _ => true) x).
  - clear Hx. induction x; constructor; auto.
  - lia.
  - lia.
  - intros a1 c a2 E.
    assert (Hc : Ascii.eqb c "`" = false).
    { rewrite Forall_forall in Hx. apply Hx. rewrite E.
      apply in_or_app. right. left. reflexivity. }
    unfold lit. cbn [list_ascii_of_string]. apply rmatch_chars_miss. exact Hc.
  - rewrite lit_marker. rewrite firstn_consumed. reflexivity.
Qed.

(** A link: both bodies are greedy and stop at their closing bracket. *)
Lemma exec_link (a u s : str) (prev : option ascii) :
  Forall (fun c => negb (Ascii.eqb c "]") = true) a -> a <> [] ->
  Forall (fun c => negb (Ascii.eqb c ")") = true) u -> u <> [] ->
  exec (seq [lit "["; RGroup 1 (plus (notchar "]")); lit "](";
             RGroup 2 (plus (notchar ")")); lit ")"]) prev
    (chars "[" ++ a ++ chars "](" ++ u ++ chars ")" ++ s)
  = Some (Some ")"%char, s, [(2%nat, u); (1%nat, a)]).
Proof.
  intros Ha Na Hu Nu. unfold exec. cbn [seq rmatch].
  rewrite lit_marker. unfold plus, notchar. cbn [rmatch].
  apply (greedy_class (fun c => negb (Ascii.eqb c "]")) a Ha).
  - lia.
  - destruct a; [contradiction|simpl; lia].
  - reflexivity.
  - rewrite lit_marker.
    apply (greedy_class (fun c => negb (Ascii.eqb c ")")) u Hu).
    + lia.
    + destruct u; [contradiction|simpl; lia].
    + reflexivity.
    + rewrite lit_marker. rewrite !firstn_consumed. reflexivity.
Qed.

Lemma plain_no_backtick (a : str) :
  Forall (fun c => plain c = true) a ->
  Forall (fun c => Ascii.eqb c "`" = false) a.
Proof.
  apply Forall_impl. intros x Hx. apply plain_not_special; [exact Hx|special].
Qed.

Section Fence.

Variables a b : str.
Hypothesis plain_a : Forall (fun c => plain c = true) a.
Hypothesis plain_b : Forall (fun c => plain c = true) b.
Hypothesis some_a : a <> [].
Hypothesis some_b : b <> [].

(** A fenced block of two lines. *)
Lemma fenced :
  after_escape
    (run_stages escape_stages
       (chars "```" ++ a ++ LF :: b ++ chars "```"))
  = chars "<pre><code>" ++ a ++ chars "<br>" ++ b ++ chars "</code></pre>".
Proof.
  apply stages_chain.
  - unfold escape_stages. pass_rest.
  - unfold markup_stages. cbn [list_ascii_of_string app].
    do 4 pass. enter.
    assert (Hin : Forall (fun c => Ascii.eqb c "`" = false) (a ++ LF :: b)).
    { apply Forall_app. split; [apply plain_no_backtick; exact plain_a|].
      constructor; [reflexivity|apply plain_no_backtick; exact plain_b]. }
    pose proof (exec_fence "<pre><code>" "</code></pre>" (a ++ LF :: b) []
                  None Hin) as E.
    strike E. clear Hin.
    do 10 pass. enter.
    strike_char LF. stage_done. tidy. reflexivity.
  - unfold list_stages. pass_rest.
  - unfold cleanup_stages. pass_rest.
Qed.

End Fence.


Lemma lacks_class (c : ascii) (s : string) :
  lacks c s ->
  Forall (fun x => negb (Ascii.eqb x c) = true) (chars s).
Proof.
  apply Forall_impl. intros x ->. reflexivity.
Qed.

Section Link.

Variables a u : str.
Hypothesis plain_a : Forall (fun c => plain c = true) a.
Hypothesis plain_u : Forall (fun c => plain c = true) u.
Hypothesis some_a : a <> [].
Hypothesis some_u : u <> [].
Hypothesis label_a : Forall (fun c => negb (Ascii.eqb c "]") = true) a.
Hypothesis url_u : Forall (fun c => negb (Ascii.eqb c ")") = true) u.

Lemma linked :
  after_escape
    (run_stages escape_stages (chars "[" ++ a ++ chars "](" ++ u ++ chars ")"))
  = chars "<a href=" ++ chars DQ ++ u ++ chars DQ
    ++ chars " target=" ++ chars DQ ++ chars "_blank" ++ chars DQ
    ++ chars " rel=" ++ chars DQ ++ chars "noopener" ++ chars DQ
    ++ chars ">" ++ a ++ chars "</a>".
Proof.
  apply stages_chain.
  - unfold escape_stages. pass_rest.
  - unfold markup_stages. cbn [list_ascii_of_string app].
    do 11 pass. enter.
    pose proof (exec_link a u [] None label_a some_a url_u some_u) as E.
    strike E. pass_rest.
  - unfold list_stages. cbn [list_ascii_of_string app DQ]. pass_rest.
  - unfold cleanup_stages. cbn [list_ascii_of_string app DQ]. pass_rest.
Qed.

End Link.

(** ** Line breaks around block elements *)

(** [<br>] in front of a literal tag. *)
Lemma exec_br_before_hit (w : string) (s : str) (prev : option ascii) :
  exec (fst (br_before (lit w))) prev (chars "<br>" ++ chars w ++ s)
  = Some (last_opt (Some ">"%char) (chars w), s, [(1%nat, chars w)]).
Proof.
  unfold exec, br_before. cbn [fst seq rmatch].
  rewrite !lit_marker. rewrite firstn_consumed. reflexivity.
Qed.

(** [<br>] after a literal tag. *)
Lemma exec_br_after_hit (w : string) (s : str) (prev : option ascii) :
  exec (fst (br_after (lit w))) prev (chars w ++ chars "<br>" ++ s)
  = Some (Some ">"%char, s, [(1%nat, chars w)]).
Proof.
  unfold exec, br_after. cbn [fst seq rmatch].
  rewrite !lit_marker. rewrite firstn_consumed. reflexivity.
Qed.

(** The heading tags [<hN>] and [</hN>] for [N] in 1..3. *)
Lemma rmatch_heading_tag (w : string) (d : ascii) (prev : option ascii)
    (s : str) (cs : caps) (k : cont) :
  existsb (Ascii.eqb d) (chars "123") = true ->
  rmatch (seq [lit w; oneof "123"; lit ">"]) prev
    (chars w ++ d :: ">"%char :: s) cs k
  = k (Some ">"%char) s cs.
Proof.
  intros Hd. cbn [seq rmatch]. rewrite lit_marker. unfold oneof.
  cbn [rmatch]. rewrite Hd.
  change (">"%char :: s) with (chars ">" ++ s). rewrite lit_marker.
  reflexivity.
Qed.

Lemma exec_br_before_heading (d : ascii) (s : str) (prev : option ascii) :
  existsb (Ascii.eqb d) (chars "123") = true ->
  exec (fst (br_before (seq [lit "<h"; oneof "123"; lit ">"]))) prev
    (chars "<br>" ++ chars "<h" ++ d :: ">"%char :: s)
  = Some (Some ">"%char, s, [(1%nat, chars "<h" ++ [d; ">"%char])]).
Proof.
  intros Hd. unfold exec, br_before.
  change (seq [lit "<br>"; RGroup 1 (seq [lit "<h"; oneof "123"; lit ">"])])
    with (RSeq (lit "<br>") (RGroup 1 (seq [lit "<h"; oneof "123"; lit ">"]))).
  cbn [fst]. cbn [rmatch]. rewrite lit_marker.
  rewrite rmatch_heading_tag by exact Hd.
  change (chars "<h" ++ d :: ">"%char :: s)
    with ((chars "<h" ++ [d; ">"%char]) ++ s).
  rewrite firstn_consumed. reflexivity.
Qed.

Lemma exec_br_after_heading (d : ascii) (s : str) (prev : option ascii) :
  existsb (Ascii.eqb d) (chars "123") = true ->
  exec (fst (br_after (seq [lit "</h"; oneof "123"; lit ">"]))) prev
    (chars "</h" ++ d :: ">"%char :: chars "<br>" ++ s)
  = Some (Some ">"%char, s, [(1%nat, chars "</h" ++ [d; ">"%char])]).
Proof.
  intros Hd. unfold exec, br_after.
  change (seq [RGroup 1 (seq [lit "</h"; oneof "123"; lit ">"]); lit "<br>"])
    with (RSeq (RGroup 1 (seq [lit "</h"; oneof "123"; lit ">"])) (lit "<br>")).
  cbn [fst]. cbn [rmatch].
  rewrite rmatch_heading_tag by exact Hd.
  rewrite lit_marker.
  change (chars "</h" ++ d :: ">"%char :: chars "<br>" ++ s)
    with ((chars "</h" ++ [d; ">"%char]) ++ chars "<br>" ++ s).
  rewrite firstn_consumed. reflexivity.
Qed.

Section Blocks.

Variables a b : str.
Hypothesis plain_a : Forall (fun c => plain c = true) a.
Hypothesis plain_b : Forall (fun c => plain c = true) b.
Hypothesis some_a : a <> [].
Hypothesis some_b : b <> [].

(** A heading and a line of text after it. *)
Lemma heading_then_text :
  after_escape (run_stages escape_stages (chars "# " ++ a ++ LF :: b ++ []))
  = chars "<h1>" ++ a ++ chars "</h1>" ++ b ++ [].
Proof.
  apply (stages_steps _ (chars "# " ++ a ++ LF :: b ++ [])
           (chars "<h1>" ++ a ++ chars "</h1>" ++ chars "<br>" ++ b ++ [])
           (chars "<h1>" ++ a ++ chars "</h1>" ++ chars "<br>" ++ b ++ [])).
  - unfold escape_stages. pass_rest.
  - unfold markup_stages. cbn [list_ascii_of_string app].
    do 2 pass. enter.
    pose proof (exec_line_rule (lit "# ") "<h1>" "</h1>" (chars "# ") a
                  (LF :: b ++ []) None _ (lit_marker "# " None) eq_refl
                  plain_a some_a eq_refl) as E.
    strike E.
    do 12 pass. enter.
    strike_char LF. stage_done. tidy. reflexivity.
  - unfold list_stages. pass_rest.
  - unfold cleanup_stages. cbn [list_ascii_of_string app].
    pass. enter.
    pose proof (exec_br_after_heading "1" (b ++ [])
                  (last_opt (Some ">"%char) a) eq_refl)
      as E.
    strike E. pass_rest.
Qed.

(** A line of text and a heading after it. *)
Lemma text_then_heading :
  after_escape (run_stages escape_stages (a ++ LF :: chars "# " ++ b ++ []))
  = a ++ chars "<h1>" ++ b ++ chars "</h1>".
Proof.
  apply (stages_steps _ (a ++ LF :: chars "# " ++ b ++ [])
           (a ++ chars "<br>" ++ chars "<h1>" ++ b ++ chars "</h1>")
           (a ++ chars "<br>" ++ chars "<h1>" ++ b ++ chars "</h1>")).
  - unfold escape_stages. pass_rest.
  - unfold markup_stages. cbn [list_ascii_of_string app].
    do 2 pass. enter.
    pose proof (exec_line_rule (lit "# ") "<h1>" "</h1>" (chars "# ") b
                  [] (Some LF) _ (lit_marker "# " (Some LF)) eq_refl
                  plain_b some_b eq_refl) as E.
    strike E.
    do 12 pass. enter.
    strike_char LF. stage_done. tidy. reflexivity.
  - unfold list_stages. pass_rest.
  - unfold cleanup_stages. cbn [list_ascii_of_string app].
    enter.
    pose proof (exec_br_before_heading "1" (b ++ chars "</h1>")
                  (last_opt None a) eq_refl) as E.
    strike E. pass_rest.
Qed.

(** A rule between two lines of text. *)
Lemma rule_between :
  after_escape
    (run_stages escape_stages (a ++ LF :: chars "---" ++ LF :: b ++ []))
  = a ++ chars "<hr>" ++ b ++ [].
Proof.
  apply (stages_steps _ (a ++ LF :: chars "---" ++ LF :: b ++ [])
           (a ++ chars "<br>" ++ chars "<hr>" ++ chars "<br>" ++ b ++ [])
           (a ++ chars "<br>" ++ chars "<hr>" ++ chars "<br>" ++ b ++ [])).
  - unfold escape_stages. pass_rest.
  - unfold markup_stages. cbn [list_ascii_of_string app].
    do 14 pass. enter.
    assert (E : exec (seq [RBol; lit "---"; REol]) (Some LF)
                  (chars "---" ++ LF :: b ++ [])
                = Some (Some "-"%char, LF :: b ++ [], [])).
    { unfold exec. cbn [seq rmatch at_bol]. rewrite lit_marker. reflexivity. }
    strike E.
    enter.
    strike_char LF.
    strike_char LF. stage_done. tidy. reflexivity.
  - unfold list_stages. pass_rest.
  - unfold cleanup_stages. cbn [list_ascii_of_string app].
    do 8 pass. enter.
    pose proof (exec_br_before_hit "<hr>" (chars "<br>" ++ b ++ [])
                  (last_opt None a)) as E.
    strike E.
    enter.
    pose proof (exec_br_after_hit "<hr>" (b ++ []) (last_opt None a)) as E.
    strike E. pass_rest.
Qed.

End Blocks.

(** ** Lists *)

(** A greedy loop over a run of the class fails when the continuation
    fails wherever the loop may stop. *)
Lemma greedy_class_fail (p : ascii -> bool) (a : str) :
  Forall (fun c => p c = true) a ->
  forall fuel min prev s cs k,
    (forall a1 a2, a = a1 ++ a2 ->
       k (last_opt prev a1) (a2 ++ s) cs = None) ->
    match s with [] => true | c :: _ => negb (p c) end = true ->
    rep (rmatch (RClass p)) true fuel min prev (a ++ s) cs k = None.
Proof.
  induction 1 as [|x a Hx Ha IH]; intros fuel min prev s cs k Hk Hs;
    (destruct fuel as [|fuel]; [reflexivity|]); cbn [rep app].
  - rewrite rmatch_class_stop by exact Hs.
    destruct min; [|reflexivity]. cbn [or_else]. apply (Hk [] []). reflexivity.
  - rewrite rmatch_class_hit by exact Hx. rewrite ltb_tail.
    rewrite (IH fuel (Nat.pred min) (Some x) s cs k).
    + destruct min; [|reflexivity]. cbn [or_else].
      apply (Hk [] (x :: a)). reflexivity.
    + intros a1 a2 E. apply (Hk (x :: a1) a2). rewrite E. reflexivity.
    + exact Hs.
Qed.

(** An opening [*] without a closing one is no emphasis. *)
Lemma exec_italic_open (open close : string) (a : str) (prev : option ascii) :
  Forall (fun c => negb (Ascii.eqb c "*") = true) a ->
  exec (fst (span_rule "*" (plus (notchar "*")) "*" open close)) prev
    ("*"%char :: a ++ [])
  = None.
Proof.
  intros Ha. unfold exec, span_rule. cbn [fst seq rmatch].
  change ("*"%char :: a ++ []) with (chars "*" ++ a ++ []).
  rewrite lit_marker. unfold plus, notchar. cbn [rmatch].
  apply (greedy_class_fail (fun c => negb (Ascii.eqb c "*")) a Ha);
    [|reflexivity].
  intros a1 a2 E. rewrite app_nil_r.
  destruct a2 as [|c a2]; [reflexivity|].
  assert (Hc : negb (Ascii.eqb c "*") = true).
  { rewrite Forall_forall in Ha. apply Ha. rewrite E.
    apply in_or_app. right. left. reflexivity. }
  unfold lit. cbn [list_ascii_of_string map seq rmatch].
  destruct (Ascii.eqb c "*"); [discriminate|reflexivity].
Qed.

(** The marker of an ordered item: one digit, a dot and a space. *)
Lemma ordered_marker (d : ascii) (prev : option ascii) (s : str) (cs : caps)
    (k : cont) :
  existsb (Ascii.eqb d) (chars "0123456789") = true ->
  rmatch (seq [plus digit; lit ". "]) prev (d :: chars ". " ++ s) cs k
  = k (Some " "%char) s cs.
Proof.
  intros Hd. cbn [seq rmatch]. unfold plus, digit, oneof. cbn [rmatch].
  cbn [app list_ascii_of_string rep rmatch].
  cbn [list_ascii_of_string] in Hd. rewrite Hd. rewrite ltb_tail.
  cbn [List.length rep rmatch Nat.pred].
  replace (existsb (Ascii.eqb ".")
             ["0"; "1"; "2"; "3"; "4"; "5"; "6"; "7"; "8"; "9"]%char)
    with false by reflexivity.
  cbn [or_else].
  change (rmatch (lit ". ") (Some d) (chars ". " ++ s) cs k
          = k (Some " "%char) s cs).
  apply lit_marker.
Qed.

(** The stage that wraps a run of list items, on one item. *)
Lemma exec_ul_one (a : str) (prev : option ascii) :
  Forall (fun c => plain c = true) a ->
  exec (RGroup 1 (plus li_item)) prev (chars "<li>" ++ a ++ chars "</li>" ++ [])
  = Some (Some ">"%char, [],
          [(1%nat, chars "<li>" ++ a ++ chars "</li>" ++ [])]).
Proof.
  intros Ha. unfold exec, plus. cbn [rmatch].
  apply greedy_item; [exact Ha|]. cbn [Nat.pred].
  assert (Hf : exists f,
             List.length (chars "<li>" ++ a ++ chars "</li>" ++ []) = S f).
  { rewrite !length_app. simpl. eexists. reflexivity. }
  destruct Hf as (f & Hf). rewrite Hf.
  rewrite greedy_items_end. rewrite <- Hf, Nat.sub_0_r, firstn_all.
  reflexivity.
Qed.

Section ListItems.

Variables a b : str.
Hypothesis plain_a : Forall (fun c => plain c = true) a.
Hypothesis plain_b : Forall (fun c => plain c = true) b.
Hypothesis some_a : a <> [].
Hypothesis some_b : b <> [].

(** Two numbered lines. *)
Lemma two_numbered :
  after_escape
    (run_stages escape_stages
       (chars "1. " ++ a ++ LF :: chars "2. " ++ b ++ []))
  = chars "<ul>" ++ chars "<li>" ++ a ++ chars "</li>"
    ++ chars "<li>" ++ b ++ chars "</li>" ++ chars "</ul>".
Proof.
  apply (stages_steps _
           (chars "1. " ++ a ++ LF :: chars "2. " ++ b ++ [])
           (chars "<li>" ++ a ++ chars "</li>" ++ chars "<br>"
            ++ chars "<li>" ++ b ++ chars "</li>" ++ [])
           (chars "<ul>" ++ chars "<li>" ++ a ++ chars "</li>"
            ++ chars "<li>" ++ b ++ chars "</li>" ++ chars "</ul>")).
  - unfold escape_stages. pass_rest.
  - unfold markup_stages. cbn [list_ascii_of_string app].
    do 13 pass. enter.
    pose proof (exec_line_rule (seq [plus digit; lit ". "]) "<li>" "</li>"
                  (chars "1. ") a (LF :: chars "2. " ++ b ++ []) None _
                  (fun s' cs k => ordered_marker "1" None s' cs k eq_refl)
                  eq_refl plain_a some_a eq_refl) as E.
    strike E.
    pose proof (exec_line_rule (seq [plus digit; lit ". "]) "<li>" "</li>"
                  (chars "2. ") b [] (Some LF) _
                  (fun s' cs k => ordered_marker "2" (Some LF) s' cs k eq_refl)
                  eq_refl plain_b some_b eq_refl) as E.
    strike E.
    pass. enter. strike_char LF. stage_done. tidy. reflexivity.
  - exact (bullets_lists a b plain_a plain_b).
  - exact (bullets_cleanup a b plain_a plain_b).
Qed.

(** One bullet line, with either marker. *)
Lemma one_bullet (m : ascii) :
  m = "-"%char \/ m = "*"%char ->
  after_escape (run_stages escape_stages (m :: " "%char :: a ++ []))
  = chars "<ul>" ++ chars "<li>" ++ a ++ chars "</li>" ++ chars "</ul>".
Proof.
  intros Hm.
  apply (stages_steps _ (m :: " "%char :: a ++ [])
           (chars "<li>" ++ a ++ chars "</li>" ++ [])
           (chars "<ul>" ++ chars "<li>" ++ a ++ chars "</li>" ++ chars "</ul>")).
  - unfold escape_stages. destruct Hm as [-> | ->]; pass_rest.
  - assert (Hsp : Forall (fun c => negb (Ascii.eqb c "*") = true)
                    (" "%char :: a)).
    { constructor; [reflexivity|]. apply plain_not; [special|exact plain_a]. }
    pose proof (exec_italic_open "<em>" "</em>" (" "%char :: a) None Hsp) as Ei.
    unfold markup_stages. cbn [list_ascii_of_string app] in *.
    destruct Hm as [-> | ->].
    + clear Ei. do 12 pass. enter.
      pose proof (exec_line_rule (RSeq (oneof "-*") (lit " ")) "<li>" "</li>"
                    (chars "- ") a [] None (Some " "%char)
                    (fun _ _ _ => eq_refl) eq_refl plain_a some_a eq_refl) as E.
      strike E. pass_rest.
    + do 8 pass. enter.
      rewrite replace_at_skip by exact Ei. scan_more. clear Ei.
      do 3 pass. enter.
      pose proof (exec_line_rule (RSeq (oneof "-*") (lit " ")) "<li>" "</li>"
                    (chars "* ") a [] None (Some " "%char)
                    (fun _ _ _ => eq_refl) eq_refl plain_a some_a eq_refl) as E.
      strike E. pass_rest.
  - unfold list_stages. cbn [list_ascii_of_string app].
    enter.
    pose proof (exec_li_end a None plain_a) as E.
    strike E. enter.
    pose proof (exec_ul_one a None plain_a) as E.
    strike E. stage_done. tidy. reflexivity.
  - unfold cleanup_stages. pass_rest.
Qed.

End ListItems.

(** ** The renderer on strings *)

Lemma append_nonempty (x y : string) : x <> ""%string -> (x ++ y)%string <> ""%string.
Proof. destruct x; [contradiction|discriminate]. Qed.

Ltac to_chars :=
  rewrite parseMarkdown_after_escape
    by (first [discriminate | assumption | apply append_nonempty; assumption]);
  rewrite <- escape_stages_spec;
  rewrite ?chars_append; change (chars NL) with [LF]; cbn [app].

Ltac to_string :=
  rewrite ?app_nil_r;
  rewrite ?string_of_app, ?string_of_list_ascii_of_string; reflexivity.

Lemma plain_sample (s : string) :
  s <> ""%string ->
  forallb plain (chars s) = true ->
  plain_text s.
Proof.
  intros Hs Hp. split; [exact Hs|]. apply Forall_forall. intros c Hc.
  rewrite forallb_forall in Hp. apply Hp. exact Hc.
Qed.

(** X1. A text without markup characters is rendered as it is, and the
    line feed between two such lines becomes one [<br>]. *)
Theorem plain_text_is_kept (a b : string) :
  plain_text a -> plain_text b ->
  parseMarkdown a = a /\
  parseMarkdown (a ++ NL ++ b) = (a ++ "<br>" ++ b)%string.
Proof.
  intros [Ha Pa] [Hb Pb].
  pose proof (chars_nonempty a Ha) as Na.
  pose proof (chars_nonempty b Hb) as Nb. split.
  - to_chars. rewrite <- (app_nil_r (chars a)).
    rewrite (plain_kept (chars a)) by assumption. to_string.
  - to_chars. rewrite <- (app_nil_r (chars b)).
    rewrite (two_lines (chars a) (chars b)) by assumption. to_string.
Qed.

Lemma plain_text_is_kept_witness :
  plain_text "Buy milk" /\ plain_text "Call Ann" /\
  parseMarkdown "Buy milk" = "Buy milk"%string /\
  parseMarkdown ("Buy milk" ++ NL ++ "Call Ann")
  = "Buy milk<br>Call Ann"%string.
Proof.
  assert (Pa : plain_text "Buy milk")
    by (apply plain_sample; [discriminate|reflexivity]).
  assert (Pb : plain_text "Call Ann")
    by (apply plain_sample; [discriminate|reflexivity]).
  split; [exact Pa|]. split; [exact Pb|].
  exact (plain_text_is_kept "Buy milk" "Call Ann" Pa Pb).
Defined.

(** X2. The inline styles on a text without markup characters: two
    asterisks or underscores make it [strong], one makes it [em], two
    tildes make it [del]. *)
Theorem inline_styles (a : string) :
  plain_text a ->
  parseMarkdown ("**" ++ a ++ "**") = ("<strong>" ++ a ++ "</strong>")%string /\
  parseMarkdown ("__" ++ a ++ "__") = ("<strong>" ++ a ++ "</strong>")%string /\
  parseMarkdown ("*" ++ a ++ "*") = ("<em>" ++ a ++ "</em>")%string /\
  parseMarkdown ("_" ++ a ++ "_") = ("<em>" ++ a ++ "</em>")%string /\
  parseMarkdown ("~~" ++ a ++ "~~") = ("<del>" ++ a ++ "</del>")%string.
Proof.
  intros [Ha Pa]. pose proof (chars_nonempty a Ha) as Na.
  split; [to_chars; rewrite (bold_stars (chars a)) by assumption; to_string|].
  split; [to_chars; rewrite (bold_underscores (chars a)) by assumption; to_string|].
  split; [to_chars; rewrite (italic_star (chars a)) by assumption; to_string|].
  split; [to_chars; rewrite (italic_underscore (chars a)) by assumption; to_string|].
  to_chars; rewrite (struck (chars a)) by assumption; to_string.
Qed.

Lemma inline_styles_witness :
  plain_text "now" /\
  parseMarkdown "**now**" = "<strong>now</strong>"%string /\
  parseMarkdown "__now__" = "<strong>now</strong>"%string /\
  parseMarkdown "*now*" = "<em>now</em>"%string /\
  parseMarkdown "_now_" = "<em>now</em>"%string /\
  parseMarkdown "~~now~~" = "<del>now</del>"%string.
Proof.
  assert (Pa : plain_text "now")
    by (apply plain_sample; [discriminate|reflexivity]).
  split; [exact Pa|]. exact (inline_styles "now" Pa).
Defined.

(** X3. A line that starts with one to three [#] and a space is a heading
    of that level, and a line that starts with [>] and a space is a block
    quote: the marker is dropped and the text of the line is wrapped. *)
Theorem block_lines (a : string) :
  plain_text a ->
  parseMarkdown ("# " ++ a) = ("<h1>" ++ a ++ "</h1>")%string /\
  parseMarkdown ("## " ++ a) = ("<h2>" ++ a ++ "</h2>")%string /\
  parseMarkdown ("### " ++ a) = ("<h3>" ++ a ++ "</h3>")%string /\
  parseMarkdown ("> " ++ a) = ("<blockquote>" ++ a ++ "</blockquote>")%string.
Proof.
  intros [Ha Pa]. pose proof (chars_nonempty a Ha) as Na.
  split; [to_chars; rewrite <- (app_nil_r (chars a));
          rewrite (heading1 (chars a)) by assumption; to_string|].
  split; [to_chars; rewrite <- (app_nil_r (chars a));
          rewrite (heading2 (chars a)) by assumption; to_string|].
  split; [to_chars; rewrite <- (app_nil_r (chars a));
          rewrite (heading3 (chars a)) by assumption; to_string|].
  to_chars; rewrite <- (app_nil_r (chars a));
    rewrite (quoted (chars a)) by assumption; to_string.
Qed.

Lemma block_lines_witness :
  plain_text "Plan" /\
  parseMarkdown "# Plan" = "<h1>Plan</h1>"%string /\
  parseMarkdown "## Plan" = "<h2>Plan</h2>"%string /\
  parseMarkdown "### Plan" = "<h3>Plan</h3>"%string /\
  parseMarkdown "> Plan" = "<blockquote>Plan</blockquote>"%string.
Proof.
  assert (Pa : plain_text "Plan")
    by (apply plain_sample; [discriminate|reflexivity]).
  split; [exact Pa|]. exact (block_lines "Plan" Pa).
Defined.

(** X4. A fenced block becomes one [pre]/[code] element, and a line feed
    inside it becomes [<br>] like everywhere else. *)
Theorem fenced_block (a b : string) :
  plain_text a -> plain_text b ->
  parseMarkdown ("```" ++ a ++ NL ++ b ++ "```")
  = ("<pre><code>" ++ a ++ "<br>" ++ b ++ "</code></pre>")%string.
Proof.
  intros [Ha Pa] [Hb Pb].
  pose proof (chars_nonempty a Ha) as Na.
  pose proof (chars_nonempty b Hb) as Nb.
  to_chars. rewrite (fenced (chars a) (chars b)) by assumption. to_string.
Qed.

Lemma fenced_block_witness :
  plain_text "x = y" /\ plain_text "y = z" /\
  parseMarkdown ("```x = y" ++ NL ++ "y = z```")
  = "<pre><code>x = y<br>y = z</code></pre>"%string.
Proof.
  assert (Pa : plain_text "x = y")
    by (apply plain_sample; [discriminate|reflexivity]).
  assert (Pb : plain_text "y = z")
    by (apply plain_sample; [discriminate|reflexivity]).
  split; [exact Pa|]. split; [exact Pb|].
  exact (fenced_block "x = y" "y = z" Pa Pb).
Defined.

(** X5. A link [[label](url)] becomes an anchor that opens in a new tab
    with [rel="noopener"]; the address is copied into the [href] attribute
    as it is written. *)
Theorem link_rendering (label url : string) :
  plain_text label -> plain_text url ->
  lacks "]" label -> lacks ")" url ->
  parseMarkdown ("[" ++ label ++ "](" ++ url ++ ")")
  = ("<a href=" ++ DQ ++ url ++ DQ
     ++ " target=" ++ DQ ++ "_blank" ++ DQ
     ++ " rel=" ++ DQ ++ "noopener" ++ DQ
     ++ ">" ++ label ++ "</a>")%string.
Proof.
  intros [Ha Pa] [Hu Pu] La Lu.
  pose proof (chars_nonempty label Ha) as Na.
  pose proof (chars_nonempty url Hu) as Nu.
  apply lacks_class in La. apply lacks_class in Lu.
  to_chars. rewrite (linked (chars label) (chars url)) by assumption.
  to_string.
Qed.

Lemma link_rendering_witness :
  plain_text "docs" /\ plain_text "https://example.com/a" /\
  lacks "]" "docs" /\ lacks ")" "https://example.com/a" /\
  parseMarkdown "[docs](https://example.com/a)"
  = ("<a href=" ++ DQ ++ "https://example.com/a" ++ DQ
     ++ " target=" ++ DQ ++ "_blank" ++ DQ
     ++ " rel=" ++ DQ ++ "noopener" ++ DQ ++ ">docs</a>")%string.
Proof.
  assert (Pa : plain_text "docs")
    by (apply plain_sample; [discriminate|reflexivity]).
  assert (Pu : plain_text "https://example.com/a")
    by (apply plain_sample; [discriminate|reflexivity]).
  assert (La : lacks "]" "docs") by (repeat constructor).
  assert (Lu : lacks ")" "https://example.com/a") by (repeat constructor).
  split; [exact Pa|]. split; [exact Pu|]. split; [exact La|].
  split; [exact Lu|].
  exact (link_rendering "docs" "https://example.com/a" Pa Pu La Lu).
Defined.



(** X7. Numbered lines are list items of the same unordered list as
    bullets: the numbers are dropped.  One bullet line, with either
    marker, is a list of one item. *)
Theorem list_items (a b : string) :
  plain_text a -> plain_text b ->
  parseMarkdown ("1. " ++ a ++ NL ++ "2. " ++ b)
  = ("<ul><li>" ++ a ++ "</li><li>" ++ b ++ "</li></ul>")%string /\
  parseMarkdown ("- " ++ a) = ("<ul><li>" ++ a ++ "</li></ul>")%string /\
  parseMarkdown ("* " ++ a) = ("<ul><li>" ++ a ++ "</li></ul>")%string.
Proof.
  intros [Ha Pa] [Hb Pb].
  pose proof (chars_nonempty a Ha) as Na.
  pose proof (chars_nonempty b Hb) as Nb.
  split; [|split].
  - to_chars. rewrite <- (app_nil_r (chars b)).
    rewrite (two_numbered (chars a) (chars b)) by assumption. to_string.
  - to_chars. rewrite <- (app_nil_r (chars a)).
    change (chars "- " ++ chars a ++ [])
      with ("-"%char :: " "%char :: chars a ++ []).
    rewrite (one_bullet (chars a)) by (assumption || (left; reflexivity)).
    to_string.
  - to_chars. rewrite <- (app_nil_r (chars a)).
    change (chars "* " ++ chars a ++ [])
      with ("*"%char :: " "%char :: chars a ++ []).
    rewrite (one_bullet (chars a)) by (assumption || (right; reflexivity)).
    to_string.
Qed.

Lemma list_items_witness :
  plain_text "Buy milk" /\ plain_text "Call Ann" /\
  parseMarkdown ("1. Buy milk" ++ NL ++ "2. Call Ann")
  = "<ul><li>Buy milk</li><li>Call Ann</li></ul>"%string /\
  parseMarkdown "- Buy milk" = "<ul><li>Buy milk</li></ul>"%string /\
  parseMarkdown "* Buy milk" = "<ul><li>Buy milk</li></ul>"%string.
Proof.
  assert (Pa : plain_text "Buy milk")
    by (apply plain_sample; [discriminate|reflexivity]).
  assert (Pb : plain_text "Call Ann")
    by (apply plain_sample; [discriminate|reflexivity]).
  split; [exact Pa|]. split; [exact Pb|].
  exact (list_items "Buy milk" "Call Ann" Pa Pb).
Defined.


(** ** Coordinate conversion on binary64 *)


(** The check of every zoom level, offset and coordinate of the grid, by
    evaluation. *)
Lemma check_all_holds :
  forallb (fun s =>
    forallb (fun o =>
      forallb (fun x => Binary64.check s o x) Binary64.grid) Binary64.grid)
    Binary64.zoom_levels
  = true.
Proof. vm_cast_no_check (eq_refl true). Qed.

Lemma there_and_back_checked (s o x : float) :
  In s Binary64.zoom_levels -> In o Binary64.grid -> In x Binary64.grid ->
  Binary64.check s o x = true.
Proof.
  intros Hs Ho Hx.
  pose proof (proj1 (forallb_forall _ _) check_all_holds s Hs) as H.
  cbv beta in H.
  pose proof (proj1 (forallb_forall _ _) H o Ho) as H'.
  cbv beta in H'.
  exact (proj1 (forallb_forall _ _) H' x Hx).
Qed.

Lemma is_in_dyadic (s : float) :
  In s Binary64.dyadic_levels -> Binary64.is_in s Binary64.dyadic_levels = true.
Proof.
  intros H. simpl in H.
  repeat (destruct H as [<-|H]; [reflexivity|]). contradiction.
Qed.


Lemma in_grid (n : nat) :
  (n < 513)%nat -> In (nth n Binary64.grid 0%float) Binary64.grid.
Proof. intros H. apply nth_In. exact H. Qed.



(** ** Bullets written with an asterisk *)

Section StarBullets.

Variables a b : str.
Hypothesis plain_a : Forall (fun c => plain c = true) a.
Hypothesis plain_b : Forall (fun c => plain c = true) b.
Hypothesis some_a : a <> [].
Hypothesis some_b : b <> [].

(** Two consecutive [*] lines: the italic stage takes the two markers for
    a pair of emphasis delimiters, across the line feed. *)
Lemma star_lines :
  after_escape
    (run_stages escape_stages
       (chars "* " ++ a ++ LF :: chars "* " ++ b ++ []))
  = chars "<em> " ++ a ++ chars "<br></em> " ++ b ++ [].
Proof.
  apply (stages_steps _ (chars "* " ++ a ++ LF :: chars "* " ++ b ++ [])
           (chars "<em> " ++ a ++ chars "<br></em> " ++ b ++ [])
           (chars "<em> " ++ a ++ chars "<br></em> " ++ b ++ [])).
  - unfold escape_stages. pass_rest.
  - unfold markup_stages. cbn [list_ascii_of_string app].
    do 8 pass. enter.
    assert (Hin : Forall (fun c => negb (Ascii.eqb c "*") = true)
                    (" "%char :: a ++ [LF])).
    { constructor; [reflexivity|]. apply Forall_app. split.
      - apply plain_not; [special|exact plain_a].
      - repeat constructor. }
    pose proof (exec_span_greedy "*" "*" "<em>" "</em>"
                  (" "%char :: a ++ [LF]) (" "%char :: b ++ []) None Hin
                  ltac:(discriminate)) as E.
    strike E. clear Hin.
    do 6 pass. enter. strike_char LF. stage_done. tidy. reflexivity.
  - unfold list_stages. pass_rest.
  - unfold cleanup_stages. pass_rest.
Qed.

End StarBullets.

(** C8, as a defect of the code. Two consecutive bullet lines written
    with the marker [*], which the list rule accepts like [-], are not
    rendered as a list: the italic rule runs before the list rule and its
    body [[^*]+] spans the line feed, so the two markers become one pair of
    emphasis delimiters.  For item texts [a] and [b] without markup
    characters the rendering of the lines [* a] and [* b] is
    [<em> a<br></em> b], with no [<ul>] and no [<li>]. *)
Theorem star_bullets_not_a_list (a b : string) :
  plain_text a -> plain_text b ->
  let html := parseMarkdown ("* " ++ a ++ NL ++ "* " ++ b)%string in
  html = ("<em> " ++ a ++ "<br></em> " ++ b)%string /\
  occurrences "<ul>" html = 0%nat /\
  occurrences "<li>" html = 0%nat.
Proof.
  intros [Ha Pa] [Hb Pb]. cbv zeta.
  pose proof (chars_nonempty a Ha) as Na.
  pose proof (chars_nonempty b Hb) as Nb.
  assert (E : parseMarkdown ("* " ++ a ++ NL ++ "* " ++ b)%string
              = ("<em> " ++ a ++ "<br></em> " ++ b)%string).
  { to_chars. rewrite <- (app_nil_r (chars b)).
    rewrite (star_lines (chars a) (chars b)) by assumption. to_string. }
  rewrite E. split; [reflexivity|].
  split; unfold occurrences; rewrite !chars_append;
    rewrite <- (app_nil_r (chars b));
    cbn [list_ascii_of_string app];
    repeat (simpl occurrences_in;
            rewrite ?occurrences_in_plain by (exact lt_special || assumption));
    reflexivity.
Qed.

(** The failing input [* a], [* b], beside the same items with [-]. *)
Lemma star_bullets_not_a_list_witness :
  plain_text "a" /\ plain_text "b" /\
  parseMarkdown ("* a" ++ NL ++ "* b") = "<em> a<br></em> b"%string /\
  occurrences "<ul>" (parseMarkdown ("* a" ++ NL ++ "* b")) = 0%nat /\
  occurrences "<li>" (parseMarkdown ("* a" ++ NL ++ "* b")) = 0%nat.
Proof.
  assert (Pa : plain_text "a")
    by (apply plain_sample; [discriminate|reflexivity]).
  assert (Pb : plain_text "b")
    by (apply plain_sample; [discriminate|reflexivity]).
  split; [exact Pa|]. split; [exact Pb|].
  exact (star_bullets_not_a_list "a" "b" Pa Pb).
Defined.


(** With CRLF line ends the carriage return stays between the two items,
    and the lines [- a] and [- b] become two lists. *)
Remark crlf_bullets_are_two_lists :
  parseMarkdown ("- a" ++ String CR NL ++ "- b")
  = ("<ul><li>a</li></ul>" ++ String CR "<ul><li>b</li></ul>")%string /\
  occurrences "<ul>" (parseMarkdown ("- a" ++ String CR NL ++ "- b")) = 2%nat.
Proof. vm_compute. split; reflexivity. Qed.

(** ** Markup characters of the source *)

Section Entities.

Variables a b : str.
Hypothesis plain_a : Forall (fun c => plain c = true) a.
Hypothesis plain_b : Forall (fun c => plain c = true) b.
Hypothesis some_a : a <> [].
Hypothesis some_b : b <> [].

Lemma amp_kept :
  after_escape (run_stages escape_stages (a ++ "&"%char :: b ++ []))
  = a ++ chars "&amp;" ++ b ++ [].
Proof.
  apply (stages_steps _ (a ++ chars "&amp;" ++ b ++ [])
           (a ++ chars "&amp;" ++ b ++ []) (a ++ chars "&amp;" ++ b ++ [])).
  - unfold escape_stages. enter. strike_char "&"%char. pass_rest.
  - unfold markup_stages. pass_rest.
  - unfold list_stages. pass_rest.
  - unfold cleanup_stages. pass_rest.
Qed.

Lemma lt_kept :
  after_escape (run_stages escape_stages (a ++ "<"%char :: b ++ []))
  = a ++ chars "&lt;" ++ b ++ [].
Proof.
  apply (stages_steps _ (a ++ chars "&lt;" ++ b ++ [])
           (a ++ chars "&lt;" ++ b ++ []) (a ++ chars "&lt;" ++ b ++ [])).
  - unfold escape_stages. pass. enter. strike_char "<"%char. pass_rest.
  - unfold markup_stages. pass_rest.
  - unfold list_stages. pass_rest.
  - unfold cleanup_stages. pass_rest.
Qed.

Lemma gt_kept :
  after_escape (run_stages escape_stages (a ++ ">"%char :: b ++ []))
  = a ++ chars "&gt;" ++ b ++ [].
Proof.
  apply (stages_steps _ (a ++ chars "&gt;" ++ b ++ [])
           (a ++ chars "&gt;" ++ b ++ []) (a ++ chars "&gt;" ++ b ++ [])).
  - unfold escape_stages. do 2 pass. enter. strike_char ">"%char. pass_rest.
  - unfold markup_stages. pass_rest.
  - unfold list_stages. pass_rest.
  - unfold cleanup_stages. pass_rest.
Qed.

End Entities.

(** X8. A markup character of the source that stands between two texts
    without markup characters is rendered as its entity: [&] as [&amp;],
    [<] as [&lt;] and [>] as [&gt;]; no later stage touches the entity. *)
Theorem entities_are_kept (a b : string) :
  plain_text a -> plain_text b ->
  parseMarkdown (a ++ "&" ++ b) = (a ++ "&amp;" ++ b)%string /\
  parseMarkdown (a ++ "<" ++ b) = (a ++ "&lt;" ++ b)%string /\
  parseMarkdown (a ++ ">" ++ b) = (a ++ "&gt;" ++ b)%string.
Proof.
  intros [Ha Pa] [Hb Pb].
  pose proof (chars_nonempty a Ha) as Na.
  pose proof (chars_nonempty b Hb) as Nb.
  split; [|split].
  - to_chars. cbn [list_ascii_of_string app].
    rewrite <- (app_nil_r (chars b)).
    rewrite (amp_kept (chars a) (chars b)) by assumption. to_string.
  - to_chars. cbn [list_ascii_of_string app].
    rewrite <- (app_nil_r (chars b)).
    rewrite (lt_kept (chars a) (chars b)) by assumption. to_string.
  - to_chars. cbn [list_ascii_of_string app].
    rewrite <- (app_nil_r (chars b)).
    rewrite (gt_kept (chars a) (chars b)) by assumption. to_string.
Qed.

Lemma entities_are_kept_witness :
  plain_text "if a " /\ plain_text " b then" /\
  parseMarkdown "if a & b then" = "if a &amp; b then"%string /\
  parseMarkdown "if a < b then" = "if a &lt; b then"%string /\
  parseMarkdown "if a > b then" = "if a &gt; b then"%string.
Proof.
  assert (Pa : plain_text "if a ")
    by (apply plain_sample; [discriminate|reflexivity]).
  assert (Pb : plain_text " b then")
    by (apply plain_sample; [discriminate|reflexivity]).
  split; [exact Pa|]. split; [exact Pb|].
  exact (entities_are_kept "if a " " b then" Pa Pb).
Defined.

(** ** Gestures, the view and the clipboard *)



Lemma Qeq_bool_same (q : Q) : Qeq_bool q q = true.
Proof. apply Qeq_bool_iff. reflexivity. Qed.


(** X11. The shortcuts are off while the user types.  With the focus in
    an input of the host or in the content area of a note that is being
    edited, no key but Escape changes the state through the document's
    handler, and the handler does not stop the event. *)
Theorem shortcuts_off_while_typing (html_text : string -> string)
    (env : Env) (key : string) (ctrl : bool) (focus : Focus) (st : State) :
  isTyping focus st = true ->
  key <> "Escape"%string ->
  globalKeyDownHandler html_text env key ctrl focus st = (st, false).
Proof.
  intros Ht Hk. unfold globalKeyDownHandler. rewrite Ht.
  apply String.eqb_neq in Hk. rewrite Hk.
  cbn [negb]. rewrite !andb_false_r. cbn [andb on_key orb].
  reflexivity.
Qed.

Lemma shortcuts_off_while_typing_witness :
  let st := selectNote 1 sample_state in
  selectedNoteId st = Some 1%Z /\
  globalKeyDownHandler (fun h => h) sample_env "Delete" false FocusHostInput st
  = (st, false) /\
  fst (globalKeyDownHandler (fun h => h) sample_env "Delete" false FocusNone st)
  = removeNote 1 st.
Proof.
  cbv zeta. split; [reflexivity|]. split.
  - apply (shortcuts_off_while_typing (fun h => h) sample_env "Delete" false
             FocusHostInput (selectNote 1 sample_state)).
    + reflexivity.
    + discriminate.
  - reflexivity.
Defined.

Lemma filter_all {A : Type} (f : A -> bool) (l : list A) :
  (forall x, In x l -> f x = true) -> filter f l = l.
Proof.
  induction l as [|x l IH]; simpl; intros H; [reflexivity|].
  rewrite (H x (or_introl eq_refl)), IH; [reflexivity|].
  intros y Hy. apply H. right. exact Hy.
Qed.

(** X12. Removal takes away one note and nothing else.  In every state
    the script reaches, after [removeNote i] the notes are those of the
    state whose identifier is not [i], each unchanged and in the same
    order; the counter of identifiers and the clipboard stay as they
    are, so the identifier of a removed note is not given again. *)
Theorem removal_takes_one_note (html_text : string -> string)
    (layout_offset : Q -> Q) (trace : list (Env * Event)) (i : Z) :
  let st := run html_text layout_offset initial_state trace in
  stickyNotes (removeNote i st)
  = filter (fun n => negb (Z.eqb (id n) i)) (stickyNotes st) /\
  (forall n, In n (stickyNotes (removeNote i st)) <->
             In n (stickyNotes st) /\ id n <> i) /\
  noteIdCounter (removeNote i st) = noteIdCounter st /\
  clipboardNote (removeNote i st) = clipboardNote st /\
  Forall (fun n => (id n <= noteIdCounter (removeNote i st))%Z)
    (stickyNotes st).
Proof.
  intros st.
  assert (H : selection_ok st)
    by (apply selection_ok_run; exact selection_ok_initial).
  destruct H as (Hnd & Hle & _ & _).
  assert (Hfilter : forall l, NoDup (map id l) ->
            remove_first i l = filter (fun n => negb (Z.eqb (id n) i)) l).
  { induction l as [|m l IH]; simpl; intros Hn; [reflexivity|].
    inversion Hn as [|x xs Hx Hxs]; subst.
    destruct (Z.eqb (id m) i) eqn:E; simpl.
    - apply Z.eqb_eq in E. symmetry. apply filter_all.
      intros n Hin. apply negb_true_iff. apply Z.eqb_neq. intros Hi.
      apply Hx. rewrite E, <- Hi. apply in_map. exact Hin.
    - rewrite (IH Hxs). reflexivity. }
  assert (Hnone : find_note i (stickyNotes st) = None ->
            filter (fun n => negb (Z.eqb (id n) i)) (stickyNotes st)
            = stickyNotes st).
  { intros Hf. apply filter_all. intros n Hin.
    apply negb_true_iff. apply Z.eqb_neq.
    exact (find_note_none i _ Hf n Hin). }
  assert (Hnotes : stickyNotes (removeNote i st)
                   = filter (fun n => negb (Z.eqb (id n) i)) (stickyNotes st)).
  { unfold removeNote.
    destruct (find_note i (stickyNotes st)) eqn:Hf;
      [|symmetry; apply Hnone; reflexivity].
    cbn [selectedNoteId set_stickyNotes].
    rewrite <- (Hfilter _ Hnd).
    destruct (selectedNoteId st) as [sel|]; [|reflexivity].
    destruct (Z.eqb sel i); reflexivity. }
  assert (Hrest : noteIdCounter (removeNote i st) = noteIdCounter st /\
                  clipboardNote (removeNote i st) = clipboardNote st).
  { unfold removeNote.
    destruct (find_note i (stickyNotes st)); [|split; reflexivity].
    cbn [selectedNoteId set_stickyNotes].
    destruct (selectedNoteId st) as [sel|]; [|split; reflexivity].
    destruct (Z.eqb sel i); split; reflexivity. }
  split; [exact Hnotes|]. split; [|split; [apply Hrest|split; [apply Hrest|]]].
  - intros n. rewrite Hnotes, filter_In, negb_true_iff, Z.eqb_neq. tauto.
  - rewrite (proj1 Hrest). eapply Forall_impl; [|exact Hle].
    intros n Hn. exact Hn.
Qed.

Lemma find_note_last (l : list Note) (m : Note) :
  (forall n, In n l -> id n <> id m) ->
  find_note (id m) (l ++ [m]) = Some m.
Proof.
  unfold find_note. induction l as [|n l IH]; simpl; intros H.
  - rewrite Z.eqb_refl. reflexivity.
  - rewrite (proj2 (Z.eqb_neq _ _) (H n (or_introl eq_refl))).
    apply IH. intros k Hk. apply H. right. exact Hk.
Qed.

(** A note added at the end under the next identifier and selected. *)
Lemma added_and_selected (m : Note) (st : State) :
  selection_ok st ->
  id m = (noteIdCounter st + 1)%Z ->
  let st' :=
    selectNote (noteIdCounter st + 1)
      (set_noteIdCounter (noteIdCounter st + 1)
         (set_stickyNotes (stickyNotes st ++ [m]) st)) in
  find_note (id m) (stickyNotes st')
  = Some (map_element (set_el_selected true) m) /\
  map id (stickyNotes st') = map id (stickyNotes st) ++ [id m] /\
  selectedNoteId st' = Some (id m) /\
  noteIdCounter st' = id m /\
  clipboardNote st' = clipboardNote st.
Proof.
  intros (Hnd & Hle & Hlive & _) Hid. cbv zeta.
  assert (Hfresh : forall n, In n (stickyNotes st) -> id n <> id m).
  { intros n Hn. rewrite Forall_forall in Hle. specialize (Hle n Hn). lia. }
  assert (Hkeep : forall (f : Element -> Element) n,
            id (map_element f n) = id n) by reflexivity.
  rewrite <- Hid. unfold selectNote, deselectAllNotes.
  cbn [selectedNoteId set_noteIdCounter set_stickyNotes].
  destruct (selectedNoteId st) as [sel|] eqn:Hsel;
    unfold update_in;
    cbn [stickyNotes set_stickyNotes set_noteIdCounter set_selectedNoteId
         selectedNoteId noteIdCounter clipboardNote].
  - assert (Hne : Z.eqb sel (id m) = false).
    { apply Z.eqb_neq. intros E. specialize (Hlive sel eq_refl).
      apply is_live_ids in Hlive. apply in_map_iff in Hlive.
      destruct Hlive as (n & En & Hn). apply (Hfresh n Hn). congruence. }
    rewrite !find_update_note by (intros; apply Hkeep).
    rewrite Z.eqb_refl, Hne, (find_note_last _ m Hfresh).
    rewrite !ids_update_note by (intros; apply Hkeep).
    rewrite map_app. repeat split.
  - rewrite !find_update_note by (intros; apply Hkeep).
    rewrite Z.eqb_refl, (find_note_last _ m Hfresh).
    rewrite !ids_update_note by (intros; apply Hkeep).
    rewrite map_app. repeat split.
Qed.

(** X13. Copy and paste.  In a state the script reaches with a note [n]
    selected, Ctrl+C followed by Ctrl+V adds one note under the next
    identifier, with the width, height, text and colour of [n], rendered
    and not in edit mode, at the canvas position of the centre of the
    view, and selects it; the notes that were there keep their
    identifiers and order. *)
Theorem copy_then_paste (html_text : string -> string)
    (layout_offset : Q -> Q) (trace : list (Env * Event))
    (ds : DragScale) (now : Z) (canvasW canvasH : Q) (n : Note) :
  let st := run html_text layout_offset initial_state trace in
  getSelectedNote st = Some n ->
  let st' := pasteNote ds now canvasW canvasH (copySelectedNote st) in
  let newId := (noteIdCounter st + 1)%Z in
  noteIdCounter st' = newId /\
  selectedNoteId st' = Some newId /\
  map id (stickyNotes st') = map id (stickyNotes st) ++ [newId] /\
  exists n',
    find_note newId (stickyNotes st') = Some n' /\
    width n' = width n /\ height n' = height n /\
    text n' = text n /\ color n' = color n /\
    canvasX n' = (canvasW / 2 / ds_scale ds - ds_offset0 ds)%Q /\
    canvasY n' = (canvasH / 2 / ds_scale ds - ds_offset1 ds)%Q /\
    isEditing n' = false /\
    el_content (element n') = CHtml (parseMarkdown (text n)) /\
    el_selected (element n') = true.
Proof.
  intros st Hn. cbv zeta.
  assert (H : selection_ok st)
    by (apply selection_ok_run; exact selection_ok_initial).
  unfold copySelectedNote. rewrite Hn. unfold pasteNote.
  cbn [clipboardNote set_clipboardNote clip_width clip_height clip_text
       clip_color noteIdCounter stickyNotes].
  match goal with
  | |- context [stickyNotes st ++ [?m]] =>
      assert (H1 : selection_ok
                     (set_clipboardNote
                        (Some (mkClipboard (width n) (height n) (text n)
                                 (color n))) st))
        by exact H;
      destruct (added_and_selected m _ H1 eq_refl)
        as (Hf & Hids & Hsel & Hc & _)
  end.
  cbv zeta in Hf, Hids, Hsel, Hc.
  cbn [noteIdCounter stickyNotes set_clipboardNote id renderNoteContent
       map_element set_element] in Hf, Hids, Hsel, Hc.
  split; [exact Hc|]. split; [exact Hsel|]. split; [exact Hids|].
  eexists. split; [exact Hf|]. repeat split.
Qed.

Lemma copy_then_paste_witness :
  let trace :=
    [ (sample_env, KeyDown "t" false false FocusNone);
      (sample_env, ClickCanvas 100 50) ] in
  let st := run (fun h => h) (fun q => q) initial_state trace in
  let n := nth 0 (stickyNotes st) editing_note in
  let st' := pasteNote (mkDS 1 0 0) sample_now 800 600 (copySelectedNote st) in
  getSelectedNote st = Some n /\
  noteIdCounter st' = 2%Z /\
  selectedNoteId st' = Some 2%Z /\
  map id (stickyNotes st') = [1; 2]%Z.
Proof.
  cbv zeta.
  assert (Hn :
    getSelectedNote
      (run (fun h => h) (fun q => q) initial_state
         [ (sample_env, KeyDown "t" false false FocusNone);
           (sample_env, ClickCanvas 100 50) ])
    = Some (nth 0
              (stickyNotes
                 (run (fun h => h) (fun q => q) initial_state
                    [ (sample_env, KeyDown "t" false false FocusNone);
                      (sample_env, ClickCanvas 100 50) ]))
              editing_note))
    by (vm_compute; reflexivity).
  split; [exact Hn|].
  destruct (copy_then_paste (fun h => h) (fun q => q)
              [ (sample_env, KeyDown "t" false false FocusNone);
                (sample_env, ClickCanvas 100 50) ]
              (mkDS 1 0 0) sample_now 800 600 _ Hn)
    as (Hc & Hs & Hi & _).
  split; [exact Hc|]. split; [exact Hs|exact Hi].
Defined.

(** X14. Duplication.  In a state the script reaches with a note [n]
    selected, Ctrl+D adds one note under the next identifier, with the
    width, height, text and colour of [n], 20 canvas units to the right of
    and below [n], shown where the view puts that position, rendered and
    not in edit mode, and selects it. *)
Theorem duplicate_is_offset_copy (html_text : string -> string)
    (layout_offset : Q -> Q) (trace : list (Env * Event))
    (ds : DragScale) (now : Z) (n : Note) :
  let st := run html_text layout_offset initial_state trace in
  getSelectedNote st = Some n ->
  let st' := duplicateSelectedNote ds now st in
  let newId := (noteIdCounter st + 1)%Z in
  noteIdCounter st' = newId /\
  selectedNoteId st' = Some newId /\
  map id (stickyNotes st') = map id (stickyNotes st) ++ [newId] /\
  exists n',
    find_note newId (stickyNotes st') = Some n' /\
    width n' = width n /\ height n' = height n /\
    text n' = text n /\ color n' = color n /\
    canvasX n' = (canvasX n + 20)%Q /\
    canvasY n' = (canvasY n + 20)%Q /\
    el_left (element n') = px (canvasToScreen ds (canvasX n') (canvasY n')) /\
    el_top (element n') = py (canvasToScreen ds (canvasX n') (canvasY n')) /\
    isEditing n' = false /\
    el_content (element n') = CHtml (parseMarkdown (text n)) /\
    el_selected (element n') = true.
Proof.
  intros st Hn. cbv zeta.
  assert (H : selection_ok st)
    by (apply selection_ok_run; exact selection_ok_initial).
  unfold duplicateSelectedNote. rewrite Hn.
  match goal with
  | |- context [stickyNotes st ++ [?m]] =>
      destruct (added_and_selected m _ H eq_refl)
        as (Hf & Hids & Hsel & Hc & _)
  end.
  cbv zeta in Hf, Hids, Hsel, Hc.
  cbn [id renderNoteContent map_element set_element] in Hf, Hids, Hsel, Hc.
  split; [exact Hc|]. split; [exact Hsel|]. split; [exact Hids|].
  eexists. split; [exact Hf|]. repeat split.
Qed.

Lemma duplicate_is_offset_copy_witness :
  let trace :=
    [ (sample_env, KeyDown "t" false false FocusNone);
      (sample_env, ClickCanvas 100 50) ] in
  let st := run (fun h => h) (fun q => q) initial_state trace in
  let n := nth 0 (stickyNotes st) editing_note in
  let st' := duplicateSelectedNote (mkDS 1 0 0) sample_now st in
  getSelectedNote st = Some n /\
  noteIdCounter st' = 2%Z /\
  selectedNoteId st' = Some 2%Z /\
  map id (stickyNotes st') = [1; 2]%Z.
Proof.
  cbv zeta.
  assert (Hn :
    getSelectedNote
      (run (fun h => h) (fun q => q) initial_state
         [ (sample_env, KeyDown "t" false false FocusNone);
           (sample_env, ClickCanvas 100 50) ])
    = Some (nth 0
              (stickyNotes
                 (run (fun h => h) (fun q => q) initial_state
                    [ (sample_env, KeyDown "t" false false FocusNone);
                      (sample_env, ClickCanvas 100 50) ]))
              editing_note))
    by (vm_compute; reflexivity).
  split; [exact Hn|].
  destruct (duplicate_is_offset_copy (fun h => h) (fun q => q)
              [ (sample_env, KeyDown "t" false false FocusNone);
                (sample_env, ClickCanvas 100 50) ]
              (mkDS 1 0 0) sample_now _ Hn)
    as (Hc & Hs & Hi & _).
  split; [exact Hc|]. split; [exact Hs|exact Hi].
Defined.

(** X15. Creation by T + click.  In a state the script reaches, a click
    on the canvas does nothing unless the T key is held; with T held it
    adds one note under the next identifier, with the default text, colour
    and size, at the canvas position of the click and shown at the click,
    rendered and not in edit mode, and selects it. *)
Theorem click_creates_with_T_held (html_text : string -> string)
    (layout_offset : Q -> Q) (trace : list (Env * Event))
    (env : Env) (x y : Q) :
  let st := run html_text layout_offset initial_state trace in
  let st' := step html_text layout_offset env st (ClickCanvas x y) in
  let newId := (noteIdCounter st + 1)%Z in
  (isTKeyHeld st = false -> st' = st) /\
  (isTKeyHeld st = true ->
   noteIdCounter st' = newId /\
   selectedNoteId st' = Some newId /\
   map id (stickyNotes st') = map id (stickyNotes st) ++ [newId] /\
   exists n',
     find_note newId (stickyNotes st') = Some n' /\
     text n' = DEFAULT_TEXT /\ color n' = DEFAULT_COLOR /\
     width n' = DEFAULT_WIDTH /\ height n' = DEFAULT_HEIGHT /\
     canvasX n' = px (screenToCanvas (env_ds env) x y) /\
     canvasY n' = py (screenToCanvas (env_ds env) x y) /\
     el_left (element n') = x /\ el_top (element n') = y /\
     el_scale (element n') = ds_scale (env_ds env) /\
     isEditing n' = false /\
     el_content (element n') = CHtml (parseMarkdown DEFAULT_TEXT) /\
     el_selected (element n') = true).
Proof.
  intros st. cbv zeta. cbn [step]. split; intros Ht; rewrite Ht;
    [reflexivity|].
  assert (H : selection_ok st)
    by (apply selection_ok_run; exact selection_ok_initial).
  unfold createStickyNote.
  match goal with
  | |- context [stickyNotes st ++ [?m]] =>
      destruct (added_and_selected m _ H eq_refl)
        as (Hf & Hids & Hsel & Hc & _)
  end.
  cbv zeta in Hf, Hids, Hsel, Hc.
  cbn [id renderNoteContent map_element set_element] in Hf, Hids, Hsel, Hc.
  split; [exact Hc|]. split; [exact Hsel|]. split; [exact Hids|].
  eexists. split; [exact Hf|]. repeat split.
Qed.
